(** * TextDiff: a shallow embedding of [src/index.ts] and its verification

    The first part follows the source file top to bottom: the data model
    ([TextDiff], [Token], change ranges), the tokenizer with its two paths,
    the LCS aligner, the Levenshtein distance, the classifier and the
    driver [getTextDiffs].  The second part holds the specifications, the
    third the proofs.

    JavaScript strings are sequences of UTF-16 code units and are modelled
    as [list Z]; offsets and token indices are [nat].  Arrays are lists and
    are read through checked accessors, so that a read outside an array is
    visible in the model: it is either recorded in the trace (where the
    source tests the value for [undefined]) or it stops the computation with
    an error (where the source would go on with [undefined]). *)

From Stdlib Require Import ZArith Floats Uint63 Lia Bool.
From stdpp Require Import base numbers option list.

Set Default Proof Using "Type".
Open Scope nat_scope.

(** ** Strings *)

(** A string is the list of its UTF-16 code units. *)
Abbreviation str := (list Z).

(** [String.prototype.slice(start, stop)] and [Array.prototype.slice] for
    non-negative arguments: both bounds are clamped to the length and the
    result is empty when [stop <= start]. *)
Definition slice {A : Type} (l : list A) (start stop : nat) : list A :=
  take (stop - start) (drop start l).

(** ** Outcomes, the world and the two monads *)

Inductive Error : Type :=
  | TypeError       (* a property read on [undefined] *)
  | UndefinedRead   (* a number read from a hole or from outside an array *)
  | OutOfFuel.      (* a [while] loop of the model ran out of steps *)

Inductive Outcome (A : Type) : Type :=
  | Val (a : A)
  | Err (e : Error).
Arguments Val {A} a.
Arguments Err {A} e.

Definition obind {A B : Type} (m : Outcome A) (f : A -> Outcome B) : Outcome B :=
  match m with
  | Val a => f a
  | Err e => Err e
  end.

Notation "x <~ m ;; k" := (obind m (fun x => k))
  (at level 100, m at next level, right associativity).

(** The arrays whose elements the source reads and then tests for
    [undefined]. *)
Inductive ArrayName : Type := A_lcs | A_mergedChanges.

Inductive Event : Type :=
  | EvNormalize (input : str)
  | EvOutOfRange (arr : ArrayName) (index : Z).

(** The state outside the functions: the [lastIndex] property of the
    module-level [WORD_REGEX], and the trace of observed events. *)
Record World : Type := mkWorld {
  WORD_REGEX_lastIndex : nat;
  trace : list Event
}.

Definition initialWorld : World := mkWorld 0 [].

Definition M (A : Type) : Type := World -> Outcome (A * World).

Definition ret {A : Type} (a : A) : M A := fun w => Val (a, w).

Definition bind {A B : Type} (m : M A) (f : A -> M B) : M B :=
  fun w => match m w with
           | Val (a, w') => f a w'
           | Err e => Err e
           end.

Notation "x <- m ;; k" := (bind m (fun x => k))
  (at level 100, m at next level, right associativity).

Definition lift {A : Type} (o : Outcome A) : M A :=
  fun w => match o with
           | Val a => Val (a, w)
           | Err e => Err e
           end.

Definition emit (e : Event) : M unit :=
  fun w => Val (tt, mkWorld (WORD_REGEX_lastIndex w) (trace w ++ [e])).

Definition getLastIndex : M nat :=
  fun w => Val (WORD_REGEX_lastIndex w, w).

Definition setLastIndex (i : nat) : M unit :=
  fun w => Val (tt, mkWorld i (trace w)).

(** A call from the initial module state: the value, or the error. *)
Definition exec {A : Type} (m : M A) : Outcome A :=
  match m initialWorld with
  | Val (a, _) => Val a
  | Err e => Err e
  end.

(** The events of a call from the initial module state. *)
Definition events {A : Type} (m : M A) : list Event :=
  match m initialWorld with
  | Val (_, w) => trace w
  | Err _ => []
  end.

(** ** Arrays *)

(** [arr[i]] where the source uses the element as an object or a number:
    outside the array the read gives [undefined], and the model stops with
    the error [e]. *)
Definition readArr {A : Type} (e : Error) (arr : list A) (i : nat) : Outcome A :=
  match arr !! i with
  | Some x => Val x
  | None => Err e
  end.

(** Arrays of numbers made by [new Array(k)] start as holes: [None]. *)
Definition readNum (arr : list (option nat)) (i : nat) : Outcome nat :=
  match arr !! i with
  | Some (Some x) => Val x
  | _ => Err UndefinedRead
  end.

(** [arr[j] = v]: in place inside the array; past the end the array grows,
    the new slots in between being holes. *)
Definition writeNum (arr : list (option nat)) (j : nat) (v : nat) : list (option nat) :=
  if j <? length arr then <[j := Some v]> arr
  else arr ++ replicate (j - length arr) None ++ [Some v].

(** [arr[i]] where the source tests the result for [undefined]: the index
    is a JavaScript number, so it may be negative; a read outside the array
    is recorded. *)
Definition readOpt {A : Type} (name : ArrayName) (arr : list A) (i : Z) : M (option A) :=
  if (0 <=? i)%Z && (i <? Z.of_nat (length arr))%Z
  then ret (arr !! Z.to_nat i)
  else (_ <- emit (EvOutOfRange name i) ;; ret None).

(** ** Loops *)

(** [for (let i = n - 1; i >= 0; i--) body] *)
Fixpoint forDown {St : Type} (n : nat) (body : nat -> St -> Outcome St) (s : St) : Outcome St :=
  match n with
  | 0 => Val s
  | S k => s' <~ body k s ;; forDown k body s'
  end.

(** [for (let i = lo; i < lo + count; i++) body] *)
Fixpoint forUp {St : Type} (count lo : nat) (body : nat -> St -> Outcome St) (s : St) : Outcome St :=
  match count with
  | 0 => Val s
  | S c => s' <~ body lo s ;; forUp c (S lo) body s'
  end.

(** The same loop for a body that reads the world. *)
Fixpoint forUpM {St : Type} (count lo : nat) (body : nat -> St -> M St) (s : St) : M St :=
  match count with
  | 0 => ret s
  | S c => s' <- body lo s ;; forUpM c (S lo) body s'
  end.

(** [for (const x of xs) body] *)
Fixpoint forOf {A St : Type} (xs : list A) (body : A -> St -> Outcome St) (s : St) : Outcome St :=
  match xs with
  | [] => Val s
  | x :: rest => s' <~ body x s ;; forOf rest body s'
  end.

Fixpoint forOfM {A St : Type} (xs : list A) (body : A -> St -> M St) (s : St) : M St :=
  match xs with
  | [] => ret s
  | x :: rest => s' <- body x s ;; forOfM rest body s'
  end.

(** ** Data model *)

Inductive ChangeType : Type := insert | delete | replace | spell_correction.

Record TextDiff : Type := mkTextDiff {
  oldText : str;
  startIndex : nat;
  endIndex : nat;
  newText : str;
  changeType : ChangeType
}.

Inductive Kind : Type := word | sep.

Record Token : Type := mkToken {
  kind : Kind;
  value : str;
  start : nat;
  end_ : nat
}.

Record ChangeRange : Type := mkRange {
  oldTokStart : nat;
  oldTokEnd : nat;
  newTokStart : nat;
  newTokEnd : nat
}.

Global Instance Kind_eq_dec : EqDecision Kind.
Proof. solve_decision. Defined.
Global Instance ChangeType_eq_dec : EqDecision ChangeType.
Proof. solve_decision. Defined.

Definition isWord (t : Token) : bool := bool_decide (kind t = word).
Definition isSep (t : Token) : bool := bool_decide (kind t = sep).

(** ** The tokenizer *)

(** *** Code points

    Both regular expressions carry the [u] flag, so they read the string as
    code points: a lead surrogate followed by a trail surrogate is one
    character, any other code unit is a character by itself. *)

Definition isLeadSurrogate (c : Z) : bool := ((0xD800 <=? c) && (c <=? 0xDBFF))%Z.
Definition isTrailSurrogate (c : Z) : bool := ((0xDC00 <=? c) && (c <=? 0xDFFF))%Z.
Definition surrogatePairToCodePoint (lead trail : Z) : Z :=
  ((lead - 0xD800) * 0x400 + (trail - 0xDC00) + 0x10000)%Z.

Fixpoint codePoints (s : str) : list Z :=
  match s with
  | [] => []
  | c :: rest =>
      match rest with
      | d :: rest' =>
          if isLeadSurrogate c && isTrailSurrogate d
          then surrogatePairToCodePoint c d :: codePoints rest'
          else c :: codePoints rest
      | [] => [c]
      end
  end.

(** What [Intl.Segmenter] yields for one segment. *)
Record Segment : Type := mkSegment {
  segment : str;
  index : nat;
  isWordLike : option bool
}.

(** What the program takes from the platform: [String.prototype.normalize]
    with form NFC, the Unicode property test behind
    [[\p{L}\p{N}\p{M}]], and [Intl.Segmenter] with word granularity
    ([None] when [Intl.Segmenter] is undefined; the function answers [None]
    when constructing the segmenter or iterating its segments throws). *)
Record Platform : Type := mkPlatform {
  normalizeNFC : str -> str;
  isWordCodePoint : Z -> bool;
  IntlSegmenter : option (str -> option (list Segment))
}.

Section Tokenizer.

Variable P : Platform.

(** [/[\p{L}\p{N}\p{M}]/u.test(s)] *)
Definition hasWordChar (s : str) : bool :=
  existsb (isWordCodePoint P) (codePoints s).

(** The greedy [[...]+] at the head of [s], for the class of word
    characters ([cls = true]) or its complement: the number of code units
    of the longest run of characters of that class. *)
Fixpoint classRun (cls : bool) (s : str) : nat :=
  match s with
  | [] => 0
  | c :: rest =>
      match rest with
      | d :: rest' =>
          if isLeadSurrogate c && isTrailSurrogate d then
            if Bool.eqb (isWordCodePoint P (surrogatePairToCodePoint c d)) cls
            then 2 + classRun cls rest' else 0
          else
            if Bool.eqb (isWordCodePoint P c) cls
            then 1 + classRun cls rest else 0
      | [] => if Bool.eqb (isWordCodePoint P c) cls then 1 else 0
      end
  end.

(** [WORD_REGEX] tried at position [p]: the first alternative, then the
    second; the answer is the end of the match. *)
Definition matchAt (s : str) (p : nat) : option nat :=
  let w := classRun true (drop p s) in
  if 0 <? w then Some (p + w)
  else
    let w' := classRun false (drop p s) in
    if 0 <? w' then Some (p + w') else None.

Definition advanceStringIndex (s : str) (p : nat) : nat :=
  match drop p s with
  | c :: d :: _ => if isLeadSurrogate c && isTrailSurrogate d then p + 2 else p + 1
  | _ => p + 1
  end.

(** The search of [RegExp.prototype.exec] for a global pattern: from
    [lastIndex] on, the first position where the pattern matches. *)
Fixpoint regExpSearch (fuel : nat) (s : str) (p : nat) : Outcome (option (nat * nat)) :=
  if length s <? p then Val None
  else
    match matchAt s p with
    | Some e => Val (Some (p, e))
    | None =>
        match fuel with
        | 0 => Err OutOfFuel
        | S fuel' => regExpSearch fuel' s (advanceStringIndex s p)
        end
    end.

(** [WORD_REGEX.exec(s)]: the matched text and its index, or [null]; the
    regular expression keeps [lastIndex] between calls. *)
Definition WORD_REGEX_exec (s : str) : M (option (str * nat)) :=
  lastIndex <- getLastIndex ;;
  r <- lift (regExpSearch (length s + 1) s lastIndex) ;;
  match r with
  | None => _ <- setLastIndex 0 ;; ret None
  | Some (p, e) => _ <- setLastIndex e ;; ret (Some (slice s p e, p))
  end.

(** The fallback loop [while ((match = WORD_REGEX.exec(normalized)) !== null)];
    every match is non-empty, so the body runs at most [length normalized]
    times. *)
Fixpoint regexLoop (fuel : nat) (normalized : str) (tokens : list Token) : M (list Token) :=
  r <- WORD_REGEX_exec normalized ;;
  match r with
  | None => ret tokens
  | Some (v, start) =>
      match fuel with
      | 0 => lift (Err OutOfFuel)
      | S fuel' =>
          let stop := start + length v in
          let isWord := hasWordChar v in
          regexLoop fuel' normalized
            (tokens ++ [mkToken (if isWord then word else sep) v start stop])
      end
  end.

(** The loop over the segments, with the separators put back in between,
    and the tail after the last segment. *)
Definition segmenterStep (normalized : str) (st : list Token * nat) (seg : Segment)
  : list Token * nat :=
  let '(tokens, cursor) := st in
  let tokens :=
    if cursor <? index seg
    then tokens ++ [mkToken sep (slice normalized cursor (index seg)) cursor (index seg)]
    else tokens in
  let isWord :=
    match isWordLike seg with
    | Some b => b
    | None => hasWordChar (segment seg)
    end in
  (tokens ++ [mkToken (if isWord then word else sep) (segment seg) (index seg)
                      (index seg + length (segment seg))],
   index seg + length (segment seg)).

Definition segmenterTokens (normalized : str) (segments : list Segment) : list Token :=
  let '(tokens, cursor) := fold_left (segmenterStep normalized) segments ([], 0) in
  if cursor <? length normalized
  then tokens ++ [mkToken sep (drop cursor normalized) cursor (length normalized)]
  else tokens.

Definition normalize (input : str) : M str :=
  _ <- emit (EvNormalize input) ;; ret (normalizeNFC P input).

Definition tokenize (text : str) : M (list Token) :=
  normalized <- normalize text ;;
  let fallback := regexLoop (length normalized) normalized [] in
  match IntlSegmenter P with
  | Some segmenter =>
      match segmenter normalized with
      | Some segments => ret (segmenterTokens normalized segments)
      | None => fallback
      end
  | None => fallback
  end.

End Tokenizer.

Definition extractWords (tokens : list Token) : list Token :=
  filter (fun t => kind t = word) tokens.

(** ** [lcsIndicesTokens] *)

(** [dp[i][j]]: the row must exist, the cell must hold a number. *)
Definition readDP (dp : list (list (option nat))) (i j : nat) : Outcome nat :=
  row <~ readArr TypeError dp i ;; readNum row j.

(** [dp[i][j] = v] *)
Definition writeDP (dp : list (list (option nat))) (i j v : nat)
  : Outcome (list (list (option nat))) :=
  row <~ readArr TypeError dp i ;; Val (<[i := writeNum row j v]> dp).

Definition lcsFill (a b : list Token) : Outcome (list (list (option nat))) :=
  let n := length a in
  let m := length b in
  let dp := replicate (n + 1) (replicate (m + 1) (Some 0)) in
  forDown n (fun i dp =>
    forDown m (fun j dp =>
      ai <~ readArr TypeError a i ;;
      bj <~ readArr TypeError b j ;;
      if bool_decide (value ai = value bj) then
        d <~ readDP dp (i + 1) (j + 1) ;;
        writeDP dp i j (d + 1)
      else
        d1 <~ readDP dp (i + 1) j ;;
        d2 <~ readDP dp i (j + 1) ;;
        writeDP dp i j (Nat.max d1 d2)) dp) dp.

(** The reconstruction loop [while (i < n && j < m)]; every turn advances
    [i] or [j], so [n + m] turns are enough. *)
Fixpoint lcsWalk (fuel : nat) (a b : list Token) (dp : list (list (option nat)))
    (i j : nat) (pairs : list (nat * nat)) : Outcome (list (nat * nat)) :=
  if (i <? length a) && (j <? length b) then
    match fuel with
    | 0 => Err OutOfFuel
    | S fuel' =>
        ai <~ readArr TypeError a i ;;
        bj <~ readArr TypeError b j ;;
        if bool_decide (value ai = value bj) then
          lcsWalk fuel' a b dp (i + 1) (j + 1) (pairs ++ [(i, j)])
        else
          d1 <~ readDP dp (i + 1) j ;;
          d2 <~ readDP dp i (j + 1) ;;
          if d2 <=? d1 then lcsWalk fuel' a b dp (i + 1) j pairs
          else lcsWalk fuel' a b dp i (j + 1) pairs
    end
  else Val pairs.

Definition lcsIndicesTokens (a b : list Token) : Outcome (list (nat * nat)) :=
  dp <~ lcsFill a b ;;
  lcsWalk (length a + length b) a b dp 0 0 [].

(** ** [levenshtein] *)

(** [s.charCodeAt(i)] is [NaN] outside the string. *)
Definition charCodeAt (s : str) (i : nat) : Outcome Z := readArr UndefinedRead s i.

Definition levenshtein (a b : str) : Outcome nat :=
  if bool_decide (a = b) then Val 0 else
  let n := length a in
  let m := length b in
  if bool_decide (n = 0) then Val m else
  if bool_decide (m = 0) then Val n else
  let prev : list (option nat) := replicate (m + 1) None in
  let curr : list (option nat) := replicate (m + 1) None in
  prev <~ forUp (m + 1) 0 (fun j prev => Val (writeNum prev j j)) prev ;;
  rows <~ forUp n 1 (fun i '(prev, curr) =>
      let curr := writeNum curr 0 i in
      ai <~ charCodeAt a (i - 1) ;;
      curr <~ forUp m 1 (fun j curr =>
          bj <~ charCodeAt b (j - 1) ;;
          let cost := if bool_decide (ai = bj) then 0 else 1 in
          p1 <~ readNum prev j ;;
          c1 <~ readNum curr (j - 1) ;;
          p0 <~ readNum prev (j - 1) ;;
          Val (writeNum curr j (Nat.min (Nat.min (p1 + 1) (c1 + 1)) (p0 + cost)))) curr ;;
      prev <~ forUp (m + 1) 0 (fun j prev =>
          cj <~ readNum curr j ;; Val (writeNum prev j cj)) prev ;;
      Val (prev, curr)) (prev, curr) ;;
  readNum (fst rows) m.

(** ** [classifyChange] *)

(** [Math.ceil] of a double, as an integer. *)
Definition Math_ceil (f : float) : Z :=
  match Prim2SF f with
  | S754_finite false m e =>
      if (0 <=? e)%Z then Z.pos m * 2 ^ e
      else (Z.pos m + 2 ^ (- e) - 1) / 2 ^ (- e)
  | S754_finite true m e =>
      if (0 <=? e)%Z then - (Z.pos m * 2 ^ e)
      else - (Z.pos m / 2 ^ (- e))
  | _ => 0
  end%Z.

(** A length as a JavaScript number. *)
Definition numberOfNat (n : nat) : float :=
  PrimFloat.of_uint63 (Uint63.of_Z (Z.of_nat n)).

(** [Math.max(2, Math.ceil(0.3 * maxLen))], in double arithmetic. *)
Definition spellThreshold (maxLen : nat) : Z :=
  Z.max 2 (Math_ceil (0x1.3333333333333p-2 * numberOfNat maxLen)%float).

Definition classifyChange (oldTokSlice newTokSlice : list Token)
    (oldSlice newSlice : str) : Outcome ChangeType :=
  if bool_decide (length oldSlice = 0) && (0 <? length newSlice) then Val insert else
  if bool_decide (length newSlice = 0) && (0 <? length oldSlice) then Val delete else
  let oldWords := filter (fun t => kind t = word) oldTokSlice in
  let newWords := filter (fun t => kind t = word) newTokSlice in
  if bool_decide (length oldWords = 1) && bool_decide (length newWords = 1) then
    oldWord <~ readArr TypeError oldWords 0 ;;
    newWord <~ readArr TypeError newWords 0 ;;
    d <~ levenshtein (value oldWord) (value newWord) ;;
    let maxLen := Nat.max (length (value oldWord)) (length (value newWord)) in
    if (0 <? d) && (Z.of_nat d <=? spellThreshold maxLen)%Z
    then Val spell_correction
    else Val replace
  else Val replace.

Definition sliceFromOriginal (original : str) (start stop : nat) : str :=
  slice original start stop.

(** ** [getTextDiffs] *)

(** One turn of the loop [for (let k = 0; k <= lcs.length; k++)]: the read
    [lcs[k]] of the last turn finds no pair, and the lengths stand in for
    it. *)
Definition extractStep (oldTokens newTokens : list Token) (lcs : list (nat * nat))
    (k : nat) (st : list ChangeRange * nat * nat) : M (list ChangeRange * nat * nat) :=
  let '(changes, prevOld, prevNew) := st in
  pair <- readOpt A_lcs lcs (Z.of_nat k) ;;
  let nextOld := match pair with Some p => fst p | None => length oldTokens end in
  let nextNew := match pair with Some p => snd p | None => length newTokens end in
  let changes :=
    if (prevOld <? nextOld) || (prevNew <? nextNew)
    then changes ++ [mkRange prevOld nextOld prevNew nextNew]
    else changes in
  ret (changes, nextOld + 1, nextNew + 1).

Definition extractChanges (oldTokens newTokens : list Token) (lcs : list (nat * nat))
  : M (list ChangeRange) :=
  st <- forUpM (length lcs + 1) 0 (extractStep oldTokens newTokens lcs) ([], 0, 0) ;;
  ret (fst (fst st)).

(** One turn of the merging loop; [last] is the last element of
    [mergedChanges] itself, so assigning its fields changes the array in
    place. *)
Definition mergeStep (oldTokens newTokens : list Token) (ch : ChangeRange)
    (mergedChanges : list ChangeRange) : M (list ChangeRange) :=
  last <- readOpt A_mergedChanges mergedChanges (Z.of_nat (length mergedChanges) - 1) ;;
  match last with
  | Some last =>
      let oldBetweenStart := oldTokEnd last in
      let oldBetweenEnd := oldTokStart ch in
      let newBetweenStart := newTokEnd last in
      let newBetweenEnd := newTokStart ch in
      let onlySepsBetweenOld :=
        if oldBetweenStart <=? oldBetweenEnd
        then forallb isSep (slice oldTokens oldBetweenStart oldBetweenEnd)
        else true in
      let onlySepsBetweenNew :=
        if newBetweenStart <=? newBetweenEnd
        then forallb isSep (slice newTokens newBetweenStart newBetweenEnd)
        else true in
      if onlySepsBetweenOld && onlySepsBetweenNew then
        ret (<[length mergedChanges - 1 :=
                mkRange (oldTokStart last) (oldTokEnd ch)
                        (newTokStart last) (newTokEnd ch)]> mergedChanges)
      else ret (mergedChanges ++ [ch])
  | None => ret (mergedChanges ++ [ch])
  end.

Definition mergeChanges (oldTokens newTokens : list Token) (changes : list ChangeRange)
  : M (list ChangeRange) :=
  forOfM changes (mergeStep oldTokens newTokens) [].

(** The old-side offsets of a change range. *)
Definition oldOffsets (oldTokens : list Token) (ch : ChangeRange) : Outcome (nat * nat) :=
  if oldTokStart ch <? oldTokEnd ch then
    first <~ readArr TypeError oldTokens (oldTokStart ch) ;;
    final <~ readArr TypeError oldTokens (oldTokEnd ch - 1) ;;
    Val (start first, end_ final)
  else
    let leftIdx := (Z.of_nat (oldTokStart ch) - 1)%Z in
    oldStart <~ (if (0 <=? leftIdx)%Z
                 then left <~ readArr TypeError oldTokens (Z.to_nat leftIdx) ;; Val (end_ left)
                 else Val 0) ;;
    Val (oldStart, oldStart).

(** The new-side offsets, [undefined] when the new span is empty. *)
Definition newOffsets (newTokens : list Token) (ch : ChangeRange) : Outcome (option (nat * nat)) :=
  if newTokStart ch <? newTokEnd ch then
    first <~ readArr TypeError newTokens (newTokStart ch) ;;
    final <~ readArr TypeError newTokens (newTokEnd ch - 1) ;;
    Val (Some (start first, end_ final))
  else Val None.

(** One turn of the loop over [mergedChanges]: the diff of the range, or
    nothing when the two slices are the same text ([continue]). *)
Definition diffOfRange (oldText newText : str) (oldTokens newTokens : list Token)
    (ch : ChangeRange) : Outcome (option TextDiff) :=
  old <~ oldOffsets oldTokens ch ;;
  new <~ newOffsets newTokens ch ;;
  let oldSlice := sliceFromOriginal oldText (fst old) (snd old) in
  let newSlice :=
    match new with
    | Some (newStart, newEnd) => sliceFromOriginal newText newStart newEnd
    | None => []
    end in
  if bool_decide (oldSlice = newSlice) then Val None
  else
    changeType <~ classifyChange
                    (slice oldTokens (oldTokStart ch) (oldTokEnd ch))
                    (slice newTokens (newTokStart ch) (newTokEnd ch))
                    oldSlice newSlice ;;
    Val (Some (mkTextDiff oldSlice (fst old) (snd old) newSlice changeType)).

Definition buildDiffs (oldText newText : str) (oldTokens newTokens : list Token)
    (mergedChanges : list ChangeRange) : Outcome (list TextDiff) :=
  forOf mergedChanges (fun ch diffs =>
      d <~ diffOfRange oldText newText oldTokens newTokens ch ;;
      match d with
      | Some d => Val (diffs ++ [d])
      | None => Val diffs
      end) [].

(** Alignment, range extraction and merging: the change ranges the diffs
    are built from. *)
Definition mergedChangesOf (oldTokens newTokens : list Token) : M (list ChangeRange) :=
  lcs <- lift (lcsIndicesTokens oldTokens newTokens) ;;
  changes <- extractChanges oldTokens newTokens lcs ;;
  mergeChanges oldTokens newTokens changes.

Section Driver.

Variable P : Platform.

Definition getTextDiffs (oldTextInput newTextInput : str) : M (list TextDiff) :=
  oldText <- normalize P oldTextInput ;;
  newText <- normalize P newTextInput ;;
  if bool_decide (oldText = newText) then ret []
  else
    oldTokens <- tokenize P oldText ;;
    newTokens <- tokenize P newText ;;
    mergedChanges <- mergedChangesOf oldTokens newTokens ;;
    lift (buildDiffs oldText newText oldTokens newTokens mergedChanges).

End Driver.

(** * Specifications

    The definitions the theorems are stated with: the specifications of the
    stages, the invariants of the loops, and the value of each stage as a
    function of its inputs. *)

(** ** Longest common subsequence *)

(** The recurrence of the table, read on the two value sequences: the
    entry of the cell [(i, j)] is [lcs_len] of the suffixes from [i] and
    from [j]. *)
Fixpoint lcs_len (xs ys : list str) : nat :=
  match xs with
  | [] => 0
  | x :: xs' =>
      (fix inner (ys : list str) : nat :=
         match ys with
         | [] => 0
         | y :: ys' =>
             if bool_decide (x = y) then S (lcs_len xs' ys')
             else Nat.max (lcs_len xs' ys) (inner ys')
         end) ys
  end.

(** The reconstruction policy in the words of the specification: on equal
    values emit the pair and advance both pointers, otherwise advance the
    old pointer when [dp[i+1][j] >= dp[i][j+1]] and the new one if not. *)
Fixpoint lcs_policy (xs ys : list str) (i j : nat) : list (nat * nat) :=
  match xs with
  | [] => []
  | x :: xs' =>
      (fix inner (ys : list str) (j : nat) : list (nat * nat) :=
         match ys with
         | [] => []
         | y :: ys' =>
             if bool_decide (x = y) then (i, j) :: lcs_policy xs' ys' (S i) (S j)
             else if lcs_len (x :: xs') ys' <=? lcs_len xs' ys
                  then lcs_policy xs' ys (S i) j
                  else inner ys' (S j)
         end) ys j
  end.

(** [n] is the length of a longest common subsequence of [xs] and [ys]. *)
Definition is_lcs_length (xs ys : list str) (n : nat) : Prop :=
  (exists c, sublist c xs /\ sublist c ys /\ length c = n) /\
  (forall c, sublist c xs -> sublist c ys -> length c <= n).

(** Index pairs that increase strictly in both components. *)
Definition pairs_increasing (ps : list (nat * nat)) : Prop :=
  forall k p q, ps !! k = Some p -> ps !! S k = Some q -> fst p < fst q /\ snd p < snd q.

(** ** The aligner *)

(** The pairs of the policy, started at [(i, j)] on the suffixes [xs] and
    [ys]: each pair lies at or after [(i, j)], joins equal values, and the
    next pair lies strictly after it. *)
Fixpoint policy_pairs_ok (xs ys : list str) (i j : nat) (ps : list (nat * nat)) : Prop :=
  match ps with
  | [] => True
  | (p, q) :: rest =>
      i <= p /\ j <= q /\
      (exists v, xs !! (p - i) = Some v /\ ys !! (q - j) = Some v) /\
      policy_pairs_ok (drop (S p - i) xs) (drop (S q - j) ys) (S p) (S q) rest
  end.

(** The value the table must hold in the cell [(i, j)]. *)
Definition Lat (a b : list Token) (i j : nat) : nat :=
  lcs_len (drop i (value <$> a)) (drop j (value <$> b)).

Definition dp_shape (n m : nat) (dp : list (list (option nat))) : Prop :=
  length dp = n + 1 /\ forall i row, dp !! i = Some row -> length row = m + 1.

Definition dp_cell (dp : list (list (option nat))) (i j v : nat) : Prop :=
  exists row, dp !! i = Some row /\ row !! j = Some (Some v).

(** The cells of [region] hold their final values. *)
Definition dp_filled (a b : list Token) (region : nat -> nat -> Prop)
    (dp : list (list (option nat))) : Prop :=
  dp_shape (length a) (length b) dp /\
  forall i j, i <= length a -> j <= length b -> region i j -> dp_cell dp i j (Lat a b i j).

(** ** The edit distance *)

(** The cost of putting [y] in the place of [x]. *)
Definition subst_cost (x y : Z) : nat := if bool_decide (x = y) then 0 else 1.

(** The Levenshtein distance by its defining recurrence on the two
    strings. *)
Fixpoint edit_distance (a b : str) : nat :=
  match a with
  | [] => length b
  | x :: a' =>
      (fix inner (b : str) : nat :=
         match b with
         | [] => length a
         | y :: b' =>
             Nat.min (Nat.min (edit_distance a' b + 1) (inner b' + 1))
                     (edit_distance a' b' + subst_cost x y)
         end) b
  end.

(** An alignment of two strings and its cost: every deletion, insertion
    and substitution costs one, a kept character nothing. *)
Inductive alignment : str -> str -> nat -> Prop :=
  | alignment_nil : alignment [] [] 0
  | alignment_delete x a b n : alignment a b n -> alignment (x :: a) b (S n)
  | alignment_insert y a b n : alignment a b n -> alignment a (y :: b) (S n)
  | alignment_keep x a b n : alignment a b n -> alignment (x :: a) (x :: b) n
  | alignment_substitute x y a b n : alignment a b n -> alignment (x :: a) (y :: b) (S n).

(** ** The classifier *)

(** [d] is the least cost of an alignment of [a] and [b]: the unit-cost
    Levenshtein distance on code units. *)
Definition least_alignment_cost (a b : str) (d : nat) : Prop :=
  alignment a b d /\ forall n, alignment a b n -> d <= n.

(** The threshold computed in doubles is the exact one for the [count]
    lengths from [z] on. *)
Fixpoint thresholdExactFrom (count : nat) (z : Z) : bool :=
  match count with
  | 0 => true
  | S count' =>
      (Z.max 2 (Math_ceil (0x1.3333333333333p-2 * of_uint63 (of_Z z))%float)
         =? Z.max 2 ((3 * z + 9) / 10))%Z
      && thresholdExactFrom count' (z + 1)
  end.

(** Each side has exactly one word token, and the distance [d] of the two
    words satisfies [0 < d <= max(2, ceil(0.3 * maxLen))]. *)
Definition single_word_spelling (oldToks newToks : list Token) : Prop :=
  exists ow nw d,
    filter (fun t => kind t = word) oldToks = [ow] /\
    filter (fun t => kind t = word) newToks = [nw] /\
    least_alignment_cost (value ow) (value nw) d /\
    0 < d /\
    (Z.of_nat d <= spellThreshold (Nat.max (length (value ow)) (length (value nw))))%Z.

(** ** The tokenizer *)

(** The tokens [toks] tile the part of [text] from [p] to [q]: each token
    starts where the one before ends, is not empty, and carries the text it
    spans. *)
Fixpoint tiled (text : str) (p q : nat) (toks : list Token) : Prop :=
  match toks with
  | [] => p = q
  | t :: rest =>
      start t = p /\ p < end_ t /\ value t = slice text p (end_ t) /\
      tiled text (end_ t) q rest
  end.

(** The tokens of the fallback path from [p] on: each token is the whole
    greedy run of its class. *)
Fixpoint greedy_runs (P : Platform) (s : str) (p : nat) (toks : list Token) : Prop :=
  match toks with
  | [] => p = length s
  | t :: rest =>
      start t = p /\ p < end_ t /\ end_ t <= length s /\
      value t = slice s p (end_ t) /\
      end_ t - p = classRun P (isWord t) (drop p s) /\
      greedy_runs P s (end_ t) rest
  end.

(** What the program relies on in the segments: they come in order from
    [cursor] on, none is empty, and each is the text at its index. *)
Fixpoint segments_wf (text : str) (cursor : nat) (segs : list Segment) : bool :=
  match segs with
  | [] => true
  | seg :: rest =>
      (cursor <=? index seg) && (0 <? length (segment seg)) &&
      (index seg + length (segment seg) <=? length text) &&
      bool_decide (segment seg = slice text (index seg) (index seg + length (segment seg))) &&
      segments_wf text (index seg + length (segment seg)) rest
  end.

(** The segmenter, when it is there and answers for [text], answers with
    well-formed segments. *)
Definition segmenter_ok (P : Platform) (text : str) : Prop :=
  match IntlSegmenter P with
  | Some segmenter =>
      match segmenter text with
      | Some segments => segments_wf text 0 segments = true
      | None => True
      end
  | None => True
  end.

(** The fallback path runs for [text]. *)
Definition uses_fallback (P : Platform) (text : str) : Prop :=
  match IntlSegmenter P with
  | Some segmenter => segmenter text = None
  | None => True
  end.

(** The tokens the fallback loop appends, from position [p] on. *)
Fixpoint greedyTokens (P : Platform) (fuel : nat) (s : str) (p : nat) : list Token :=
  match fuel with
  | 0 => []
  | S fuel' =>
      if p <? length s then
        match matchAt P s p with
        | Some e =>
            mkToken (if hasWordChar P (slice s p e) then word else sep) (slice s p e) p e
            :: greedyTokens P fuel' s e
        | None => []
        end
      else []
  end.

(** The tokens of a normalized string. *)
Definition tokensOf (P : Platform) (normalized : str) : list Token :=
  match IntlSegmenter P with
  | Some segmenter =>
      match segmenter normalized with
      | Some segments => segmenterTokens P normalized segments
      | None => greedyTokens P (length normalized) normalized 0
      end
  | None => greedyTokens P (length normalized) normalized 0
  end.

(** The tiling of the claim: the first token starts at 0, the last ends at
    the length of the text, consecutive tokens touch, and each token
    carries the text between its offsets; an empty sequence tiles only the
    empty text. *)
Definition tiles_exactly (text : str) (toks : list Token) : Prop :=
  (toks = [] -> text = []) /\
  (forall t, head toks = Some t -> start t = 0) /\
  (forall t, last toks = Some t -> end_ t = length text) /\
  (forall i t u, toks !! i = Some t -> toks !! S i = Some u -> end_ t = start u) /\
  (forall t, t ∈ toks -> value t = slice text (start t) (end_ t)).

(** Each token is a maximal run of one class: it is not empty, all its
    characters are word characters for a word token and none is for a
    separator token, and the tokens next to it are of the other kind. *)
Definition maximal_class_runs (P : Platform) (toks : list Token) : Prop :=
  (forall t, t ∈ toks ->
     value t <> [] /\
     Forall (fun c => isWordCodePoint P c = isWord t) (codePoints (value t))) /\
  (forall i t u, toks !! i = Some t -> toks !! S i = Some u -> kind t <> kind u).

(** A platform for examples: on ASCII text NFC changes nothing, the word
    characters are the letters and digits, and [Intl.Segmenter] is
    undefined. *)
Definition asciiWordChar (c : Z) : bool :=
  ((48 <=? c) && (c <=? 57) || (65 <=? c) && (c <=? 90) || (97 <=? c) && (c <=? 122))%Z.

Definition fallbackPlatform : Platform :=
  mkPlatform (fun s => s) asciiWordChar None.

(** A segmenter for ASCII text: a run of letters and digits is one
    word-like segment, every other code unit is a segment of its own, as
    [Intl.Segmenter] separates a comma from the space after it. *)
Fixpoint sampleSegments (s : str) (i : nat) : list Segment :=
  match s with
  | [] => []
  | c :: rest =>
      if asciiWordChar c then
        match sampleSegments rest (S i) with
        | seg :: segs =>
            if bool_decide (isWordLike seg = Some true)
            then mkSegment (c :: segment seg) i (Some true) :: segs
            else mkSegment [c] i (Some true) :: seg :: segs
        | [] => [mkSegment [c] i (Some true)]
        end
      else mkSegment [c] i (Some false) :: sampleSegments rest (S i)
  end.

Definition segmenterPlatform : Platform :=
  mkPlatform (fun s => s) asciiWordChar (Some (fun s => Some (sampleSegments s 0))).

(** ** Range extraction and merging *)

(** The ranges the extraction loop emits for the pairs still to come, with
    [prevOld] and [prevNew] as the loop has them. *)
Fixpoint changesFrom (n m : nat) (lcs : list (nat * nat)) (prevOld prevNew : nat)
  : list ChangeRange :=
  match lcs with
  | [] =>
      if (prevOld <? n) || (prevNew <? m) then [mkRange prevOld n prevNew m] else []
  | p :: rest =>
      (if (prevOld <? p.1) || (prevNew <? p.2)
       then [mkRange prevOld p.1 prevNew p.2] else [])
      ++ changesFrom n m rest (p.1 + 1) (p.2 + 1)
  end.

(** The test of the merging loop. *)
Definition mergeable (oldTokens newTokens : list Token) (last ch : ChangeRange) : bool :=
  (if oldTokEnd last <=? oldTokStart ch
   then forallb isSep (slice oldTokens (oldTokEnd last) (oldTokStart ch))
   else true) &&
  (if newTokEnd last <=? newTokStart ch
   then forallb isSep (slice newTokens (newTokEnd last) (newTokStart ch))
   else true).

(** The merging loop seen from its last range: [last] takes in the ranges
    that follow while they can be merged. *)
Fixpoint mergeFrom (oldTokens newTokens : list Token) (last : ChangeRange)
    (rest : list ChangeRange) : list ChangeRange :=
  match rest with
  | [] => [last]
  | ch :: rest' =>
      if mergeable oldTokens newTokens last ch
      then mergeFrom oldTokens newTokens
             (mkRange (oldTokStart last) (oldTokEnd ch) (newTokStart last) (newTokEnd ch)) rest'
      else last :: mergeFrom oldTokens newTokens ch rest'
  end.

Definition mergedRanges (oldTokens newTokens : list Token) : list ChangeRange :=
  match changesFrom (length oldTokens) (length newTokens)
          (lcs_policy (value <$> oldTokens) (value <$> newTokens) 0 0) 0 0 with
  | [] => []
  | ch :: rest => mergeFrom oldTokens newTokens ch rest
  end.

Definition addEvents (w : World) (es : list Event) : World :=
  mkWorld (WORD_REGEX_lastIndex w) (trace w ++ es).

(** ** Invariants of the change ranges *)

(** The ranges lie in increasing token-index order from [(po, pn)] on,
    inside the two token sequences, with at least one token between two
    ranges, and none is empty on both sides. *)
Fixpoint ranges_ordered (n m po pn : nat) (rs : list ChangeRange) : Prop :=
  match rs with
  | [] => True
  | r :: rest =>
      po <= oldTokStart r /\ pn <= newTokStart r /\
      oldTokStart r <= oldTokEnd r <= n /\ newTokStart r <= newTokEnd r <= m /\
      (oldTokStart r < oldTokEnd r \/ newTokStart r < newTokEnd r) /\
      ranges_ordered n m (S (oldTokEnd r)) (S (newTokEnd r)) rest
  end.

(** Outside the ranges the two value sequences agree: from [(po, pn)] to
    the first range, between two ranges, and after the last one. *)
Fixpoint ranges_cover (vo vn : list str) (po pn : nat) (rs : list ChangeRange) : Prop :=
  match rs with
  | [] => drop po vo = drop pn vn
  | r :: rest =>
      po <= oldTokStart r /\ pn <= newTokStart r /\
      slice vo po (oldTokStart r) = slice vn pn (newTokStart r) /\
      oldTokStart r <= oldTokEnd r /\ newTokStart r <= newTokEnd r /\
      ranges_cover vo vn (oldTokEnd r) (newTokEnd r) rest
  end.

(** No range can be merged with the next one. *)
Fixpoint irreducible (oldTokens newTokens : list Token) (rs : list ChangeRange) : Prop :=
  match rs with
  | r :: rest =>
      match rest with
      | r' :: _ => mergeable oldTokens newTokens r r' = false
      | [] => True
      end /\ irreducible oldTokens newTokens rest
  | [] => True
  end.

(** ** The diff builder *)

(** The offset of the boundary before the token [i]: the length of the
    text of the tokens before it. *)
Definition boundary (toks : list Token) (i : nat) : nat :=
  length (concat (value <$> take i toks)).

(** The diff of one change range, when there is one. *)
Definition rangeDiff (oldText newText : str) (oldTokens newTokens : list Token)
    (ch : ChangeRange) : option TextDiff :=
  match diffOfRange oldText newText oldTokens newTokens ch with
  | Val d => d
  | Err _ => None
  end.

(** The value of [getTextDiffs], stage by stage. *)
Definition diffsOf (P : Platform) (oldTextInput newTextInput : str) : list TextDiff :=
  let oldText := normalizeNFC P oldTextInput in
  let newText := normalizeNFC P newTextInput in
  if bool_decide (oldText = newText) then []
  else
    let oldTokens := tokensOf P (normalizeNFC P oldText) in
    let newTokens := tokensOf P (normalizeNFC P newText) in
    omap (rangeDiff oldText newText oldTokens newTokens) (mergedRanges oldTokens newTokens).

(** The events of a call of [getTextDiffs]. *)
Definition eventsOf (P : Platform) (oldTextInput newTextInput : str) : list Event :=
  let oldText := normalizeNFC P oldTextInput in
  let newText := normalizeNFC P newTextInput in
  [EvNormalize oldTextInput; EvNormalize newTextInput] ++
  if bool_decide (oldText = newText) then []
  else
    let oldTokens := tokensOf P (normalizeNFC P oldText) in
    let newTokens := tokensOf P (normalizeNFC P newText) in
    [EvNormalize oldText; EvNormalize newText;
     EvOutOfRange A_lcs
       (Z.of_nat (length (lcs_policy (value <$> oldTokens) (value <$> newTokens) 0 0)))] ++
    match mergedRanges oldTokens newTokens with
    | [] => []
    | _ => [EvOutOfRange A_mergedChanges (-1)]
    end.

(** ** Normalization *)

(** The strings handed to [normalize], in order. *)
Definition normalizations (es : list Event) : list str :=
  omap (fun e => match e with EvNormalize s => Some s | _ => None end) es.

(** The pipeline of the specification: each input is normalized once, and
    the tokenizer works on the string it is given. *)
Definition tokenizeNormalized (P : Platform) (normalized : str) : M (list Token) :=
  let fallback := regexLoop P (length normalized) normalized [] in
  match IntlSegmenter P with
  | Some segmenter =>
      match segmenter normalized with
      | Some segments => ret (segmenterTokens P normalized segments)
      | None => fallback
      end
  | None => fallback
  end.

Definition getTextDiffsNormalizedOnce (P : Platform) (oldTextInput newTextInput : str)
  : M (list TextDiff) :=
  oldText <- normalize P oldTextInput ;;
  newText <- normalize P newTextInput ;;
  if bool_decide (oldText = newText) then ret []
  else
    oldTokens <- tokenizeNormalized P oldText ;;
    newTokens <- tokenizeNormalized P newText ;;
    mergedChanges <- mergedChangesOf oldTokens newTokens ;;
    lift (buildDiffs oldText newText oldTokens newTokens mergedChanges).

(** ** Offsets *)

(** The old-side offsets of a diff, in the words of the specification:
    the start of the first old token and the end of the last one when the
    old span is not empty; otherwise, for both, the end of the token before
    the span, or 0 when the span is at the very start. *)
Definition old_offsets_of (oldTokens : list Token) (ch : ChangeRange) (s e : nat) : Prop :=
  (oldTokStart ch < oldTokEnd ch ->
   exists first final,
     oldTokens !! oldTokStart ch = Some first /\
     oldTokens !! (oldTokEnd ch - 1) = Some final /\
     s = start first /\ e = end_ final) /\
  (~ oldTokStart ch < oldTokEnd ch -> 0 < oldTokStart ch ->
   exists left,
     oldTokens !! (oldTokStart ch - 1) = Some left /\ s = end_ left /\ e = end_ left) /\
  (~ oldTokStart ch < oldTokEnd ch -> oldTokStart ch = 0 -> s = 0 /\ e = 0).

(** ** The example of the three substituted words *)

Definition quick_brown_fox : str :=
  [113; 117; 105; 99; 107; 32; 98; 114; 111; 119; 110; 32; 102; 111; 120]%Z.

Definition fast_dark_wolf : str :=
  [102; 97; 115; 116; 32; 100; 97; 114; 107; 32; 119; 111; 108; 102]%Z.

(** The platform classifies the ASCII characters as Unicode does. *)
Definition classifies_ascii (P : Platform) : Prop :=
  forall c, (0 <= c < 128)%Z -> isWordCodePoint P c = asciiWordChar c.

(** The text is tokenized by the fallback path, or from the segments a
    word segmenter gives for words separated by single spaces. *)
Definition words_and_spaces (P : Platform) (s : str) : Prop :=
  uses_fallback P s \/
  exists segmenter, IntlSegmenter P = Some segmenter /\ segmenter s = Some (sampleSegments s 0).

Definition is_ascii (s : str) : Prop := Forall (fun c => (0 <= c < 128)%Z) s.

(** ** Applying diffs *)

(** The text the diffs describe: the old text is copied up to the start of
    each diff, the diff's new text takes the place of its span, and the
    rest of the old text follows the last diff. *)
Fixpoint applyDiffs (text : str) (cursor : nat) (diffs : list TextDiff) : str :=
  match diffs with
  | [] => drop cursor text
  | d :: rest =>
      slice text cursor (startIndex d) ++ newText d ++ applyDiffs text (endIndex d) rest
  end.

(** Calls of [getTextDiffs] one after the other in the same module state,
    collecting the results. *)
Definition getTextDiffsEach (P : Platform) (inputs : list (str * str))
  : M (list (list TextDiff)) :=
  forOfM inputs (fun input results =>
      diffs <- getTextDiffs P input.1 input.2 ;;
      ret (results ++ [diffs])) [].

(** The type of the converse change. *)
Definition converse (c : ChangeType) : ChangeType :=
  match c with
  | insert => delete
  | delete => insert
  | replace => replace
  | spell_correction => spell_correction
  end.

(** A platform whose NFC composes [e] followed by the combining acute
    accent (U+0065 U+0301) into U+00E9, and leaves everything else as it
    is. *)
Fixpoint composeAcute (s : str) : str :=
  match s with
  | [] => []
  | c :: rest =>
      match rest with
      | d :: rest' =>
          if ((c =? 0x65) && (d =? 0x301))%Z
          then 0xE9%Z :: composeAcute rest'
          else c :: composeAcute rest
      | [] => [c]
      end
  end.

Definition composingPlatform : Platform :=
  mkPlatform composeAcute (fun c => asciiWordChar c || (c =? 0xE9)%Z) None.

(** The two token sequences share no word: a token of one sequence that
    has the value of a token of the other is a separator, as is that
    other. *)
Definition no_common_word (oldTokens newTokens : list Token) : Prop :=
  forall t u, t ∈ oldTokens -> u ∈ newTokens -> value t = value u ->
    kind t = sep /\ kind u = sep.

(** ** Surrogate pairs *)

(** The offset [p] falls inside a surrogate pair of [s]: the code unit
    before it is a lead surrogate and the one at it a trail surrogate. *)
Definition splitsPair (s : str) (p : nat) : bool :=
  match p with
  | 0 => false
  | S p' =>
      match s !! p', s !! p with
      | Some c, Some d => isLeadSurrogate c && isTrailSurrogate d
      | _, _ => false
      end
  end.

(** ** Aligned words *)

(** The old token at index [i] is an aligned word: a word token that the
    alignment pairs with a token of the new text. *)
Definition aligned_word (oldTokens : list Token) (pairs : list (nat * nat)) (i : nat) : Prop :=
  (exists j, (i, j) ∈ pairs) /\ exists t, oldTokens !! i = Some t /\ kind t = word.

(** The old span of the range holds no aligned word. *)
Definition avoids_aligned_words (oldTokens : list Token) (pairs : list (nat * nat))
    (r : ChangeRange) : Prop :=
  forall i, oldTokStart r <= i < oldTokEnd r -> ~ aligned_word oldTokens pairs i.

(** * Proofs *)

(** ** The monads *)

Lemma forDown_inv {St : Type} (I : nat -> St -> Prop) n body (s : St) :
  I n s ->
  (forall k s, k < n -> I (S k) s -> exists s', body k s = Val s' /\ I k s') ->
  exists s', forDown n body s = Val s' /\ I 0 s'.
Proof.
  revert s. induction n as [|n IH]; intros s Hs Hbody; simpl.
  - eauto.
  - destruct (Hbody n s) as (s' & -> & Hs'); [lia | done |]. simpl.
    apply IH; [done |]. intros k s0 Hk. apply Hbody. lia.
Qed.

Lemma forUp_inv {St : Type} (I : nat -> St -> Prop) count lo body (s : St) :
  I lo s ->
  (forall k s, lo <= k < lo + count -> I k s -> exists s', body k s = Val s' /\ I (S k) s') ->
  exists s', forUp count lo body s = Val s' /\ I (lo + count) s'.
Proof.
  revert lo s. induction count as [|c IH]; intros lo s Hs Hbody; simpl.
  - rewrite Nat.add_0_r. eauto.
  - destruct (Hbody lo s) as (s' & -> & Hs'); [lia | done |]. simpl.
    replace (lo + S c) with (S lo + c) by lia.
    apply IH; [done |]. intros k s0 Hk. apply Hbody. lia.
Qed.

Lemma readArr_Some {A : Type} e (arr : list A) i x :
  arr !! i = Some x -> readArr e arr i = Val x.
Proof. unfold readArr. by intros ->. Qed.

Lemma readNum_Some (arr : list (option nat)) i x :
  arr !! i = Some (Some x) -> readNum arr i = Val x.
Proof. unfold readNum. by intros ->. Qed.

Lemma writeNum_length arr j v : j < length arr -> length (writeNum arr j v) = length arr.
Proof.
  intros H. unfold writeNum. apply Nat.ltb_lt in H as ->. by rewrite length_insert.
Qed.

Lemma writeNum_eq arr j v : j < length arr -> writeNum arr j v !! j = Some (Some v).
Proof.
  intros H. unfold writeNum. destruct (Nat.ltb_spec j (length arr)); [|lia].
  by apply list_lookup_insert_eq.
Qed.

Lemma writeNum_ne arr j j' v : j < length arr -> j <> j' -> writeNum arr j v !! j' = arr !! j'.
Proof.
  intros H Hne. unfold writeNum. destruct (Nat.ltb_spec j (length arr)); [|lia].
  by apply list_lookup_insert_ne.
Qed.

(** ** The aligner *)

Section LCS.

Lemma lcs_len_nil_r xs : lcs_len xs [] = 0.
Proof. by destruct xs. Qed.

Lemma lcs_len_cons x xs y ys :
  lcs_len (x :: xs) (y :: ys) =
  if bool_decide (x = y) then S (lcs_len xs ys)
  else Nat.max (lcs_len xs (y :: ys)) (lcs_len (x :: xs) ys).
Proof. reflexivity. Qed.

Lemma lcs_policy_nil_r xs i j : lcs_policy xs [] i j = [].
Proof. by destruct xs. Qed.

Lemma lcs_policy_cons x xs y ys i j :
  lcs_policy (x :: xs) (y :: ys) i j =
  if bool_decide (x = y) then (i, j) :: lcs_policy xs ys (S i) (S j)
  else if lcs_len (x :: xs) ys <=? lcs_len xs (y :: ys)
       then lcs_policy xs (y :: ys) (S i) j
       else lcs_policy (x :: xs) ys i (S j).
Proof. reflexivity. Qed.

Lemma lcs_len_upper xs ys c :
  sublist c xs -> sublist c ys -> length c <= lcs_len xs ys.
Proof.
  revert ys c. induction xs as [|x xs IHx]; intros ys c Hx Hy.
  - apply sublist_nil_r in Hx as ->. simpl. lia.
  - revert c Hx Hy. induction ys as [|y ys IHy]; intros c Hx0 Hy.
    + apply sublist_nil_r in Hy as ->. simpl. lia.
    + rewrite lcs_len_cons. pose proof Hx0 as Hx.
      apply sublist_cons_r in Hx as [Hx | (c' & -> & Hx)];
        apply sublist_cons_r in Hy as [Hy | (c'' & Hc & Hy)].
      * case_bool_decide.
        -- specialize (IHx ys c Hx Hy). lia.
        -- specialize (IHx (y :: ys) c Hx (sublist_cons _ _ _ Hy)). lia.
      * subst c. case_bool_decide.
        -- assert (sublist c'' xs) by (etrans; [apply sublist_cons, reflexivity | done]).
           specialize (IHx ys c'' H0 Hy). simpl. lia.
        -- specialize (IHx (y :: ys) (y :: c'') Hx (sublist_skip _ _ _ Hy)). lia.
      * case_bool_decide.
        -- assert (sublist c' ys) by (etrans; [apply sublist_cons, reflexivity | done]).
           specialize (IHx ys c' Hx H0). simpl. lia.
        -- specialize (IHy _ Hx0 Hy). lia.
      * injection Hc as -> ->. rewrite bool_decide_eq_true_2 by done.
        specialize (IHx ys c'' Hx Hy). simpl. lia.
Qed.

Lemma lcs_len_witness xs ys :
  exists c, sublist c xs /\ sublist c ys /\ length c = lcs_len xs ys.
Proof.
  revert ys. induction xs as [|x xs IHx]; intros ys.
  - exists []. split_and!; [done | apply sublist_nil_l | done].
  - induction ys as [|y ys IHy].
    + exists []. split_and!; [apply sublist_nil_l | done | done].
    + rewrite lcs_len_cons. case_bool_decide as Hxy.
      * subst y. destruct (IHx ys) as (c & H1 & H2 & H3).
        exists (x :: c). split_and!; [by constructor | by constructor | simpl; lia].
      * destruct (Nat.max_spec (lcs_len xs (y :: ys)) (lcs_len (x :: xs) ys)) as [[_ ->] | [_ ->]].
        -- destruct IHy as (c & H1 & H2 & H3).
           exists c. split_and!; [done | by constructor | done].
        -- destruct (IHx (y :: ys)) as (c & H1 & H2 & H3).
           exists c. split_and!; [by constructor | done | done].
Qed.

Lemma lcs_len_is_lcs_length xs ys : is_lcs_length xs ys (lcs_len xs ys).
Proof. split; [apply lcs_len_witness | intros c; apply lcs_len_upper]. Qed.

Lemma policy_pairs_ok_shift_l x xs ys i j ps :
  policy_pairs_ok xs ys (S i) j ps -> policy_pairs_ok (x :: xs) ys i j ps.
Proof.
  destruct ps as [|[p q] rest]; [done|]. simpl.
  intros (Hp & Hq & (v & Hv1 & Hv2) & Hrest). split_and!; [lia | lia | |].
  - exists v. split; [|done]. replace (p - i) with (S (p - S i)) by lia. done.
  - replace (S p - i) with (S (S p - S i)) by lia. done.
Qed.

Lemma policy_pairs_ok_shift_r xs y ys i j ps :
  policy_pairs_ok xs ys i (S j) ps -> policy_pairs_ok xs (y :: ys) i j ps.
Proof.
  destruct ps as [|[p q] rest]; [done|]. simpl.
  intros (Hp & Hq & (v & Hv1 & Hv2) & Hrest). split_and!; [lia | lia | |].
  - exists v. split; [done|]. replace (q - j) with (S (q - S j)) by lia. done.
  - replace (S q - j) with (S (S q - S j)) by lia. done.
Qed.

Lemma lcs_policy_ok xs ys i j : policy_pairs_ok xs ys i j (lcs_policy xs ys i j).
Proof.
  revert ys i j. induction xs as [|x xs IHx]; intros ys i j; [done|].
  revert j. induction ys as [|y ys IHy]; intros j; [done|].
  rewrite lcs_policy_cons. case_bool_decide as Hxy.
  - subst y. simpl. split_and!; [lia | lia | |].
    + exists x. by rewrite !Nat.sub_diag.
    + replace (S i - i) with 1 by lia. replace (S j - j) with 1 by lia. simpl.
      rewrite !drop_0. apply IHx.
  - destruct (_ <=? _).
    + apply policy_pairs_ok_shift_l, IHx.
    + apply policy_pairs_ok_shift_r, IHy.
Qed.

Lemma lcs_policy_length xs ys i j : length (lcs_policy xs ys i j) = lcs_len xs ys.
Proof.
  revert ys i j. induction xs as [|x xs IHx]; intros ys i j; [done|].
  revert j. induction ys as [|y ys IHy]; intros j; [done|].
  rewrite lcs_policy_cons, lcs_len_cons. case_bool_decide as Hxy.
  - simpl. by rewrite IHx.
  - destruct (Nat.leb_spec (lcs_len (x :: xs) ys) (lcs_len xs (y :: ys))).
    + rewrite IHx. lia.
    + rewrite IHy. lia.
Qed.

Lemma Lat_last_row a b i j : length a <= i -> Lat a b i j = 0.
Proof. intros H. unfold Lat. rewrite drop_ge; [done|]. by rewrite length_fmap. Qed.

Lemma Lat_last_col a b i j : length b <= j -> Lat a b i j = 0.
Proof.
  intros H. unfold Lat. rewrite (drop_ge (value <$> b)); [|by rewrite length_fmap].
  apply lcs_len_nil_r.
Qed.

Lemma drop_values a i ai :
  a !! i = Some ai -> drop i (value <$> a) = value ai :: drop (S i) (value <$> a).
Proof. intros H. apply drop_S. by rewrite list_lookup_fmap, H. Qed.

Lemma Lat_step a b i j ai bj :
  a !! i = Some ai -> b !! j = Some bj ->
  Lat a b i j =
  if bool_decide (value ai = value bj) then S (Lat a b (i + 1) (j + 1))
  else Nat.max (Lat a b (i + 1) j) (Lat a b i (j + 1)).
Proof.
  intros Ha Hb. unfold Lat. rewrite !Nat.add_1_r.
  rewrite (drop_values a i ai Ha), (drop_values b j bj Hb).
  apply lcs_len_cons.
Qed.

Lemma readDP_cell dp i j v : dp_cell dp i j v -> readDP dp i j = Val v.
Proof.
  intros (row & Hrow & Hv). unfold readDP.
  rewrite (readArr_Some _ _ _ _ Hrow). simpl. by apply readNum_Some.
Qed.

Lemma writeDP_spec n m dp i j v :
  dp_shape n m dp -> i <= n -> j <= m ->
  exists dp', writeDP dp i j v = Val dp' /\ dp_shape n m dp' /\ dp_cell dp' i j v /\
    forall i' j' v', i' <> i \/ j' <> j -> dp_cell dp i' j' v' -> dp_cell dp' i' j' v'.
Proof.
  intros [Hlen Hrows] Hi Hj.
  destruct (lookup_lt_is_Some_2 dp i) as [row Hrow]; [lia|].
  pose proof (Hrows _ _ Hrow) as Hrlen.
  exists (<[i := writeNum row j v]> dp). unfold writeDP.
  rewrite (readArr_Some _ _ _ _ Hrow). simpl. split_and!; [done | | |].
  - split; [by rewrite length_insert|]. intros i' row'.
    destruct (decide (i = i')) as [<-|Hne].
    + rewrite list_lookup_insert_eq by lia. intros [= <-].
      rewrite writeNum_length; [done | lia].
    + rewrite list_lookup_insert_ne by done. apply Hrows.
  - exists (writeNum row j v). split.
    + apply list_lookup_insert_eq. lia.
    + apply writeNum_eq. lia.
  - intros i' j' v' Hne (row' & Hrow' & Hv').
    destruct (decide (i = i')) as [<-|Hi'].
    + exists (writeNum row j v). split; [apply list_lookup_insert_eq; lia|].
      rewrite writeNum_ne; [| lia | destruct Hne; congruence]. congruence.
    + exists row'. by rewrite list_lookup_insert_ne.
Qed.

Lemma lcsFill_spec a b :
  exists dp, lcsFill a b = Val dp /\ dp_filled a b (fun _ _ => True) dp.
Proof.
  unfold lcsFill. set (n := length a). set (m := length b).
  edestruct (forDown_inv
    (fun k dp => dp_filled a b (fun i j => k <= i \/ j = m) dp) n) as (dp & Hdp & Hfilled);
    [| | exists dp; split; [exact Hdp|] ].
  - (* the table of zeros *)
    split.
    + split; [by rewrite length_replicate|].
      intros i row [-> _]%lookup_replicate. by rewrite length_replicate.
    + intros i j Hi Hj Hreg. exists (replicate (m + 1) (Some 0)). split.
      * apply lookup_replicate_2. lia.
      * rewrite lookup_replicate_2 by lia. do 2 f_equal.
        destruct Hreg as [Hreg | ->]; [by rewrite Lat_last_row | by rewrite Lat_last_col].
  - (* one row *)
    intros k dp Hk Hinv.
    edestruct (forDown_inv
      (fun l dp => dp_filled a b (fun i j => S k <= i \/ (i = k /\ l <= j) \/ j = m) dp) m)
      as (dp' & Hdp' & Hfilled'); [| | exists dp'; split; [exact Hdp'|] ].
    + destruct Hinv as [Hshape Hcells]. split; [done|].
      intros i j Hi Hj Hreg. apply Hcells; [done | done |]. fold m in Hj. lia.
    + (* one cell *)
      intros l dp0 Hl [Hshape Hcells].
      destruct (lookup_lt_is_Some_2 a k) as [ai Hai]; [done|].
      destruct (lookup_lt_is_Some_2 b l) as [bj Hbj]; [done|].
      rewrite (readArr_Some _ _ _ _ Hai), (readArr_Some _ _ _ _ Hbj). simpl.
      pose proof (Lat_step a b k l ai bj Hai Hbj) as Hstep.
      assert (forall v, v = Lat a b k l ->
        exists s', writeDP dp0 k l v = Val s' /\
          dp_filled a b (fun i j => S k <= i \/ (i = k /\ l <= j) \/ j = m) s') as Hwrite.
      { intros v ->.
        destruct (writeDP_spec n m dp0 k l (Lat a b k l) Hshape) as (dp1 & Hw & Hs1 & Hc1 & Hold);
          [lia | lia |].
        exists dp1. split; [done|]. split; [done|].
        intros i j Hi Hj Hreg.
        destruct (decide (i = k /\ j = l)) as [[-> ->]|Hnkl]; [done|].
        apply Hold; [lia|]. apply Hcells; [done | done | lia]. }
      case_bool_decide.
      * rewrite (readDP_cell dp0 (k + 1) (l + 1) (Lat a b (k + 1) (l + 1)));
          [| apply Hcells; fold n m; lia]. simpl.
        apply Hwrite. lia.
      * rewrite (readDP_cell dp0 (k + 1) l (Lat a b (k + 1) l));
          [| apply Hcells; fold n m; lia]. simpl.
        rewrite (readDP_cell dp0 k (l + 1) (Lat a b k (l + 1)));
          [| apply Hcells; fold n m; lia]. simpl.
        apply Hwrite. lia.
    + destruct Hfilled' as [Hshape Hcells]. split; [done|].
      intros i j Hi Hj Hreg. apply Hcells; [done | done | lia].
  - destruct Hfilled as [Hshape Hcells]. split; [done|].
    intros i j Hi Hj _. apply Hcells; [done | done | lia].
Qed.

Lemma lcsWalk_spec fuel a b dp i j acc :
  dp_filled a b (fun _ _ => True) dp ->
  i <= length a -> j <= length b -> (length a - i) + (length b - j) <= fuel ->
  lcsWalk fuel a b dp i j acc =
  Val (acc ++ lcs_policy (drop i (value <$> a)) (drop j (value <$> b)) i j).
Proof.
  intros [Hshape Hcells]. revert i j acc.
  induction fuel as [|fuel IH]; intros i j acc Hi Hj Hfuel.
  - simpl. destruct (Nat.ltb_spec i (length a)), (Nat.ltb_spec j (length b)); try lia; simpl.
    rewrite drop_ge, app_nil_r; [done | rewrite length_fmap; lia].
  - simpl. destruct (Nat.ltb_spec i (length a)), (Nat.ltb_spec j (length b)); simpl.
    + destruct (lookup_lt_is_Some_2 a i) as [ai Hai]; [done|].
      destruct (lookup_lt_is_Some_2 b j) as [bj Hbj]; [done|].
      rewrite (readArr_Some _ _ _ _ Hai), (readArr_Some _ _ _ _ Hbj). simpl.
      rewrite (drop_values a i ai Hai), (drop_values b j bj Hbj), lcs_policy_cons.
      rewrite <- (drop_values a i ai Hai), <- (drop_values b j bj Hbj).
      case_bool_decide.
      * rewrite IH by lia. rewrite !Nat.add_1_r, <- app_assoc. done.
      * rewrite (readDP_cell dp (i + 1) j (Lat a b (i + 1) j)) by (apply Hcells; lia). simpl.
        rewrite (readDP_cell dp i (j + 1) (Lat a b i (j + 1))) by (apply Hcells; lia). simpl.
        unfold Lat. rewrite !Nat.add_1_r.
        destruct (_ <=? _); rewrite IH by lia; by rewrite ?Nat.add_1_r.
    + rewrite (drop_ge (value <$> b)), lcs_policy_nil_r, app_nil_r;
        [done | rewrite length_fmap; lia].
    + rewrite drop_ge, app_nil_r; [done | rewrite length_fmap; lia].
    + rewrite drop_ge, app_nil_r; [done | rewrite length_fmap; lia].
Qed.

(** The aligner returns the pairs of the policy; it never fails. *)
Lemma lcsIndicesTokens_spec a b :
  lcsIndicesTokens a b = Val (lcs_policy (value <$> a) (value <$> b) 0 0).
Proof.
  unfold lcsIndicesTokens.
  destruct (lcsFill_spec a b) as (dp & -> & Hdp). simpl.
  rewrite (lcsWalk_spec _ a b dp 0 0 [] Hdp) by lia. by rewrite !drop_0.
Qed.

Lemma policy_pairs_ok_elem xs ys i j ps p q :
  policy_pairs_ok xs ys i j ps -> (p, q) ∈ ps ->
  i <= p /\ j <= q /\ exists v, xs !! (p - i) = Some v /\ ys !! (q - j) = Some v.
Proof.
  revert xs ys i j. induction ps as [|[p0 q0] rest IH]; intros xs ys i j Hok Hin.
  - by apply elem_of_nil in Hin.
  - destruct Hok as (Hp & Hq & Hv & Hrest).
    apply elem_of_cons in Hin as [[= -> ->] | Hin]; [done|].
    destruct (IH _ _ _ _ Hrest Hin) as (Hp' & Hq' & v & Hv1 & Hv2).
    split_and!; [lia | lia |]. exists v.
    rewrite lookup_drop in Hv1, Hv2.
    replace (S p0 - i + (p - S p0)) with (p - i) in Hv1 by lia.
    replace (S q0 - j + (q - S q0)) with (q - j) in Hv2 by lia. done.
Qed.

Lemma policy_pairs_ok_increasing xs ys i j ps :
  policy_pairs_ok xs ys i j ps -> pairs_increasing ps.
Proof.
  revert xs ys i j. induction ps as [|[p0 q0] rest IH]; intros xs ys i j Hok k p q Hk HSk.
  - done.
  - destruct Hok as (Hp & Hq & Hv & Hrest). destruct k as [|k].
    + simpl in Hk, HSk. injection Hk as <-. destruct q as [p1 q1].
      apply list_elem_of_lookup_2 in HSk.
      destruct (policy_pairs_ok_elem _ _ _ _ _ _ _ Hrest HSk) as (? & ? & _).
      simpl. lia.
    + simpl in Hk, HSk. by eapply IH.
Qed.

End LCS.

(** C3: [lcsIndicesTokens] returns index pairs that increase strictly in
    both components and join tokens of equal value; their number is the
    length of a longest common subsequence of the two value sequences; and
    the pairs are those of the fixed reconstruction policy (emit and advance
    both on equal values, otherwise advance the old pointer exactly when
    [dp[i+1][j] >= dp[i][j+1]]). *)
Theorem lcsIndicesTokens_correct (a b : list Token) :
  exists pairs,
    lcsIndicesTokens a b = Val pairs /\
    pairs_increasing pairs /\
    (forall i j, (i, j) ∈ pairs ->
       exists ta tb, a !! i = Some ta /\ b !! j = Some tb /\ value ta = value tb) /\
    is_lcs_length (value <$> a) (value <$> b) (length pairs) /\
    pairs = lcs_policy (value <$> a) (value <$> b) 0 0.
Proof.
  exists (lcs_policy (value <$> a) (value <$> b) 0 0).
  pose proof (lcs_policy_ok (value <$> a) (value <$> b) 0 0) as Hok.
  split_and!.
  - apply lcsIndicesTokens_spec.
  - by eapply policy_pairs_ok_increasing.
  - intros i j Hin.
    destruct (policy_pairs_ok_elem _ _ _ _ _ _ _ Hok Hin) as (_ & _ & v & Hv1 & Hv2).
    rewrite Nat.sub_0_r, list_lookup_fmap in Hv1, Hv2.
    destruct (a !! i) as [ta|]; [|done]. destruct (b !! j) as [tb|]; [|done].
    exists ta, tb. simpl in Hv1, Hv2. split_and!; congruence.
  - rewrite lcs_policy_length. apply lcs_len_is_lcs_length.
  - done.
Qed.

(** ** The edit distance *)

Section EditDistance.

Lemma edit_distance_nil_l b : edit_distance [] b = length b.
Proof. reflexivity. Qed.

Lemma edit_distance_nil_r a : edit_distance a [] = length a.
Proof. by destruct a. Qed.

Lemma edit_distance_cons x a y b :
  edit_distance (x :: a) (y :: b) =
  Nat.min (Nat.min (edit_distance a (y :: b) + 1) (edit_distance (x :: a) b + 1))
          (edit_distance a b + subst_cost x y).
Proof. reflexivity. Qed.

Lemma subst_cost_refl x : subst_cost x x = 0.
Proof. unfold subst_cost. by rewrite bool_decide_eq_true_2. Qed.

Lemma subst_cost_le x y : subst_cost x y <= 1.
Proof. unfold subst_cost. case_bool_decide; lia. Qed.

Lemma edit_distance_refl a : edit_distance a a = 0.
Proof.
  induction a as [|x a IH]; [done|].
  rewrite edit_distance_cons, IH, subst_cost_refl. lia.
Qed.

Lemma edit_distance_alignment a b : alignment a b (edit_distance a b).
Proof.
  revert b. induction a as [|x a IHa]; intros b.
  - induction b as [|y b IHb]; [constructor|]. simpl in *. by constructor.
  - induction b as [|y b IHb].
    + rewrite edit_distance_nil_r. specialize (IHa []).
      rewrite edit_distance_nil_r in IHa. simpl. by constructor.
    + rewrite edit_distance_cons.
      pose proof (IHa (y :: b)) as H1. pose proof (IHa b) as H3.
      apply (alignment_delete x) in H1. apply (alignment_insert y) in IHb.
      assert (alignment (x :: a) (y :: b) (edit_distance a b + subst_cost x y)) as H4.
      { unfold subst_cost. case_bool_decide as Hxy.
        - subst y. rewrite Nat.add_0_r. by constructor.
        - rewrite Nat.add_1_r. by constructor. }
      rewrite !Nat.add_1_r.
      destruct (Nat.min_spec (Nat.min (S (edit_distance a (y :: b))) (S (edit_distance (x :: a) b)))
                  (edit_distance a b + subst_cost x y)) as [[_ ->] | [_ ->]]; [|done].
      destruct (Nat.min_spec (S (edit_distance a (y :: b))) (S (edit_distance (x :: a) b)))
        as [[_ ->] | [_ ->]]; done.
Qed.

Lemma edit_distance_least a b n : alignment a b n -> edit_distance a b <= n.
Proof.
  induction 1 as [|x a b n _ IH|y a b n _ IH|x a b n _ IH|x y a b n _ IH].
  - done.
  - destruct b as [|y b].
    + rewrite edit_distance_nil_r in *. simpl. lia.
    + rewrite edit_distance_cons. lia.
  - destruct a as [|x a].
    + rewrite edit_distance_nil_l in *. simpl. lia.
    + rewrite edit_distance_cons. lia.
  - rewrite edit_distance_cons, subst_cost_refl. lia.
  - rewrite edit_distance_cons. pose proof (subst_cost_le x y). lia.
Qed.

(** Equalities between minima of sums: both sides are split into their
    leaves, and each leaf is found on the other side. *)
Ltac min_le :=
  lazymatch goal with
  | |- Nat.min _ _ <= _ =>
      apply Nat.min_le_iff; (solve [left; min_le] || solve [right; min_le])
  | |- _ => lia
  end.
Ltac min_eq :=
  rewrite <- ?Nat.add_min_distr_r;
  apply Nat.le_antisymm; repeat apply Nat.min_glb; min_le.

Lemma edit_distance_snoc a b x y :
  edit_distance (a ++ [x]) (b ++ [y]) =
  Nat.min (Nat.min (edit_distance a (b ++ [y]) + 1) (edit_distance (a ++ [x]) b + 1))
          (edit_distance a b + subst_cost x y).
Proof.
  revert b. induction a as [|u a IHa]; intros b.
  - induction b as [|v b IHb]; [reflexivity|].
    simpl app in *. rewrite !edit_distance_cons, IHb.
    rewrite !edit_distance_nil_l. simpl length. rewrite length_app. simpl length.
    min_eq.
  - induction b as [|v b IHb].
    + simpl app in *. rewrite !edit_distance_cons.
      specialize (IHa []). simpl app in IHa. rewrite IHa.
      rewrite !edit_distance_nil_r. simpl length. rewrite length_app. simpl length.
      min_eq.
    + pose proof (IHa (v :: b)) as IH1. pose proof (IHa b) as IH2.
      simpl app in *. rewrite !edit_distance_cons. rewrite IH1, IHb, IH2.
      min_eq.
Qed.

Lemma levenshtein_spec a b : levenshtein a b = Val (edit_distance a b).
Proof.
  unfold levenshtein. case_bool_decide as Hab.
  { subst b. by rewrite edit_distance_refl. }
  case_bool_decide as Hn.
  { destruct a; [done | discriminate]. }
  case_bool_decide as Hm.
  { destruct b; [|discriminate]. by rewrite edit_distance_nil_r. }
  set (n := length a) in *. set (m := length b) in *.
  (* the first row *)
  edestruct (forUp_inv
    (fun k (prev : list (option nat)) =>
       length prev = m + 1 /\ forall j, j < k -> prev !! j = Some (Some j))
    (m + 1) 0 (fun j prev => Val (writeNum prev j j)) (replicate (m + 1) None))
    as (prev0 & -> & Hlen0 & Hprev0).
  { split; [by rewrite length_replicate | lia]. }
  { intros k prev Hk [Hlen Hprev]. eexists. split; [done|]. split.
    - rewrite writeNum_length; lia.
    - intros j Hj. destruct (decide (j = k)) as [->|Hne].
      + apply writeNum_eq. lia.
      + rewrite writeNum_ne by lia. apply Hprev. lia. }
  simpl.
  (* the rows *)
  edestruct (forUp_inv
    (fun i (s : list (option nat) * list (option nat)) =>
       length s.1 = m + 1 /\ length s.2 = m + 1 /\
       forall j, j <= m ->
         s.1 !! j = Some (Some (edit_distance (take (i - 1) a) (take j b))))
    n 1) as (rows & -> & Hlen & _ & Hrows); [| | simpl].
  - simpl. split_and!; [done | by rewrite length_replicate |].
    intros j Hj. rewrite Hprev0 by lia. simpl. rewrite length_take. do 2 f_equal. lia.
  - intros i [prev curr] Hi (Hlp & Hlc & Hprev). simpl in Hlp, Hlc, Hprev.
    destruct (lookup_lt_is_Some_2 a (i - 1)) as [ai Hai]; [lia|].
    unfold charCodeAt at 1. rewrite (readArr_Some _ _ _ _ Hai). simpl.
    assert (take i a = take (i - 1) a ++ [ai]) as Htake.
    { replace i with (S (i - 1)) at 1 by lia. by apply take_S_r. }
    (* the cells of the row *)
    edestruct (forUp_inv
      (fun j (curr : list (option nat)) =>
         length curr = m + 1 /\
         forall j', j' < j ->
           curr !! j' = Some (Some (edit_distance (take i a) (take j' b))))
      m 1) as (curr' & -> & Hlc' & Hcurr'); [| | simpl].
    + split; [rewrite writeNum_length; lia|].
      intros j' Hj'. replace j' with 0 by lia. rewrite writeNum_eq by lia.
      rewrite edit_distance_nil_r, length_take. do 2 f_equal. lia.
    + intros j curr0 Hj [Hlc0 Hcurr0].
      destruct (lookup_lt_is_Some_2 b (j - 1)) as [bj Hbj]; [lia|].
      unfold charCodeAt. rewrite (readArr_Some _ _ _ _ Hbj). simpl.
      rewrite (readNum_Some _ _ _ (Hprev j ltac:(lia))). simpl.
      rewrite (readNum_Some _ _ _ (Hcurr0 (j - 1) ltac:(lia))). simpl.
      rewrite (readNum_Some _ _ _ (Hprev (j - 1) ltac:(lia))). simpl.
      eexists. split; [done|]. split; [rewrite writeNum_length; lia|].
      intros j' Hj'. destruct (decide (j' = j)) as [->|Hne].
      * rewrite writeNum_eq by lia. do 2 f_equal.
        assert (take j b = take (j - 1) b ++ [bj]) as Htakeb.
        { replace j with (S (j - 1)) at 1 by lia. by apply take_S_r. }
        pose proof (edit_distance_snoc (take (i - 1) a) (take (j - 1) b) ai bj) as Hs.
        rewrite <- Htake, <- Htakeb in Hs. by rewrite Hs.
      * rewrite writeNum_ne by lia. apply Hcurr0. lia.
    + (* the copy *)
      edestruct (forUp_inv
        (fun k (prev : list (option nat)) =>
           length prev = m + 1 /\
           forall j, j < k ->
             prev !! j = Some (Some (edit_distance (take i a) (take j b))))
        (m + 1) 0
        (fun j prev => cj <~ readNum curr' j ;; Val (writeNum prev j cj)) prev)
        as (prev' & -> & Hlp' & Hprev'); [| | simpl].
      * split; [done | lia].
      * intros k prev1 Hk [Hlp1 Hprev1].
        rewrite (readNum_Some _ _ _ (Hcurr' k ltac:(lia))). simpl.
        eexists. split; [done|]. split; [rewrite writeNum_length; lia|].
        intros j Hj. destruct (decide (j = k)) as [->|Hne].
        -- apply writeNum_eq. lia.
        -- rewrite writeNum_ne by lia. apply Hprev1. lia.
      * eexists. split; [done|]. simpl. split_and!; [done | done |].
        intros j Hj. rewrite Nat.sub_0_r. apply Hprev'. lia.
  - rewrite (readNum_Some _ _ _ (Hrows m ltac:(lia))).
    replace (1 + n - 1) with n by lia. unfold n, m. by rewrite !firstn_all.
Qed.

End EditDistance.

(** ** The classifier *)

Lemma least_alignment_cost_unique a b d :
  least_alignment_cost a b d <-> d = edit_distance a b.
Proof.
  split.
  - intros [Hal Hleast]. apply Nat.le_antisymm.
    + apply Hleast, edit_distance_alignment.
    + by apply edit_distance_least.
  - intros ->. split; [apply edit_distance_alignment | apply edit_distance_least].
Qed.

Lemma thresholdExactFrom_spec count z0 z :
  thresholdExactFrom count z0 = true -> (z0 <= z < z0 + Z.of_nat count)%Z ->
  Z.max 2 (Math_ceil (0x1.3333333333333p-2 * of_uint63 (of_Z z))%float)
  = Z.max 2 ((3 * z + 9) / 10).
Proof.
  revert z0. induction count as [|count IH]; intros z0 Hall Hz; [lia|].
  simpl in Hall. apply andb_true_iff in Hall as [Hhere Hrest].
  destruct (decide (z = z0)) as [->|Hne]; [by apply Z.eqb_eq|].
  apply (IH (z0 + 1)%Z); [done | lia].
Qed.

(** Up to 65536 code units the threshold computed in doubles is the exact
    [max(2, ceil(3 * maxLen / 10))]. *)
Lemma spellThreshold_exact maxLen :
  (Z.of_nat maxLen <= 65536)%Z ->
  spellThreshold maxLen = Z.max 2 ((3 * Z.of_nat maxLen + 9) / 10).
Proof.
  intros Hle. unfold spellThreshold, numberOfNat.
  apply (thresholdExactFrom_spec (Z.to_nat 65537) 0).
  - vm_compute. reflexivity.
  - rewrite Z2Nat.id by lia. lia.
Qed.

Lemma length_one_inv {A : Type} (l : list A) :
  length l = 1 -> exists x, l = [x].
Proof. destruct l as [|x [|]]; try discriminate. eauto. Qed.

Lemma classifyChange_total (oldToks newToks : list Token) (oldSlice newSlice : str) :
  exists r, classifyChange oldToks newToks oldSlice newSlice = Val r.
Proof.
  unfold classifyChange.
  destruct (_ && _); [by eauto|]. destruct (_ && _); [by eauto|].
  destruct (bool_decide (length (filter (fun t => kind t = word) oldToks) = 1) &&
            bool_decide (length (filter (fun t => kind t = word) newToks) = 1)) eqn:Hone;
    [|by eauto].
  apply andb_true_iff in Hone as [[ow How]%bool_decide_eq_true%length_one_inv
                                    [nw Hnw]%bool_decide_eq_true%length_one_inv].
  rewrite How, Hnw. simpl. rewrite levenshtein_spec. simpl.
  destruct (_ && _); by eauto.
Qed.

(** C4: the classifier answers [insert] for an empty old substring and a
    non-empty new one, [delete] for the converse, and otherwise
    [spell-correction] exactly when each side has one word token and the
    unit-cost Levenshtein distance [d] of the two words satisfies
    [0 < d <= max(2, ceil(0.3 * maxLen))], and [replace] in all other cases.
    The threshold is the one the code computes in doubles; up to 65536 code
    units it is the exact [max(2, ceil(3 * maxLen / 10))]. *)
Theorem classifyChange_correct (oldToks newToks : list Token) (oldSlice newSlice : str) :
  exists r,
    classifyChange oldToks newToks oldSlice newSlice = Val r /\
    (oldSlice = [] /\ newSlice <> [] -> r = insert) /\
    (newSlice = [] /\ oldSlice <> [] -> r = delete) /\
    (~ (oldSlice = [] /\ newSlice <> []) -> ~ (newSlice = [] /\ oldSlice <> []) ->
       (single_word_spelling oldToks newToks -> r = spell_correction) /\
       (~ single_word_spelling oldToks newToks -> r = replace)) /\
    (forall maxLen, (Z.of_nat maxLen <= 65536)%Z ->
       spellThreshold maxLen = Z.max 2 ((3 * Z.of_nat maxLen + 9) / 10)).
Proof.
  cut (exists r,
    classifyChange oldToks newToks oldSlice newSlice = Val r /\
    (oldSlice = [] /\ newSlice <> [] -> r = insert) /\
    (newSlice = [] /\ oldSlice <> [] -> r = delete) /\
    (~ (oldSlice = [] /\ newSlice <> []) -> ~ (newSlice = [] /\ oldSlice <> []) ->
       (single_word_spelling oldToks newToks -> r = spell_correction) /\
       (~ single_word_spelling oldToks newToks -> r = replace))).
  { intros (r & H1 & H2 & H3 & H4). exists r. split_and!; try done.
    apply spellThreshold_exact. }
  unfold classifyChange.
  destruct (bool_decide (length oldSlice = 0) && (0 <? length newSlice)) eqn:Hins.
  { apply andb_true_iff in Hins as [H1%bool_decide_eq_true H2%Nat.ltb_lt].
    exists insert. split_and!; [done | done | |].
    - intros [-> _]. simpl in H2. lia.
    - intros Hno. destruct Hno. split; [by apply nil_length_inv|].
      intros ->. simpl in H2. lia. }
  destruct (bool_decide (length newSlice = 0) && (0 <? length oldSlice)) eqn:Hdel.
  { apply andb_true_iff in Hdel as [H1%bool_decide_eq_true H2%Nat.ltb_lt].
    exists delete. split_and!; [done | | done |].
    - intros [-> _]. simpl in H2. lia.
    - intros _ Hno. destruct Hno. split; [by apply nil_length_inv|].
      intros ->. simpl in H2. lia. }
  assert (~ (oldSlice = [] /\ newSlice <> [])) as Hni.
  { intros [-> Hne]. destruct newSlice; [done | discriminate]. }
  assert (~ (newSlice = [] /\ oldSlice <> [])) as Hnd.
  { intros [-> Hne]. destruct oldSlice; [done | discriminate]. }
  destruct (bool_decide (length (filter (fun t => kind t = word) oldToks) = 1) &&
            bool_decide (length (filter (fun t => kind t = word) newToks) = 1)) eqn:Hone.
  - apply andb_true_iff in Hone as [[ow How]%bool_decide_eq_true%length_one_inv
                                      [nw Hnw]%bool_decide_eq_true%length_one_inv].
    rewrite How, Hnw. simpl. rewrite levenshtein_spec. simpl.
    set (d := edit_distance (value ow) (value nw)).
    set (maxLen := Nat.max (length (value ow)) (length (value nw))).
    destruct ((0 <? d) && (Z.of_nat d <=? spellThreshold maxLen)%Z) eqn:Hd.
    + apply andb_true_iff in Hd as [Hd1%Nat.ltb_lt Hd2%Z.leb_le].
      exists spell_correction. split_and!; [done | done | done |].
      intros _ _. split; [done|]. intros Hno. destruct Hno.
      exists ow, nw, d. split_and!; try done. by apply least_alignment_cost_unique.
    + exists replace. split_and!; [done | done | done |].
      intros _ _. split; [|done].
      intros (ow' & nw' & d' & How' & Hnw' & Hd'%least_alignment_cost_unique & Hpos & Hle).
      rewrite How in How'. rewrite Hnw in Hnw'. injection How' as <-. injection Hnw' as <-.
      subst d'. fold d maxLen in Hpos, Hle.
      apply Nat.ltb_lt in Hpos. apply Z.leb_le in Hle. rewrite Hpos, Hle in Hd. done.
  - exists replace. split_and!; [done | done | done |].
    intros _ _. split; [|done].
    intros (ow' & nw' & d' & How' & Hnw' & _).
    rewrite How', Hnw' in Hone. done.
Qed.

(** ** The tokenizer *)

Lemma str_pair_ind (Q : str -> Prop) :
  Q [] -> (forall c, Q [c]) ->
  (forall c d rest, Q (d :: rest) -> Q rest -> Q (c :: d :: rest)) ->
  forall s, Q s.
Proof.
  intros Hnil Hone Hcons s.
  assert (Q s /\ forall c, Q (c :: s)) as [H _]; [|done].
  induction s as [|d rest [IH1 IH2]]; [by split|].
  split; [apply IH2|]. intros c. by apply Hcons.
Qed.

Lemma slice_length {A : Type} (l : list A) p q :
  p <= q -> q <= length l -> length (slice l p q) = q - p.
Proof. intros. unfold slice. rewrite length_take, length_drop. lia. Qed.

Lemma slice_drop {A : Type} (l : list A) p q : slice l p q = take (q - p) (drop p l).
Proof. reflexivity. Qed.

Section TokenizerProofs.

Variable P : Platform.

Lemma classRun_cons2 cls c d rest :
  classRun P cls (c :: d :: rest) =
  if isLeadSurrogate c && isTrailSurrogate d then
    if Bool.eqb (isWordCodePoint P (surrogatePairToCodePoint c d)) cls
    then 2 + classRun P cls rest else 0
  else
    if Bool.eqb (isWordCodePoint P c) cls
    then 1 + classRun P cls (d :: rest) else 0.
Proof. reflexivity. Qed.

Lemma classRun_le cls s : classRun P cls s <= length s.
Proof.
  induction s as [|c|c d rest IH1 IH2] using str_pair_ind; simpl.
  - lia.
  - destruct (Bool.eqb _ _); lia.
  - simpl in IH1. repeat case_match; simpl in *; lia.
Qed.

(** Past the run stands a character of the other class, or nothing. *)
Lemma classRun_stop cls s : classRun P cls (drop (classRun P cls s) s) = 0.
Proof.
  induction s as [|c|c d rest IH1 IH2] using str_pair_ind.
  - done.
  - simpl. destruct (Bool.eqb _ _) eqn:E; simpl; [done | by rewrite E].
  - cbn [classRun].
    destruct (isLeadSurrogate c && isTrailSurrogate d) eqn:Hpair.
    + destruct (Bool.eqb _ cls) eqn:E.
      * simpl drop. apply IH2.
      * simpl drop. cbn [classRun]. by rewrite Hpair, E.
    + destruct (Bool.eqb _ cls) eqn:E.
      * simpl drop. apply IH1.
      * simpl drop. cbn [classRun]. by rewrite Hpair, E.
Qed.

(** The characters of the run are of its class. *)
Lemma classRun_codePoints cls s :
  Forall (fun c => isWordCodePoint P c = cls) (codePoints (take (classRun P cls s) s)).
Proof.
  induction s as [|c|c d rest IH1 IH2] using str_pair_ind.
  - constructor.
  - simpl. destruct (Bool.eqb _ _) eqn:E; simpl; [|constructor].
    apply Bool.eqb_prop in E. by repeat constructor.
  - rewrite classRun_cons2.
    destruct (isLeadSurrogate c && isTrailSurrogate d) eqn:Hpair.
    + destruct (Bool.eqb _ cls) eqn:E; [|constructor].
      apply Bool.eqb_prop in E. cbn [Nat.add take codePoints]. rewrite Hpair.
      by constructor.
    + destruct (Bool.eqb _ cls) eqn:E; [|constructor].
      apply Bool.eqb_prop in E. cbn [Nat.add take].
      destruct (take (classRun P cls (d :: rest)) (d :: rest)) as [|d' rest'] eqn:Htake.
      * simpl. by repeat constructor.
      * assert (d' = d) as ->.
        { destruct (classRun P cls (d :: rest)); simpl in Htake; congruence. }
        cbn [codePoints]. rewrite Hpair. by constructor.
Qed.

(** At the head of a non-empty string exactly one class has a run. *)
Lemma classRun_head s :
  s <> [] ->
  exists cls, 0 < classRun P cls s /\ classRun P (negb cls) s = 0.
Proof.
  destruct s as [|c [|d rest]]; [done | |]; intros _.
  - exists (isWordCodePoint P c). simpl.
    rewrite Bool.eqb_reflx, Bool.eqb_negb2. split; lia.
  - destruct (isLeadSurrogate c && isTrailSurrogate d) eqn:Hpair.
    + exists (isWordCodePoint P (surrogatePairToCodePoint c d)). cbn [classRun].
      rewrite Hpair, Bool.eqb_reflx, Bool.eqb_negb2. split; lia.
    + exists (isWordCodePoint P c). cbn [classRun].
      rewrite Hpair, Bool.eqb_reflx, Bool.eqb_negb2. split; lia.
Qed.

Lemma codePoints_nonempty s : s <> [] -> codePoints s <> [].
Proof. destruct s as [|c [|d rest]]; [done | done |]. simpl. by case_match. Qed.

(** The test on a token of one class tells the class. *)
Lemma hasWordChar_run cls s :
  0 < classRun P cls s -> hasWordChar P (take (classRun P cls s) s) = cls.
Proof.
  intros Hpos. unfold hasWordChar.
  pose proof (classRun_codePoints cls s) as Hall.
  assert (codePoints (take (classRun P cls s) s) <> []) as Hne.
  { apply codePoints_nonempty. destruct s; [simpl in Hpos; lia|].
    destruct (classRun P cls (z :: s)); [lia | done]. }
  destruct (codePoints (take (classRun P cls s) s)) as [|c cs]; [done|].
  destruct cls.
  - apply Forall_cons in Hall as [Hc _]. simpl. by rewrite Hc.
  - clear Hne. induction Hall as [|c' cs' Hc' _ IH]; [done|]. simpl. by rewrite Hc'.
Qed.

Lemma matchAt_spec s p :
  p < length s ->
  exists cls w,
    0 < w /\ p + w <= length s /\ w = classRun P cls (drop p s) /\
    matchAt P s p = Some (p + w).
Proof.
  intros Hp. destruct (classRun_head (drop p s)) as (cls & Hpos & Hzero).
  { intros Hnil. apply (f_equal length) in Hnil. rewrite length_drop in Hnil. simpl in Hnil. lia. }
  exists cls, (classRun P cls (drop p s)). split_and!; [done | | done |].
  - pose proof (classRun_le cls (drop p s)). rewrite length_drop in H. lia.
  - unfold matchAt. destruct cls; simpl in Hzero.
    + by apply Nat.ltb_lt in Hpos as ->.
    + rewrite Hzero. simpl. by apply Nat.ltb_lt in Hpos as ->.
Qed.

Lemma matchAt_end s p : length s <= p -> matchAt P s p = None.
Proof. intros H. unfold matchAt. by rewrite drop_ge. Qed.

Lemma regExpSearch_unfold fuel s p :
  regExpSearch P fuel s p =
  if length s <? p then Val None
  else
    match matchAt P s p with
    | Some e => Val (Some (p, e))
    | None =>
        match fuel with
        | 0 => Err OutOfFuel
        | S fuel' => regExpSearch P fuel' s (advanceStringIndex s p)
        end
    end.
Proof. by destruct fuel. Qed.

Lemma regExpSearch_end fuel s p :
  length s <= p -> 0 < fuel -> regExpSearch P fuel s p = Val None.
Proof.
  intros Hp Hfuel. rewrite regExpSearch_unfold.
  destruct (Nat.ltb_spec (length s) p); [done|].
  rewrite matchAt_end by done. destruct fuel as [|fuel]; [lia|].
  assert (advanceStringIndex s p = p + 1) as ->.
  { unfold advanceStringIndex. by rewrite drop_ge. }
  rewrite regExpSearch_unfold.
  destruct (Nat.ltb_spec (length s) (p + 1)); [done | lia].
Qed.

Lemma WORD_REGEX_exec_end s p tr :
  length s <= p ->
  WORD_REGEX_exec P s (mkWorld p tr) = Val (None, mkWorld 0 tr).
Proof.
  intros Hp. unfold WORD_REGEX_exec, bind, getLastIndex, lift. simpl.
  by rewrite regExpSearch_end by lia.
Qed.

Lemma WORD_REGEX_exec_match s p tr :
  p < length s ->
  exists cls w,
    0 < w /\ p + w <= length s /\ w = classRun P cls (drop p s) /\
    WORD_REGEX_exec P s (mkWorld p tr) =
      Val (Some (slice s p (p + w), p), mkWorld (p + w) tr).
Proof.
  intros Hp. destruct (matchAt_spec s p Hp) as (cls & w & Hw & Hle & Hrun & Hm).
  exists cls, w. split_and!; [done | done | done |].
  unfold WORD_REGEX_exec, bind, getLastIndex, lift. simpl.
  rewrite regExpSearch_unfold.
  destruct (Nat.ltb_spec (length s) p); [lia|]. by rewrite Hm.
Qed.

Lemma regexLoop_unfold fuel s acc :
  regexLoop P fuel s acc =
  (r <- WORD_REGEX_exec P s ;;
   match r with
   | None => ret acc
   | Some (v, start) =>
       match fuel with
       | 0 => lift (Err OutOfFuel)
       | S fuel' =>
           regexLoop P fuel' s
             (acc ++ [mkToken (if hasWordChar P v then word else sep) v start
                              (start + length v)])
       end
   end).
Proof. by destruct fuel. Qed.

(** The fallback loop ends, leaves [lastIndex] at 0, and appends the
    tokens from [lastIndex] to the end of the string. *)
Lemma regexLoop_spec s fuel p acc tr :
  p <= length s -> length s - p <= fuel ->
  regexLoop P fuel s acc (mkWorld p tr) =
  Val (acc ++ greedyTokens P fuel s p, mkWorld 0 tr).
Proof.
  revert p acc. induction fuel as [|fuel IH]; intros p acc Hp Hfuel.
  - rewrite regexLoop_unfold. unfold bind.
    rewrite WORD_REGEX_exec_end by lia. simpl. by rewrite app_nil_r.
  - destruct (decide (p = length s)) as [->|Hne].
    + rewrite regexLoop_unfold. unfold bind.
      rewrite WORD_REGEX_exec_end by lia. simpl.
      rewrite Nat.ltb_irrefl. by rewrite app_nil_r.
    + destruct (WORD_REGEX_exec_match s p tr) as (cls & w & Hw & Hle & Hrun & Hexec); [lia|].
      destruct (matchAt_spec s p) as (cls' & w' & _ & _ & _ & Hm); [lia|].
      rewrite regexLoop_unfold. unfold bind at 1. rewrite Hexec.
      assert (length (slice s p (p + w)) = w) as Hlen.
      { rewrite slice_length; lia. }
      rewrite Hlen, IH by lia. simpl.
      destruct (Nat.ltb_spec p (length s)); [|lia].
      unfold WORD_REGEX_exec, bind, getLastIndex, lift in Hexec. simpl in Hexec.
      rewrite regExpSearch_unfold in Hexec.
      destruct (Nat.ltb_spec (length s) p); [lia|]. rewrite Hm in Hexec. simpl in Hexec.
      injection Hexec as _ Heq. rewrite Hm, Heq. by rewrite <- app_assoc.
Qed.

Lemma greedyTokens_runs s fuel p :
  p <= length s -> length s - p <= fuel -> greedy_runs P s p (greedyTokens P fuel s p).
Proof.
  revert p. induction fuel as [|fuel IH]; intros p Hp Hfuel; simpl.
  - lia.
  - destruct (Nat.ltb_spec p (length s)); [|simpl; lia].
    destruct (matchAt_spec s p) as (cls & w & Hw & Hle & Hrun & ->); [done|].
    assert (hasWordChar P (slice s p (p + w)) = cls) as Hcls.
    { rewrite slice_drop. replace (p + w - p) with w by lia. subst w.
      by apply hasWordChar_run. }
    rewrite Hcls. simpl. split_and!; [done | lia | done | done | | apply IH; lia].
    replace (p + w - p) with w by lia. unfold isWord. simpl. by destruct cls.
Qed.

Lemma greedy_runs_tiled s p toks : greedy_runs P s p toks -> tiled s p (length s) toks.
Proof.
  revert p. induction toks as [|t rest IH]; intros p; simpl; [done|].
  intros (? & ? & ? & ? & ? & ?). split_and!; [done | done | done | by apply IH].
Qed.

Lemma tiled_app text p q r l1 l2 :
  tiled text p q l1 -> tiled text q r l2 -> tiled text p r (l1 ++ l2).
Proof.
  revert p. induction l1 as [|t l1 IH]; intros p; simpl.
  - by intros ->.
  - intros (? & ? & ? & ?) ?. split_and!; [done | done | done | by apply IH].
Qed.

Lemma tiled_le text p q toks : tiled text p q toks -> p <= q.
Proof.
  revert p. induction toks as [|t rest IH]; intros p; simpl; [lia|].
  intros (_ & Hlt & _ & Hrest). apply IH in Hrest. lia.
Qed.

Lemma segmenter_fold_tiled text segs acc cursor :
  tiled text 0 cursor acc -> cursor <= length text ->
  segments_wf text cursor segs = true ->
  tiled text 0 (fold_left (segmenterStep P text) segs (acc, cursor)).2
               (fold_left (segmenterStep P text) segs (acc, cursor)).1 /\
  (fold_left (segmenterStep P text) segs (acc, cursor)).2 <= length text.
Proof.
  revert acc cursor. induction segs as [|seg rest IH]; intros acc cursor Hacc Hle Hwf.
  - done.
  - simpl in Hwf.
    apply andb_true_iff in Hwf as [Hwf Hrest]. apply andb_true_iff in Hwf as [Hwf Hslice].
    apply andb_true_iff in Hwf as [Hwf Hend]. apply andb_true_iff in Hwf as [Hcur Hpos].
    apply Nat.leb_le in Hcur. apply Nat.ltb_lt in Hpos. apply Nat.leb_le in Hend.
    apply bool_decide_eq_true in Hslice.
    cbn [fold_left]. unfold segmenterStep at 2 4 6.
    apply IH; [| done | done].
    destruct (Nat.ltb_spec cursor (index seg)).
    + rewrite <- app_assoc. eapply tiled_app; [exact Hacc|]. simpl.
      split_and!; [done | done | done | done | lia | done | done].
    + eapply tiled_app; [exact Hacc|]. simpl.
      assert (cursor = index seg) as -> by lia.
      split_and!; [done | lia | done | done].
Qed.

Lemma segmenterTokens_tiled text segs :
  segments_wf text 0 segs = true ->
  tiled text 0 (length text) (segmenterTokens P text segs).
Proof.
  intros Hwf. unfold segmenterTokens.
  destruct (segmenter_fold_tiled text segs [] 0) as [Htiled Hle]; [done | lia | done |].
  destruct (fold_left _ _ _) as [toks cursor]. simpl in *.
  destruct (Nat.ltb_spec cursor (length text)).
  - eapply tiled_app; [exact Htiled|]. simpl. split_and!; [done | done | | done].
    unfold slice. rewrite take_ge; [done|]. rewrite length_drop. lia.
  - by replace (length text) with cursor by lia.
Qed.

(** A call of [tokenize] between two calls of [WORD_REGEX.exec] loops:
    [lastIndex] is 0 before and after, and the call is recorded. *)
Lemma tokenize_run text tr :
  tokenize P text (mkWorld 0 tr) =
  Val (tokensOf P (normalizeNFC P text), mkWorld 0 (tr ++ [EvNormalize text])).
Proof.
  unfold tokenize, tokensOf, bind, normalize, emit, ret. simpl.
  destruct (IntlSegmenter P) as [segmenter|].
  - destruct (segmenter _) as [segments|]; [done|].
    by rewrite regexLoop_spec by lia.
  - by rewrite regexLoop_spec by lia.
Qed.

Lemma tokensOf_tiled s :
  segmenter_ok P s -> tiled s 0 (length s) (tokensOf P s).
Proof.
  unfold segmenter_ok, tokensOf. intros Hok.
  destruct (IntlSegmenter P) as [segmenter|].
  - destruct (segmenter s) as [segments|].
    + by apply segmenterTokens_tiled.
    + apply greedy_runs_tiled, greedyTokens_runs; lia.
  - apply greedy_runs_tiled, greedyTokens_runs; lia.
Qed.

Lemma tokensOf_fallback s :
  uses_fallback P s -> greedy_runs P s 0 (tokensOf P s).
Proof.
  unfold uses_fallback, tokensOf. intros Hfb.
  destruct (IntlSegmenter P) as [segmenter|].
  - rewrite Hfb. apply greedyTokens_runs; lia.
  - apply greedyTokens_runs; lia.
Qed.

End TokenizerProofs.

Section TilingProofs.

Variable P : Platform.

Lemma tiled_last text p q toks t :
  tiled text p q toks -> last toks = Some t -> end_ t = q.
Proof.
  revert p. induction toks as [|t0 rest IH]; intros p; [done|].
  intros (_ & _ & _ & Hrest) Hlast. destruct rest as [|t1 rest].
  - simpl in *. congruence.
  - by eapply IH.
Qed.

Lemma tiled_consecutive text p q toks i t u :
  tiled text p q toks -> toks !! i = Some t -> toks !! S i = Some u -> end_ t = start u.
Proof.
  revert p i. induction toks as [|t0 rest IH]; intros p i; [done|].
  intros (_ & _ & _ & Hrest) Ht Hu. destruct i as [|i].
  - simpl in *. injection Ht as ->. destruct rest as [|t1 rest]; [done|].
    simpl in *. injection Hu as ->. by destruct Hrest as (-> & _).
  - by eapply IH.
Qed.

Lemma tiled_values text p q toks t :
  tiled text p q toks -> t ∈ toks -> value t = slice text (start t) (end_ t).
Proof.
  revert p. induction toks as [|t0 rest IH]; intros p.
  - by intros _ ?%elem_of_nil.
  - intros (Hs & _ & Hv & Hrest) [->|Hin]%elem_of_cons; [by rewrite Hs | by eapply IH].
Qed.

Lemma tiled_tiles_exactly text toks :
  tiled text 0 (length text) toks -> tiles_exactly text toks.
Proof.
  intros Ht. split_and!.
  - intros ->. simpl in Ht. symmetry in Ht. by apply nil_length_inv.
  - intros t Hhead. destruct toks as [|t0 rest]; [done|].
    simpl in Hhead. injection Hhead as ->. by destruct Ht.
  - intros t. by eapply tiled_last.
  - intros i t u. by eapply tiled_consecutive.
  - intros t. by eapply tiled_values.
Qed.

Lemma greedy_runs_class s p toks t :
  greedy_runs P s p toks -> t ∈ toks ->
  value t <> [] /\
  Forall (fun c => isWordCodePoint P c = isWord t) (codePoints (value t)).
Proof.
  revert p. induction toks as [|t0 rest IH]; intros p.
  - by intros _ ?%elem_of_nil.
  - intros (Hs & Hlt & Hle & Hv & Hrun & Hrest) [->|Hin]%elem_of_cons; [|by eapply IH].
    split.
    + intros Hnil. apply (f_equal length) in Hv. rewrite Hnil, slice_length in Hv by lia.
      simpl in Hv. lia.
    + rewrite Hv, slice_drop, Hrun. apply classRun_codePoints.
Qed.

Lemma isWord_kind t u : isWord t <> isWord u -> kind t <> kind u.
Proof. unfold isWord. intros H Heq. by rewrite Heq in H. Qed.

Lemma greedy_runs_alternate s p toks i t u :
  greedy_runs P s p toks -> toks !! i = Some t -> toks !! S i = Some u -> kind t <> kind u.
Proof.
  revert p i. induction toks as [|t0 rest IH]; intros p i; [done|].
  intros (Hs & Hlt & Hle & Hv & Hrun & Hrest) Ht Hu. destruct i as [|i]; [|by eapply IH].
  simpl in Ht. injection Ht as ->. destruct rest as [|t1 rest]; [done|].
  simpl in Hu. injection Hu as ->.
  destruct Hrest as (Hs' & Hlt' & Hle' & _ & Hrun' & _).
  apply isWord_kind. intros Heq.
  pose proof (classRun_stop P (isWord t) (drop p s)) as Hstop.
  rewrite <- Hrun, drop_drop in Hstop.
  replace (p + (end_ t - p)) with (end_ t) in Hstop by lia.
  rewrite Heq, <- Hrun' in Hstop. lia.
Qed.

Lemma greedy_runs_maximal s toks : greedy_runs P s 0 toks -> maximal_class_runs P toks.
Proof.
  intros Hruns. split.
  - intros t. by eapply greedy_runs_class.
  - intros i t u. by eapply greedy_runs_alternate.
Qed.

Lemma exec_tokenize text :
  exec (tokenize P text) = Val (tokensOf P (normalizeNFC P text)).
Proof. unfold exec, initialWorld. by rewrite tokenize_run. Qed.

End TilingProofs.

(** C2, as the code has it: the tokens tile the normalized string exactly
    on both paths (the segments of [Intl.Segmenter] being well formed), and
    on the fallback path each token is a maximal run of one class. *)
Theorem tokenize_tiles (P : Platform) (text : str) :
  segmenter_ok P (normalizeNFC P text) ->
  exists toks,
    exec (tokenize P text) = Val toks /\
    tiles_exactly (normalizeNFC P text) toks /\
    (uses_fallback P (normalizeNFC P text) -> maximal_class_runs P toks).
Proof.
  intros Hok. exists (tokensOf P (normalizeNFC P text)). split_and!.
  - apply exec_tokenize.
  - by apply tiled_tiles_exactly, tokensOf_tiled.
  - intros Hfb. by apply (greedy_runs_maximal P (normalizeNFC P text)), tokensOf_fallback.
Qed.

Lemma tokenize_tiles_witness :
  exists toks,
    exec (tokenize segmenterPlatform [104; 105; 44; 32; 121; 111]%Z) = Val toks /\
    tiles_exactly [104; 105; 44; 32; 121; 111]%Z toks /\
    (uses_fallback segmenterPlatform [104; 105; 44; 32; 121; 111]%Z ->
     maximal_class_runs segmenterPlatform toks).
Proof.
  apply (tokenize_tiles segmenterPlatform [104; 105; 44; 32; 121; 111]%Z).
  vm_compute. reflexivity.
Defined.

(** C2 as stated fails on the segmenter path: for the text [", "] the
    segmenter separates the comma from the space, and the tokenizer returns
    two separator tokens side by side. *)
Lemma tokenize_segmenter_not_maximal :
  exec (tokenize segmenterPlatform [44; 32]%Z) =
    Val [mkToken sep [44%Z] 0 1; mkToken sep [32%Z] 1 2] /\
  ~ maximal_class_runs segmenterPlatform [mkToken sep [44%Z] 0 1; mkToken sep [32%Z] 1 2].
Proof.
  split; [by vm_compute|].
  intros [_ Halt]. by apply (Halt 0 (mkToken sep [44%Z] 0 1) (mkToken sep [32%Z] 1 2)).
Qed.

(** ** Range extraction and merging *)

Section Pipeline.

Lemma addEvents_nil w : addEvents w [] = w.
Proof. destruct w. unfold addEvents. simpl. by rewrite app_nil_r. Qed.

Lemma addEvents_app w es1 es2 : addEvents (addEvents w es1) es2 = addEvents w (es1 ++ es2).
Proof. unfold addEvents. simpl. by rewrite app_assoc. Qed.

Lemma readOpt_in {A : Type} name (arr : list A) (i : nat) x w :
  arr !! i = Some x -> readOpt name arr (Z.of_nat i) w = Val (Some x, w).
Proof.
  intros Hx. unfold readOpt. pose proof (lookup_lt_Some _ _ _ Hx).
  destruct (Z.leb_spec 0 (Z.of_nat i)); [|lia].
  destruct (Z.ltb_spec (Z.of_nat i) (Z.of_nat (length arr))); [|lia].
  simpl. unfold ret. by rewrite Nat2Z.id, Hx.
Qed.

Lemma readOpt_out {A : Type} name (arr : list A) (i : Z) w :
  (i < 0 \/ Z.of_nat (length arr) <= i)%Z ->
  readOpt name arr i w = Val (None, addEvents w [EvOutOfRange name i]).
Proof.
  intros Hi. unfold readOpt.
  destruct (Z.leb_spec 0 i), (Z.ltb_spec i (Z.of_nat (length arr))); try lia; done.
Qed.

(** The extraction loop from its turn [k] on. *)
Lemma extract_loop oldTokens newTokens lcs count k changes prevOld prevNew w :
  k + count = length lcs + 1 ->
  exists st,
    forUpM count k (extractStep oldTokens newTokens lcs) (changes, prevOld, prevNew) w =
    Val (st, addEvents w (if count is 0 then []
                          else [EvOutOfRange A_lcs (Z.of_nat (length lcs))])) /\
    (0 < count ->
     st.1.1 = changes ++ changesFrom (length oldTokens) (length newTokens)
                           (drop k lcs) prevOld prevNew).
Proof.
  revert k changes prevOld prevNew w.
  induction count as [|count IH]; intros k changes prevOld prevNew w Hk.
  - eexists. simpl. unfold ret. rewrite addEvents_nil. split; [done | lia].
  - cbn [forUpM]. unfold bind at 1. unfold extractStep at 1.
    destruct (lcs !! k) as [p|] eqn:Hp.
    + unfold bind at 1. rewrite (readOpt_in _ _ _ _ _ Hp). unfold ret at 1.
      pose proof (lookup_lt_Some _ _ _ Hp) as Hlt.
      edestruct (IH (S k)) as (st & Hrun & Hst); [lia|]. rewrite Hrun.
      destruct count as [|count]; [lia|]. eexists. split; [done|]. intros _.
      rewrite Hst by lia. rewrite (drop_S _ _ _ Hp). simpl.
      destruct (_ || _); by rewrite <- ?app_assoc.
    + apply lookup_ge_None in Hp. assert (count = 0) as -> by lia.
      unfold bind at 1. rewrite readOpt_out by lia. unfold ret at 1. simpl. unfold ret.
      replace k with (length lcs) by lia.
      eexists. split; [done|]. intros _. simpl. rewrite drop_all. simpl.
      destruct (_ || _); by rewrite ?app_nil_r.
Qed.

Lemma extractChanges_run oldTokens newTokens lcs w :
  extractChanges oldTokens newTokens lcs w =
  Val (changesFrom (length oldTokens) (length newTokens) lcs 0 0,
       addEvents w [EvOutOfRange A_lcs (Z.of_nat (length lcs))]).
Proof.
  unfold extractChanges, bind.
  destruct (extract_loop oldTokens newTokens lcs (length lcs + 1) 0 [] 0 0 w)
    as (st & -> & Hst); [lia|].
  unfold ret. rewrite Hst by lia. destruct (length lcs + 1) eqn:E; [lia|]. done.
Qed.

(** The merging loop once [mergedChanges] is not empty. *)
Lemma merge_loop oldTokens newTokens rest pre last w :
  forOfM rest (mergeStep oldTokens newTokens) (pre ++ [last]) w =
  Val (pre ++ mergeFrom oldTokens newTokens last rest, w).
Proof.
  revert pre last. induction rest as [|ch rest IH]; intros pre last; [done|].
  cbn [forOfM mergeFrom]. unfold bind at 1. unfold mergeStep at 1. unfold bind at 1.
  replace (Z.of_nat (length (pre ++ [last])) - 1)%Z with (Z.of_nat (length pre))
    by (rewrite length_app; simpl; lia).
  rewrite (readOpt_in _ _ _ last) by (by rewrite list_lookup_middle).
  fold (mergeable oldTokens newTokens last ch).
  destruct (mergeable oldTokens newTokens last ch).
  - unfold ret at 1.
    replace (length (pre ++ [last]) - 1) with (length pre + 0)
      by (rewrite length_app; simpl; lia).
    rewrite insert_app_r. simpl. apply IH.
  - unfold ret at 1. rewrite IH. by rewrite <- app_assoc.
Qed.

Lemma mergeChanges_run oldTokens newTokens changes w :
  mergeChanges oldTokens newTokens changes w =
  Val (match changes with
       | [] => []
       | ch :: rest => mergeFrom oldTokens newTokens ch rest
       end,
       addEvents w (match changes with
                    | [] => []
                    | _ => [EvOutOfRange A_mergedChanges (-1)]
                    end)).
Proof.
  unfold mergeChanges. destruct changes as [|ch rest].
  - simpl. unfold ret. by rewrite addEvents_nil.
  - cbn [forOfM]. unfold bind at 1. unfold mergeStep at 1. unfold bind at 1.
    rewrite readOpt_out by (simpl; lia). unfold ret at 1.
    apply (merge_loop oldTokens newTokens rest [] ch).
Qed.

(** Alignment, extraction and merging never fail; they record the read of
    [lcs] past its last pair and, when there is a change, the read of the
    empty [mergedChanges]. *)
Lemma mergedChangesOf_run oldTokens newTokens w :
  mergedChangesOf oldTokens newTokens w =
  Val (mergedRanges oldTokens newTokens,
       addEvents w
         (EvOutOfRange A_lcs
            (Z.of_nat (length (lcs_policy (value <$> oldTokens) (value <$> newTokens) 0 0)))
          :: match mergedRanges oldTokens newTokens with
             | [] => []
             | _ => [EvOutOfRange A_mergedChanges (-1)]
             end)).
Proof.
  unfold mergedChangesOf, bind, lift. rewrite lcsIndicesTokens_spec.
  rewrite extractChanges_run, mergeChanges_run, addEvents_app. unfold mergedRanges.
  destruct (changesFrom _ _ _ _ _) as [|ch rest] eqn:E; [done|].
  do 3 f_equal. simpl. destruct (mergeFrom _ _ _ _) eqn:E2; [|done].
  exfalso. clear -E2. revert ch E2. induction rest as [|c rest IH]; intros ch; simpl; [done|].
  destruct (mergeable _ _ _ _); [apply IH | done].
Qed.

End Pipeline.

(** ** Invariants of the change ranges *)

Section RangeInvariants.

Lemma slice_cons_l {A : Type} (l : list A) i j x :
  l !! i = Some x -> i < j -> slice l i j = x :: slice l (S i) j.
Proof.
  intros Hx Hij. unfold slice. rewrite (drop_S _ _ _ Hx).
  replace (j - i) with (S (j - S i)) by lia. done.
Qed.

Lemma slice_empty {A : Type} (l : list A) i j : j <= i -> slice l i j = [].
Proof. intros H. unfold slice. by replace (j - i) with 0 by lia. Qed.

Lemma slice_app {A : Type} (l : list A) p e q :
  p <= e -> e <= q -> slice l p e ++ slice l e q = slice l p q.
Proof.
  intros Hpe Heq. unfold slice.
  replace (drop e l) with (drop (e - p) (drop p l)) by (rewrite drop_drop; f_equal; lia).
  replace (q - p) with ((e - p) + (q - e)) by lia.
  by rewrite take_take_drop.
Qed.

Lemma slice_drop_app {A : Type} (l : list A) p e :
  p <= e -> slice l p e ++ drop e l = drop p l.
Proof.
  intros Hpe. unfold slice.
  replace (drop e l) with (drop (e - p) (drop p l)) by (rewrite drop_drop; f_equal; lia).
  apply take_drop.
Qed.

Lemma ranges_cover_matched vo vn i j v rs :
  vo !! i = Some v -> vn !! j = Some v ->
  ranges_cover vo vn (S i) (S j) rs -> ranges_cover vo vn i j rs.
Proof.
  intros Hi Hj. destruct rs as [|r rest]; simpl.
  - intros Heq. by rewrite (drop_S _ _ _ Hi), (drop_S _ _ _ Hj), Heq.
  - intros (Ho & Hn & Heq & H1 & H2 & Hrest). split_and!; [lia | lia | | done | done | done].
    by rewrite (slice_cons_l _ _ _ _ Hi), (slice_cons_l _ _ _ _ Hj), Heq by lia.
Qed.

Lemma changesFrom_invariants vo vn lcs po pn :
  po <= length vo -> pn <= length vn ->
  policy_pairs_ok (drop po vo) (drop pn vn) po pn lcs ->
  ranges_ordered (length vo) (length vn) po pn
    (changesFrom (length vo) (length vn) lcs po pn) /\
  ranges_cover vo vn po pn (changesFrom (length vo) (length vn) lcs po pn).
Proof.
  revert po pn. induction lcs as [|[i j] rest IH]; intros po pn Hpo Hpn Hok.
  - simpl. destruct (Nat.ltb_spec po (length vo)), (Nat.ltb_spec pn (length vn)); simpl;
      try (split; [split_and!; (done || lia) |
                   split_and!; [lia | lia | by rewrite !slice_empty by lia | lia | lia |
                                by rewrite !drop_all]]).
    split; [done|]. by rewrite !drop_ge by lia.
  - destruct Hok as (Hi & Hj & (v & Hv1 & Hv2) & Hrest).
    rewrite lookup_drop in Hv1, Hv2.
    replace (po + (i - po)) with i in Hv1 by lia.
    replace (pn + (j - pn)) with j in Hv2 by lia.
    pose proof (lookup_lt_Some _ _ _ Hv1). pose proof (lookup_lt_Some _ _ _ Hv2).
    rewrite !drop_drop in Hrest.
    replace (po + (S i - po)) with (S i) in Hrest by lia.
    replace (pn + (S j - pn)) with (S j) in Hrest by lia.
    destruct (IH (S i) (S j)) as [IHo IHc]; [lia | lia | done |].
    cbn [changesFrom fst snd]. rewrite !Nat.add_1_r.
    apply (ranges_cover_matched vo vn i j v) in IHc; [| done | done].
    destruct (Nat.ltb_spec po i), (Nat.ltb_spec pn j); simpl;
      try (split; [split_and!; (done || lia) |
                   split_and!; [lia | lia | by rewrite !slice_empty by lia | lia | lia | done]]).
    assert (po = i) as -> by lia. assert (pn = j) as -> by lia. split; [|done].
    destruct (changesFrom _ _ _ _ _) as [|r rs]; [done|]. simpl in *.
    destruct IHo as (? & ? & ? & ? & ? & ?). split_and!; (done || lia).
Qed.

Lemma ranges_ordered_weaken n m po pn po' pn' rs :
  po' <= po -> pn' <= pn -> ranges_ordered n m po pn rs -> ranges_ordered n m po' pn' rs.
Proof.
  intros Ho Hn. destruct rs as [|r rest]; [done|]. simpl.
  intros (? & ? & ? & ? & ? & ?). split_and!; (done || lia).
Qed.

Lemma mergeFrom_ordered oldTokens newTokens n m po pn last rest :
  ranges_ordered n m po pn (last :: rest) ->
  ranges_ordered n m po pn (mergeFrom oldTokens newTokens last rest).
Proof.
  revert po pn last. induction rest as [|ch rest IH]; intros po pn last; [done|].
  intros (Ho & Hn & Hlo & Hln & Hne & Hch & Hcn & Hco & Hcnn & Hcne & Hrest).
  cbn [mergeFrom]. destruct (mergeable _ _ _ _).
  - apply IH. simpl. split_and!; (done || lia).
  - cbn [ranges_ordered]. split_and!; try (done || lia).
    apply IH. simpl. split_and!; (done || lia).
Qed.

Lemma mergeFrom_cover oldTokens newTokens vo vn po pn last rest :
  ranges_cover vo vn po pn (last :: rest) ->
  ranges_cover vo vn po pn (mergeFrom oldTokens newTokens last rest).
Proof.
  revert po pn last. induction rest as [|ch rest IH]; intros po pn last; [done|].
  intros (Ho & Hn & Heq & Hlo & Hln & Hch & Hcn & Hceq & Hco & Hcnn & Hrest).
  cbn [mergeFrom]. destruct (mergeable _ _ _ _).
  - apply IH. simpl. split_and!; (done || lia).
  - cbn [ranges_cover]. split_and!; try (done || lia).
    apply IH. simpl. split_and!; (done || lia).
Qed.

Lemma mergeFrom_head oldTokens newTokens last rest :
  exists r tl,
    mergeFrom oldTokens newTokens last rest = r :: tl /\
    oldTokStart r = oldTokStart last /\ newTokStart r = newTokStart last.
Proof.
  revert last. induction rest as [|ch rest IH]; intros last; simpl; [by eauto|].
  destruct (mergeable _ _ _ _); [|by eauto].
  destruct (IH (mkRange (oldTokStart last) (oldTokEnd ch) (newTokStart last) (newTokEnd ch)))
    as (r & tl & -> & ? & ?). by eauto.
Qed.

Lemma mergeFrom_irreducible oldTokens newTokens last rest :
  irreducible oldTokens newTokens (mergeFrom oldTokens newTokens last rest).
Proof.
  revert last. induction rest as [|ch rest IH]; intros last; simpl; [done|].
  destruct (mergeable oldTokens newTokens last ch) eqn:Hm; [apply IH|].
  split; [|apply IH].
  destruct (mergeFrom_head oldTokens newTokens ch rest) as (r & tl & -> & Ho & Hn).
  unfold mergeable in *. by rewrite Ho, Hn.
Qed.

(** The merged ranges of two token sequences are ordered, cover the
    differences of the value sequences, and cannot be merged further. *)
Lemma mergedRanges_invariants oldTokens newTokens :
  ranges_ordered (length oldTokens) (length newTokens) 0 0 (mergedRanges oldTokens newTokens) /\
  ranges_cover (value <$> oldTokens) (value <$> newTokens) 0 0
    (mergedRanges oldTokens newTokens) /\
  irreducible oldTokens newTokens (mergedRanges oldTokens newTokens).
Proof.
  unfold mergedRanges.
  destruct (changesFrom_invariants (value <$> oldTokens) (value <$> newTokens)
              (lcs_policy (value <$> oldTokens) (value <$> newTokens) 0 0) 0 0)
    as [Hord Hcov]; [lia | lia | apply lcs_policy_ok |].
  rewrite !length_fmap in Hord, Hcov.
  destruct (changesFrom _ _ _ _ _) as [|ch rest].
  - by split_and!.
  - split_and!; [by apply mergeFrom_ordered | by apply mergeFrom_cover |
                 apply mergeFrom_irreducible].
Qed.

End RangeInvariants.

Section MergedRanges.

Lemma exec_mergedChangesOf oldTokens newTokens :
  exec (mergedChangesOf oldTokens newTokens) = Val (mergedRanges oldTokens newTokens).
Proof. unfold exec. by rewrite mergedChangesOf_run. Qed.

Lemma ranges_ordered_adjacent n m po pn rs k r r' :
  ranges_ordered n m po pn rs -> rs !! k = Some r -> rs !! S k = Some r' ->
  oldTokEnd r < oldTokStart r' /\ newTokEnd r < newTokStart r'.
Proof.
  revert po pn k. induction rs as [|r0 rest IH]; intros po pn k; [done|].
  intros (_ & _ & _ & _ & _ & Hrest) Hr Hr'. destruct k as [|k]; [|by eapply IH].
  simpl in Hr. injection Hr as ->. destruct rest as [|r1 rest]; [done|].
  simpl in Hr'. injection Hr' as ->. simpl in Hrest. lia.
Qed.

Lemma ranges_ordered_elem n m po pn rs r :
  ranges_ordered n m po pn rs -> r ∈ rs ->
  po <= oldTokStart r /\ pn <= newTokStart r /\
  oldTokStart r <= oldTokEnd r <= n /\ newTokStart r <= newTokEnd r <= m /\
  (oldTokStart r < oldTokEnd r \/ newTokStart r < newTokEnd r).
Proof.
  revert po pn. induction rs as [|r0 rest IH]; intros po pn.
  - by intros _ ?%elem_of_nil.
  - intros (? & ? & ? & ? & ? & Hrest) [->|Hin]%elem_of_cons; [done|].
    destruct (IH _ _ Hrest Hin) as (? & ? & ? & ? & ?). split_and!; (done || lia).
Qed.

Lemma irreducible_adjacent oldTokens newTokens rs k r r' :
  irreducible oldTokens newTokens rs -> rs !! k = Some r -> rs !! S k = Some r' ->
  mergeable oldTokens newTokens r r' = false.
Proof.
  revert k. induction rs as [|r0 rest IH]; intros k; [done|].
  intros [Hhead Hrest] Hr Hr'. destruct k as [|k]; [|by eapply IH].
  simpl in Hr. injection Hr as ->. destruct rest as [|r1 rest]; [done|].
  simpl in Hr'. by injection Hr' as ->.
Qed.

End MergedRanges.

(** C7: after the merging pass the change ranges lie in increasing
    token-index order, and for no two consecutive ranges are the token spans
    strictly between them made of separator tokens only on both the old and
    the new side. *)
Theorem merged_ranges_irreducible (oldTokens newTokens : list Token) :
  exists merged,
    exec (mergedChangesOf oldTokens newTokens) = Val merged /\
    (forall r, r ∈ merged ->
       oldTokStart r <= oldTokEnd r <= length oldTokens /\
       newTokStart r <= newTokEnd r <= length newTokens) /\
    (forall k r r', merged !! k = Some r -> merged !! S k = Some r' ->
       oldTokEnd r < oldTokStart r' /\ newTokEnd r < newTokStart r' /\
       ~ (forallb isSep (slice oldTokens (oldTokEnd r) (oldTokStart r')) = true /\
          forallb isSep (slice newTokens (newTokEnd r) (newTokStart r')) = true)).
Proof.
  exists (mergedRanges oldTokens newTokens).
  destruct (mergedRanges_invariants oldTokens newTokens) as (Hord & _ & Hirr).
  split_and!.
  - apply exec_mergedChangesOf.
  - intros r Hin. destruct (ranges_ordered_elem _ _ _ _ _ _ Hord Hin) as (_ & _ & ? & ? & _).
    done.
  - intros k r r' Hr Hr'.
    destruct (ranges_ordered_adjacent _ _ _ _ _ _ _ _ Hord Hr Hr') as [Ho Hn].
    split_and!; [done | done |]. intros [Hso Hsn].
    pose proof (irreducible_adjacent _ _ _ _ _ _ Hirr Hr Hr') as Hm.
    unfold mergeable in Hm.
    destruct (Nat.leb_spec (oldTokEnd r) (oldTokStart r')); [|lia].
    destruct (Nat.leb_spec (newTokEnd r) (newTokStart r')); [|lia].
    by rewrite Hso, Hsn in Hm.
Qed.

(** ** The diff builder *)

Section DiffBuilder.

Lemma boundary_0 toks : boundary toks 0 = 0.
Proof. unfold boundary. by rewrite take_0. Qed.

Lemma boundary_S toks i t :
  toks !! i = Some t -> boundary toks (S i) = boundary toks i + length (value t).
Proof.
  intros Ht. unfold boundary. rewrite (take_S_r _ _ _ Ht), fmap_app, concat_app, length_app.
  simpl. by rewrite app_nil_r.
Qed.

Lemma tiled_concat text p q toks :
  tiled text p q toks -> q <= length text -> concat (value <$> toks) = slice text p q.
Proof.
  revert p. induction toks as [|t rest IH]; intros p; csimpl.
  - intros -> _. by rewrite slice_empty.
  - intros (_ & Hlt & Hv & Hrest) Hq. pose proof (tiled_le _ _ _ _ Hrest).
    rewrite Hv, (IH _ Hrest Hq). apply slice_app; lia.
Qed.

Lemma tiled_split text p q toks i :
  tiled text p q toks -> q <= length text ->
  tiled text p (p + boundary toks i) (take i toks) /\
  tiled text (p + boundary toks i) q (drop i toks).
Proof.
  revert p i. induction toks as [|t rest IH]; intros p i Ht Hq.
  - rewrite take_nil, drop_nil. unfold boundary. rewrite take_nil. simpl in *. lia.
  - destruct i as [|i].
    + rewrite boundary_0, Nat.add_0_r. by split.
    + destruct Ht as (Hs & Hlt & Hv & Hrest). pose proof (tiled_le _ _ _ _ Hrest).
      destruct (IH (end_ t) i Hrest Hq) as [IH1 IH2].
      assert (p + boundary (t :: rest) (S i) = end_ t + boundary rest i) as ->.
      { unfold boundary. csimpl. rewrite length_app, Hv, slice_length by lia. lia. }
      simpl. by split_and!.
Qed.

Lemma tiled_lookup text q toks i t :
  tiled text 0 q toks -> q <= length text -> toks !! i = Some t ->
  start t = boundary toks i /\ end_ t = boundary toks (S i).
Proof.
  intros Ht Hq Hi.
  destruct (tiled_split text 0 q toks i Ht Hq) as [_ H1].
  destruct (tiled_split text 0 q toks (S i) Ht Hq) as [H2 _].
  rewrite (drop_S _ _ _ Hi) in H1. destruct H1 as (Hs & _). split; [done|].
  rewrite (take_S_r _ _ _ Hi) in H2. simpl in H2.
  apply (tiled_last _ _ _ _ t) in H2; [done|]. by rewrite last_snoc.
Qed.

Lemma boundary_take toks i j : i <= j -> boundary (take j toks) i = boundary toks i.
Proof. intros H. unfold boundary. rewrite take_take. by replace (i `min` j) with i by lia. Qed.

Lemma tiled_slice text q toks i j :
  tiled text 0 q toks -> q <= length text -> i <= j ->
  tiled text (boundary toks i) (boundary toks j) (slice toks i j) /\
  boundary toks j <= q.
Proof.
  intros Ht Hq Hij.
  destruct (tiled_split text 0 q toks j Ht Hq) as [H1 H2]. simpl in H1, H2.
  pose proof (tiled_le _ _ _ _ H2) as Hle. split; [|done].
  destruct (tiled_split text 0 (boundary toks j) (take j toks) i H1) as [_ H3]; [lia|].
  simpl in H3. rewrite boundary_take in H3 by done.
  unfold slice. rewrite take_drop_commute. by replace (i + (j - i)) with j by lia.
Qed.

Lemma boundary_lt text q toks i j :
  tiled text 0 q toks -> q <= length text -> i < j -> j <= length toks ->
  boundary toks i < boundary toks j.
Proof.
  intros Ht Hq Hij Hj.
  destruct (tiled_slice text q toks i j Ht Hq) as [Hs _]; [lia|].
  destruct (lookup_lt_is_Some_2 toks i) as [t Hi]; [lia|].
  rewrite (slice_cons_l _ _ _ _ Hi Hij) in Hs. destruct Hs as (_ & Hlt & _ & Hrest).
  apply tiled_le in Hrest. lia.
Qed.

Lemma oldOffsets_total toks r :
  oldTokStart r <= oldTokEnd r <= length toks ->
  exists v, oldOffsets toks r = Val v.
Proof.
  intros [Hse He]. unfold oldOffsets.
  destruct (Nat.ltb_spec (oldTokStart r) (oldTokEnd r)).
  - destruct (lookup_lt_is_Some_2 toks (oldTokStart r)) as [t1 H1]; [lia|].
    destruct (lookup_lt_is_Some_2 toks (oldTokEnd r - 1)) as [t2 H2]; [lia|].
    rewrite (readArr_Some _ _ _ _ H1), (readArr_Some _ _ _ _ H2). simpl. eauto.
  - destruct (Z.leb_spec 0 (Z.of_nat (oldTokStart r) - 1)); [|simpl; eauto].
    destruct (lookup_lt_is_Some_2 toks (Z.to_nat (Z.of_nat (oldTokStart r) - 1)))
      as [t Ht]; [lia|].
    rewrite (readArr_Some _ _ _ _ Ht). simpl. eauto.
Qed.

Lemma newOffsets_total toks r :
  newTokStart r <= newTokEnd r <= length toks ->
  exists v, newOffsets toks r = Val v.
Proof.
  intros [Hse He]. unfold newOffsets.
  destruct (Nat.ltb_spec (newTokStart r) (newTokEnd r)); [|eauto].
  destruct (lookup_lt_is_Some_2 toks (newTokStart r)) as [t1 H1]; [lia|].
  destruct (lookup_lt_is_Some_2 toks (newTokEnd r - 1)) as [t2 H2]; [lia|].
  rewrite (readArr_Some _ _ _ _ H1), (readArr_Some _ _ _ _ H2). simpl. eauto.
Qed.

Lemma diffOfRange_total oldText newText oldTokens newTokens r :
  oldTokStart r <= oldTokEnd r <= length oldTokens ->
  newTokStart r <= newTokEnd r <= length newTokens ->
  diffOfRange oldText newText oldTokens newTokens r =
  Val (rangeDiff oldText newText oldTokens newTokens r).
Proof.
  intros Ho Hn. unfold rangeDiff, diffOfRange.
  destruct (oldOffsets_total oldTokens r Ho) as [old ->].
  destruct (newOffsets_total newTokens r Hn) as [new ->]. simpl.
  case_bool_decide; [done|].
  match goal with |- context [classifyChange ?a ?b ?c ?d] =>
    destruct (classifyChange_total a b c d) as (ct & ->) end.
  done.
Qed.

Lemma omap_cons_case {A B : Type} (f : A -> option B) x l :
  omap f (x :: l) = match f x with Some y => y :: omap f l | None => omap f l end.
Proof. done. Qed.

Lemma buildDiffs_loop oldText newText oldTokens newTokens rs acc :
  (forall r, r ∈ rs ->
     oldTokStart r <= oldTokEnd r <= length oldTokens /\
     newTokStart r <= newTokEnd r <= length newTokens) ->
  forOf rs (fun ch diffs =>
      d <~ diffOfRange oldText newText oldTokens newTokens ch ;;
      match d with
      | Some d => Val (diffs ++ [d])
      | None => Val diffs
      end) acc =
  Val (acc ++ omap (rangeDiff oldText newText oldTokens newTokens) rs).
Proof.
  revert acc. induction rs as [|r rest IH]; intros acc Hall; cbn [forOf omap].
  - by rewrite app_nil_r.
  - destruct (Hall r) as [Ho Hn]; [by left|].
    rewrite (diffOfRange_total _ _ _ _ _ Ho Hn), omap_cons_case. cbn [obind].
    destruct (rangeDiff _ _ _ _ r) as [d|]; cbn [obind].
    + rewrite IH by (intros; apply Hall; by right). by rewrite <- app_assoc.
    + apply IH. intros. apply Hall. by right.
Qed.

Lemma buildDiffs_run oldText newText oldTokens newTokens :
  buildDiffs oldText newText oldTokens newTokens (mergedRanges oldTokens newTokens) =
  Val (omap (rangeDiff oldText newText oldTokens newTokens) (mergedRanges oldTokens newTokens)).
Proof.
  unfold buildDiffs. rewrite buildDiffs_loop; [done|].
  intros r Hin. destruct (mergedRanges_invariants oldTokens newTokens) as (Hord & _).
  destruct (ranges_ordered_elem _ _ _ _ _ _ Hord Hin) as (_ & _ & ? & ? & _). done.
Qed.

(** [getTextDiffs] called with [lastIndex] at 0 returns, leaves [lastIndex]
    at 0, and adds its events to the trace. *)
Lemma getTextDiffs_run P oldTextInput newTextInput tr :
  getTextDiffs P oldTextInput newTextInput (mkWorld 0 tr) =
  Val (diffsOf P oldTextInput newTextInput,
       mkWorld 0 (tr ++ eventsOf P oldTextInput newTextInput)).
Proof.
  unfold getTextDiffs, diffsOf, eventsOf, bind, normalize, emit, ret. simpl.
  case_bool_decide.
  - by rewrite <- app_assoc.
  - rewrite !tokenize_run. rewrite mergedChangesOf_run. unfold lift.
    rewrite buildDiffs_run. unfold addEvents. simpl.
    do 3 f_equal. rewrite <- !app_assoc. done.
Qed.

Lemma exec_getTextDiffs P oldTextInput newTextInput :
  exec (getTextDiffs P oldTextInput newTextInput) = Val (diffsOf P oldTextInput newTextInput).
Proof. unfold exec, initialWorld. by rewrite getTextDiffs_run. Qed.

Lemma events_getTextDiffs P oldTextInput newTextInput :
  events (getTextDiffs P oldTextInput newTextInput) = eventsOf P oldTextInput newTextInput.
Proof. unfold events, initialWorld. by rewrite getTextDiffs_run. Qed.

End DiffBuilder.

(** ** Totality and the reads outside arrays *)

(** C10, as the code has it: [getTextDiffs] returns for all inputs (no
    exception, no token, string or table read outside its array); the only
    reads outside an array are the two whose result the source tests for
    [undefined]: [lcs[lcs.length]] in the last turn of the range
    extraction, and [mergedChanges[-1]] in the first turn of the merging. *)
Theorem getTextDiffs_total (P : Platform) (oldTextInput newTextInput : str) :
  exists diffs,
    exec (getTextDiffs P oldTextInput newTextInput) = Val diffs /\
    forall arr i,
      EvOutOfRange arr i ∈ events (getTextDiffs P oldTextInput newTextInput) ->
      (arr = A_lcs /\
       exists oldTokens newTokens pairs,
         exec (tokenize P (normalizeNFC P oldTextInput)) = Val oldTokens /\
         exec (tokenize P (normalizeNFC P newTextInput)) = Val newTokens /\
         lcsIndicesTokens oldTokens newTokens = Val pairs /\
         i = Z.of_nat (length pairs)) \/
      (arr = A_mergedChanges /\ i = (-1)%Z).
Proof.
  exists (diffsOf P oldTextInput newTextInput). split; [apply exec_getTextDiffs|].
  intros arr i. rewrite events_getTextDiffs. unfold eventsOf.
  rewrite elem_of_app. intros [Hin | Hin].
  { apply elem_of_cons in Hin as [?|Hin]; [done|].
    apply elem_of_cons in Hin as [?|Hin]; [done|]. by apply elem_of_nil in Hin. }
  case_bool_decide; [by apply elem_of_nil in Hin|].
  apply elem_of_app in Hin as [Hin | Hin].
  - apply elem_of_cons in Hin as [?|Hin]; [done|].
    apply elem_of_cons in Hin as [?|Hin]; [done|].
    apply elem_of_cons in Hin as [[= -> ->]|Hin]; [|by apply elem_of_nil in Hin].
    left. split; [done|]. eexists _, _, _. split_and!.
    + apply exec_tokenize.
    + apply exec_tokenize.
    + apply lcsIndicesTokens_spec.
    + done.
  - destruct (mergedRanges _ _); [by apply elem_of_nil in Hin|].
    apply elem_of_cons in Hin as [[= -> ->]|Hin]; [|by apply elem_of_nil in Hin].
    by right.
Qed.

(** C10 as stated fails: for ["a"] and ["b"] the alignment is empty, and
    the range extraction reads [lcs[0]] outside the array (as the merging
    reads [mergedChanges[-1]]). *)
Lemma getTextDiffs_reads_past_lcs :
  EvOutOfRange A_lcs 0 ∈ events (getTextDiffs fallbackPlatform [97%Z] [98%Z]) /\
  EvOutOfRange A_mergedChanges (-1) ∈ events (getTextDiffs fallbackPlatform [97%Z] [98%Z]).
Proof. split; vm_compute; repeat constructor. Qed.

(** ** Normalization *)

Lemma tokenizeNormalized_run P normalized tr :
  tokenizeNormalized P normalized (mkWorld 0 tr) = Val (tokensOf P normalized, mkWorld 0 tr).
Proof.
  unfold tokenizeNormalized, tokensOf, ret.
  destruct (IntlSegmenter P) as [segmenter|].
  - destruct (segmenter _) as [segments|]; [done|].
    by rewrite regexLoop_spec by lia.
  - by rewrite regexLoop_spec by lia.
Qed.

Lemma exec_getTextDiffsNormalizedOnce P oldTextInput newTextInput :
  exec (getTextDiffsNormalizedOnce P oldTextInput newTextInput) =
  Val (let oldText := normalizeNFC P oldTextInput in
       let newText := normalizeNFC P newTextInput in
       if bool_decide (oldText = newText) then []
       else omap (rangeDiff oldText newText (tokensOf P oldText) (tokensOf P newText))
                 (mergedRanges (tokensOf P oldText) (tokensOf P newText))).
Proof.
  unfold exec, initialWorld, getTextDiffsNormalizedOnce, bind, normalize, emit, ret. simpl.
  case_bool_decide; [done|].
  rewrite !tokenizeNormalized_run, mergedChangesOf_run. unfold lift.
  by rewrite buildDiffs_run.
Qed.

(** C9, as the code has it: [normalize] runs on each input before the
    equality test, and, when the normalized inputs differ, once more inside
    each call of [tokenize], on the string that is already normalized; NFC
    being idempotent, the result is that of the pipeline that normalizes
    each input once. *)
Theorem normalization_twice_as_once (P : Platform) (oldTextInput newTextInput : str) :
  normalizeNFC P (normalizeNFC P oldTextInput) = normalizeNFC P oldTextInput ->
  normalizeNFC P (normalizeNFC P newTextInput) = normalizeNFC P newTextInput ->
  exec (getTextDiffs P oldTextInput newTextInput) =
    exec (getTextDiffsNormalizedOnce P oldTextInput newTextInput) /\
  normalizations (events (getTextDiffs P oldTextInput newTextInput)) =
    [oldTextInput; newTextInput] ++
    if bool_decide (normalizeNFC P oldTextInput = normalizeNFC P newTextInput) then []
    else [normalizeNFC P oldTextInput; normalizeNFC P newTextInput].
Proof.
  intros Hold Hnew. split.
  - rewrite exec_getTextDiffs, exec_getTextDiffsNormalizedOnce. unfold diffsOf.
    by rewrite Hold, Hnew.
  - rewrite events_getTextDiffs. unfold eventsOf, normalizations. simpl.
    case_bool_decide; [done|]. simpl. by destruct (mergedRanges _ _).
Qed.

Lemma normalization_twice_as_once_witness :
  normalizeNFC fallbackPlatform (normalizeNFC fallbackPlatform [97%Z]) =
    normalizeNFC fallbackPlatform [97%Z] /\
  normalizeNFC fallbackPlatform (normalizeNFC fallbackPlatform [98%Z]) =
    normalizeNFC fallbackPlatform [98%Z] /\
  exec (getTextDiffs fallbackPlatform [97%Z] [98%Z]) =
    exec (getTextDiffsNormalizedOnce fallbackPlatform [97%Z] [98%Z]) /\
  normalizations (events (getTextDiffs fallbackPlatform [97%Z] [98%Z])) =
    [[97%Z]; [98%Z]] ++
    if bool_decide (normalizeNFC fallbackPlatform [97%Z] = normalizeNFC fallbackPlatform [98%Z])
    then [] else [normalizeNFC fallbackPlatform [97%Z]; normalizeNFC fallbackPlatform [98%Z]].
Proof.
  split; [reflexivity|]. split; [reflexivity|].
  apply (normalization_twice_as_once fallbackPlatform [97%Z] [98%Z]); reflexivity.
Defined.

(** C9 as stated fails: in the call for ["a"] and ["b"] each input goes
    through [normalize] twice. *)
Lemma normalize_runs_twice :
  normalizations (events (getTextDiffs fallbackPlatform [97%Z] [98%Z])) =
  [[97%Z]; [98%Z]; [97%Z]; [98%Z]].
Proof. by vm_compute. Qed.

(** ** Offsets *)

Section Offsets.

Lemma readArr_Val {A : Type} e (arr : list A) i x :
  readArr e arr i = Val x -> arr !! i = Some x.
Proof. unfold readArr. destruct (arr !! i) as [a|]; intros H; by inversion H. Qed.

Lemma oldOffsets_spec oldTokens ch s e :
  oldOffsets oldTokens ch = Val (s, e) -> old_offsets_of oldTokens ch s e.
Proof.
  unfold oldOffsets, old_offsets_of.
  destruct (Nat.ltb_spec (oldTokStart ch) (oldTokEnd ch)) as [Hlt|Hge].
  - destruct (readArr _ _ (oldTokStart ch)) as [first|] eqn:H1; [|done].
    destruct (readArr _ _ (oldTokEnd ch - 1)) as [final|] eqn:H2; [|done].
    simpl. intros [= <- <-]. apply readArr_Val in H1, H2.
    split_and!; [intros _; by exists first, final | intros; lia | intros; lia].
  - destruct (Z.leb_spec 0 (Z.of_nat (oldTokStart ch) - 1)) as [Hpos|Hneg].
    + replace (Z.to_nat (Z.of_nat (oldTokStart ch) - 1)) with (oldTokStart ch - 1) by lia.
      destruct (readArr _ _ (oldTokStart ch - 1)) as [left|] eqn:H1; [|done].
      simpl. intros [= <- <-]. apply readArr_Val in H1.
      split_and!; [intros; lia | intros _ _; by exists left | intros; lia].
    + simpl. intros [= <- <-]. split_and!; [intros; lia | intros; lia | done].
Qed.

Lemma rangeDiff_offsets oldNorm newNorm oldTokens newTokens ch d :
  rangeDiff oldNorm newNorm oldTokens newTokens ch = Some d ->
  oldText d = slice oldNorm (startIndex d) (endIndex d) /\
  old_offsets_of oldTokens ch (startIndex d) (endIndex d).
Proof.
  unfold rangeDiff, diffOfRange.
  destruct (oldOffsets oldTokens ch) as [[s e]|] eqn:Hold; [|done].
  destruct (newOffsets newTokens ch) as [new|]; [|done]. simpl.
  case_bool_decide; [done|].
  destruct (classifyChange _ _ _ _) as [ct|]; [|done]. simpl. intros [= <-]. simpl.
  split; [done|]. by apply oldOffsets_spec.
Qed.

End Offsets.

(** C5: every returned diff carries as [oldText] the slice of the
    normalized old string between its two offsets, and the offsets are
    those of a final change range: the start of its first old token and
    the end of its last one, or, for an empty old span, the end of the
    token before it, or 0 at the very start. *)
Theorem diff_offsets (P : Platform) (oldTextInput newTextInput : str) :
  exists diffs oldTokens newTokens mergedChanges,
    exec (getTextDiffs P oldTextInput newTextInput) = Val diffs /\
    exec (tokenize P (normalizeNFC P oldTextInput)) = Val oldTokens /\
    exec (tokenize P (normalizeNFC P newTextInput)) = Val newTokens /\
    exec (mergedChangesOf oldTokens newTokens) = Val mergedChanges /\
    forall d, d ∈ diffs ->
      oldText d = slice (normalizeNFC P oldTextInput) (startIndex d) (endIndex d) /\
      exists ch, ch ∈ mergedChanges /\
        old_offsets_of oldTokens ch (startIndex d) (endIndex d).
Proof.
  eexists (diffsOf P oldTextInput newTextInput), _, _, _. split_and!.
  - apply exec_getTextDiffs.
  - apply exec_tokenize.
  - apply exec_tokenize.
  - apply exec_mergedChangesOf.
  - intros d. unfold diffsOf. case_bool_decide; [by intros ?%elem_of_nil|].
    intros (ch & Hch & Hd)%list_elem_of_omap.
    destruct (rangeDiff_offsets _ _ _ _ _ _ Hd) as [Hslice Hoff].
    split; [done|]. by exists ch.
Qed.

(** ** Diffs and tilings *)

Section TiledDiffs.

Variables (oldNorm newNorm : str) (oldTokens newTokens : list Token).
Hypothesis Hold : tiled oldNorm 0 (length oldNorm) oldTokens.
Hypothesis Hnew : tiled newNorm 0 (length newNorm) newTokens.

Lemma oldOffsets_tiled text toks r :
  tiled text 0 (length text) toks ->
  oldTokStart r <= oldTokEnd r <= length toks ->
  oldOffsets toks r = Val (boundary toks (oldTokStart r), boundary toks (oldTokEnd r)).
Proof using Type.
  intros Ht [Hse He]. unfold oldOffsets.
  destruct (Nat.ltb_spec (oldTokStart r) (oldTokEnd r)).
  - destruct (lookup_lt_is_Some_2 toks (oldTokStart r)) as [t1 H1]; [lia|].
    destruct (lookup_lt_is_Some_2 toks (oldTokEnd r - 1)) as [t2 H2]; [lia|].
    rewrite (readArr_Some _ _ _ _ H1), (readArr_Some _ _ _ _ H2). simpl.
    destruct (tiled_lookup _ _ _ _ _ Ht ltac:(lia) H1) as [-> _].
    destruct (tiled_lookup _ _ _ _ _ Ht ltac:(lia) H2) as [_ ->].
    by replace (S (oldTokEnd r - 1)) with (oldTokEnd r) by lia.
  - assert (oldTokEnd r = oldTokStart r) as -> by lia.
    destruct (Z.leb_spec 0 (Z.of_nat (oldTokStart r) - 1)).
    + replace (Z.to_nat (Z.of_nat (oldTokStart r) - 1)) with (oldTokStart r - 1) by lia.
      destruct (lookup_lt_is_Some_2 toks (oldTokStart r - 1)) as [t Ht1]; [lia|].
      rewrite (readArr_Some _ _ _ _ Ht1). simpl.
      destruct (tiled_lookup _ _ _ _ _ Ht ltac:(lia) Ht1) as [_ ->].
      by replace (S (oldTokStart r - 1)) with (oldTokStart r) by lia.
    + simpl. assert (oldTokStart r = 0) as -> by lia. by rewrite boundary_0.
Qed.

Lemma newSlice_tiled text toks r :
  tiled text 0 (length text) toks ->
  newTokStart r <= newTokEnd r <= length toks ->
  exists new,
    newOffsets toks r = Val new /\
    match new with
    | Some (newStart, newEnd) => sliceFromOriginal text newStart newEnd
    | None => []
    end = concat (value <$> slice toks (newTokStart r) (newTokEnd r)).
Proof using Type.
  intros Ht [Hse He]. unfold newOffsets.
  destruct (Nat.ltb_spec (newTokStart r) (newTokEnd r)).
  - destruct (lookup_lt_is_Some_2 toks (newTokStart r)) as [t1 H1]; [lia|].
    destruct (lookup_lt_is_Some_2 toks (newTokEnd r - 1)) as [t2 H2]; [lia|].
    rewrite (readArr_Some _ _ _ _ H1), (readArr_Some _ _ _ _ H2). simpl.
    eexists. split; [done|]. simpl.
    destruct (tiled_lookup _ _ _ _ _ Ht ltac:(lia) H1) as [-> _].
    destruct (tiled_lookup _ _ _ _ _ Ht ltac:(lia) H2) as [_ ->].
    replace (S (newTokEnd r - 1)) with (newTokEnd r) by lia.
    destruct (tiled_slice text _ toks (newTokStart r) (newTokEnd r) Ht) as [Hs Hle];
      [lia | lia |].
    symmetry. by apply tiled_concat.
  - eexists. split; [done|]. by rewrite slice_empty by lia.
Qed.

Lemma oldSlice_tiled text toks r :
  tiled text 0 (length text) toks ->
  oldTokStart r <= oldTokEnd r <= length toks ->
  sliceFromOriginal text (boundary toks (oldTokStart r)) (boundary toks (oldTokEnd r)) =
  concat (value <$> slice toks (oldTokStart r) (oldTokEnd r)).
Proof using Type.
  intros Ht [Hse He].
  destruct (tiled_slice text _ toks (oldTokStart r) (oldTokEnd r) Ht) as [Hs Hle];
    [lia | lia |].
  symmetry. by apply tiled_concat.
Qed.

(** Under the two tilings, a range yields no diff exactly when its two
    sides spell the same text, and a diff starts at the boundary of its
    first old token. *)
Lemma rangeDiff_tiled r :
  oldTokStart r <= oldTokEnd r <= length oldTokens ->
  newTokStart r <= newTokEnd r <= length newTokens ->
  match rangeDiff oldNorm newNorm oldTokens newTokens r with
  | None =>
      concat (value <$> slice oldTokens (oldTokStart r) (oldTokEnd r)) =
      concat (value <$> slice newTokens (newTokStart r) (newTokEnd r))
  | Some d => startIndex d = boundary oldTokens (oldTokStart r)
  end.
Proof using Hold Hnew.
  intros Ho Hn. unfold rangeDiff, diffOfRange.
  rewrite (oldOffsets_tiled oldNorm oldTokens r Hold Ho).
  destruct (newSlice_tiled newNorm newTokens r Hnew Hn) as (new & -> & Hnewslice).
  cbn [obind fst snd]. rewrite Hnewslice, (oldSlice_tiled oldNorm oldTokens r Hold Ho).
  case_bool_decide; [done|].
  destruct (classifyChange _ _ _ _) as [ct|e] eqn:Hc; [done|]. exfalso.
  match type of Hc with classifyChange ?a ?b ?c ?d = _ =>
    destruct (classifyChange_total a b c d) as (ct & Hct) end.
  congruence.
Qed.

End TiledDiffs.

Section Identity.

Lemma slice_fmap {A B : Type} (f : A -> B) (l : list A) i j :
  slice (f <$> l) i j = f <$> slice l i j.
Proof. unfold slice. by rewrite fmap_take, fmap_drop. Qed.

Lemma ranges_cover_concat vo vn po pn rs :
  ranges_cover vo vn po pn rs ->
  (forall r, r ∈ rs ->
     concat (slice vo (oldTokStart r) (oldTokEnd r)) =
     concat (slice vn (newTokStart r) (newTokEnd r))) ->
  concat (drop po vo) = concat (drop pn vn).
Proof.
  revert po pn. induction rs as [|r rest IH]; intros po pn; simpl.
  - by intros ->.
  - intros (Ho & Hn & Heq & Hoe & Hne & Hrest) Hall.
    rewrite <- (slice_drop_app vo po (oldTokStart r) Ho).
    rewrite <- (slice_drop_app vn pn (newTokStart r) Hn).
    rewrite <- (slice_drop_app vo (oldTokStart r) (oldTokEnd r) Hoe).
    rewrite <- (slice_drop_app vn (newTokStart r) (newTokEnd r) Hne).
    rewrite !concat_app, Heq, (Hall r) by (by left).
    rewrite (IH _ _ Hrest); [done|]. intros r' Hr'. apply Hall. by right.
Qed.

Lemma omap_nil_inv {A B : Type} (f : A -> option B) (l : list A) x :
  omap f l = [] -> x ∈ l -> f x = None.
Proof.
  intros Hnil Hx. destruct (f x) as [y|] eqn:Hy; [|done].
  assert (y ∈ omap f l) as Hin by (apply list_elem_of_omap; eauto).
  rewrite Hnil in Hin. by apply elem_of_nil in Hin.
Qed.

(** When no range yields a diff, the two tiled texts are the same. *)
Lemma no_diff_same_text oldNorm newNorm oldTokens newTokens :
  tiled oldNorm 0 (length oldNorm) oldTokens ->
  tiled newNorm 0 (length newNorm) newTokens ->
  omap (rangeDiff oldNorm newNorm oldTokens newTokens) (mergedRanges oldTokens newTokens) = [] ->
  oldNorm = newNorm.
Proof.
  intros Hold Hnew Hnil.
  destruct (mergedRanges_invariants oldTokens newTokens) as (Hord & Hcov & _).
  assert (forall text toks, tiled text 0 (length text) toks ->
            concat (value <$> toks) = text) as Hwhole.
  { intros text toks Ht. rewrite (tiled_concat _ _ _ _ Ht) by lia.
    unfold slice. by rewrite drop_0, Nat.sub_0_r, firstn_all. }
  rewrite <- (Hwhole _ _ Hold), <- (Hwhole _ _ Hnew).
  apply (ranges_cover_concat _ _ 0 0 _ Hcov). intros r Hr. rewrite !slice_fmap.
  destruct (ranges_ordered_elem _ _ _ _ _ _ Hord Hr) as (_ & _ & Ho & Hn & _).
  pose proof (rangeDiff_tiled oldNorm newNorm oldTokens newTokens Hold Hnew r Ho Hn) as Hd.
  by rewrite (omap_nil_inv _ _ _ Hnil Hr) in Hd.
Qed.

End Identity.

(** C1: [getTextDiffs] returns the empty list exactly when the two
    normalized inputs are equal (NFC being idempotent and the segments of
    [Intl.Segmenter] well formed); in particular it returns the empty list
    for twice the same input. *)
Theorem getTextDiffs_empty_iff (P : Platform) (x y : str) :
  normalizeNFC P (normalizeNFC P x) = normalizeNFC P x ->
  normalizeNFC P (normalizeNFC P y) = normalizeNFC P y ->
  segmenter_ok P (normalizeNFC P x) ->
  segmenter_ok P (normalizeNFC P y) ->
  (exec (getTextDiffs P x y) = Val [] <-> normalizeNFC P x = normalizeNFC P y) /\
  exec (getTextDiffs P x x) = Val [].
Proof.
  intros Hx Hy Hsx Hsy. split.
  - rewrite exec_getTextDiffs. unfold diffsOf. case_bool_decide as Heq; [done|].
    split; [|done]. intros [= Hnil]. rewrite Hx, Hy in Hnil.
    eapply no_diff_same_text; [| | exact Hnil]; by apply tokensOf_tiled.
  - rewrite exec_getTextDiffs. unfold diffsOf. by rewrite bool_decide_eq_true_2.
Qed.

Lemma getTextDiffs_empty_iff_witness :
  normalizeNFC segmenterPlatform (normalizeNFC segmenterPlatform [97; 44; 32; 98]%Z) =
    normalizeNFC segmenterPlatform [97; 44; 32; 98]%Z /\
  normalizeNFC segmenterPlatform (normalizeNFC segmenterPlatform [97; 32; 99]%Z) =
    normalizeNFC segmenterPlatform [97; 32; 99]%Z /\
  segmenter_ok segmenterPlatform (normalizeNFC segmenterPlatform [97; 44; 32; 98]%Z) /\
  segmenter_ok segmenterPlatform (normalizeNFC segmenterPlatform [97; 32; 99]%Z) /\
  (exec (getTextDiffs segmenterPlatform [97; 44; 32; 98]%Z [97; 32; 99]%Z) = Val [] <->
   normalizeNFC segmenterPlatform [97; 44; 32; 98]%Z =
   normalizeNFC segmenterPlatform [97; 32; 99]%Z) /\
  exec (getTextDiffs segmenterPlatform [97; 44; 32; 98]%Z [97; 44; 32; 98]%Z) = Val [].
Proof.
  split; [reflexivity|]. split; [reflexivity|].
  split; [vm_compute; reflexivity|]. split; [vm_compute; reflexivity|].
  apply (getTextDiffs_empty_iff segmenterPlatform [97; 44; 32; 98]%Z [97; 32; 99]%Z);
    vm_compute; reflexivity.
Defined.

(** ** The order of the diffs *)

Section Ordering.

Lemma ranges_ordered_lookup_lt n m po pn rs i j r r' :
  ranges_ordered n m po pn rs -> i < j ->
  rs !! i = Some r -> rs !! j = Some r' ->
  oldTokStart r < oldTokStart r'.
Proof.
  revert po pn i j. induction rs as [|r0 rest IH]; intros po pn i j; [done|].
  intros (_ & _ & Ho & _ & _ & Hrest) Hij Hi Hj.
  destruct j as [|j]; [lia|]. destruct i as [|i].
  - simpl in Hi, Hj. injection Hi as ->.
    apply list_elem_of_lookup_2 in Hj.
    destruct (ranges_ordered_elem _ _ _ _ _ _ Hrest Hj) as (? & _). lia.
  - simpl in Hi, Hj. eapply IH; [exact Hrest | | exact Hi | exact Hj]. lia.
Qed.

Lemma omap_lookup_lt {A B : Type} (f : A -> option B) (l : list A) i j b1 b2 :
  i < j -> omap f l !! i = Some b1 -> omap f l !! j = Some b2 ->
  exists i' j' a1 a2,
    i' < j' /\ l !! i' = Some a1 /\ l !! j' = Some a2 /\ f a1 = Some b1 /\ f a2 = Some b2.
Proof.
  revert i j. induction l as [|a l IH]; intros i j Hij Hi Hj; [done|].
  rewrite omap_cons_case in Hi, Hj. destruct (f a) as [b|] eqn:Hfa.
  - destruct j as [|j]; [lia|]. destruct i as [|i].
    + simpl in Hi, Hj. injection Hi as ->.
      apply list_elem_of_lookup_2, list_elem_of_omap in Hj as (a2 & Ha2 & Hf2).
      apply list_elem_of_lookup_1 in Ha2 as [j' Hj'].
      exists 0, (S j'), a, a2. split_and!; (done || lia).
    + simpl in Hi, Hj.
      destruct (IH i j) as (i' & j' & a1 & a2 & ? & ? & ? & ? & ?); [lia | done | done |].
      exists (S i'), (S j'), a1, a2. split_and!; (done || lia).
  - destruct (IH i j) as (i' & j' & a1 & a2 & ? & ? & ? & ? & ?); [lia | done | done |].
    exists (S i'), (S j'), a1, a2. split_and!; (done || lia).
Qed.

End Ordering.

(** C6: the diffs come in strictly increasing order of [startIndex] (NFC
    being idempotent and the segments of the old text well formed). *)
Theorem diffs_strictly_increasing (P : Platform) (oldTextInput newTextInput : str) :
  normalizeNFC P (normalizeNFC P oldTextInput) = normalizeNFC P oldTextInput ->
  segmenter_ok P (normalizeNFC P oldTextInput) ->
  exists diffs,
    exec (getTextDiffs P oldTextInput newTextInput) = Val diffs /\
    forall i j d1 d2,
      i < j -> diffs !! i = Some d1 -> diffs !! j = Some d2 ->
      startIndex d1 < startIndex d2.
Proof.
  intros Hidem Hseg. exists (diffsOf P oldTextInput newTextInput).
  split; [apply exec_getTextDiffs|].
  intros i j d1 d2 Hij. unfold diffsOf. case_bool_decide; [done|]. rewrite Hidem.
  set (oldNorm := normalizeNFC P oldTextInput).
  set (oldTokens := tokensOf P oldNorm).
  set (newTokens := tokensOf P _).
  intros H1 H2.
  destruct (omap_lookup_lt _ _ _ _ _ _ Hij H1 H2)
    as (i' & j' & r1 & r2 & Hij' & Hr1 & Hr2 & Hd1 & Hd2).
  destruct (mergedRanges_invariants oldTokens newTokens) as (Hord & _).
  assert (tiled oldNorm 0 (length oldNorm) oldTokens) as Htiled by by apply tokensOf_tiled.
  pose proof (ranges_ordered_lookup_lt _ _ _ _ _ _ _ _ _ Hord Hij' Hr1 Hr2) as Hlt.
  destruct (ranges_ordered_elem _ _ _ _ _ _ Hord (list_elem_of_lookup_2 _ _ _ Hr1))
    as (_ & _ & Ho1 & Hn1 & _).
  destruct (ranges_ordered_elem _ _ _ _ _ _ Hord (list_elem_of_lookup_2 _ _ _ Hr2))
    as (_ & _ & Ho2 & Hn2 & _).
  assert (forall r d,
    oldTokStart r <= oldTokEnd r <= length oldTokens ->
    rangeDiff oldNorm (normalizeNFC P newTextInput) oldTokens newTokens r = Some d ->
    startIndex d = boundary oldTokens (oldTokStart r)) as Hstart.
  { intros r d Ho. unfold rangeDiff, diffOfRange.
    rewrite (oldOffsets_tiled oldNorm oldTokens r Htiled Ho).
    destruct (newOffsets newTokens r) as [new|]; [|done]. cbn [obind fst snd].
    case_bool_decide; [done|].
    destruct (classifyChange _ _ _ _) as [ct|]; [|done]. simpl. by intros [= <-]. }
  rewrite (Hstart _ _ Ho1 Hd1), (Hstart _ _ Ho2 Hd2).
  eapply (boundary_lt oldNorm); [exact Htiled | lia | done | lia].
Qed.

Lemma diffs_strictly_increasing_witness :
  normalizeNFC segmenterPlatform
    (normalizeNFC segmenterPlatform [97; 32; 98; 32; 99; 32; 100]%Z) =
    normalizeNFC segmenterPlatform [97; 32; 98; 32; 99; 32; 100]%Z /\
  segmenter_ok segmenterPlatform
    (normalizeNFC segmenterPlatform [97; 32; 98; 32; 99; 32; 100]%Z) /\
  exists diffs,
    exec (getTextDiffs segmenterPlatform [97; 32; 98; 32; 99; 32; 100]%Z
            [120; 32; 98; 32; 99; 32; 121]%Z) = Val diffs /\
    forall i j d1 d2,
      i < j -> diffs !! i = Some d1 -> diffs !! j = Some d2 ->
      startIndex d1 < startIndex d2.
Proof.
  split; [reflexivity|]. split; [vm_compute; reflexivity|].
  apply (diffs_strictly_increasing segmenterPlatform [97; 32; 98; 32; 99; 32; 100]%Z
           [120; 32; 98; 32; 99; 32; 121]%Z); vm_compute; reflexivity.
Defined.

(** ** The example of the three substituted words *)

Section Ascii.

Variable P : Platform.
Hypothesis Hascii : classifies_ascii P.

Lemma isLeadSurrogate_ascii c : (0 <= c < 128)%Z -> isLeadSurrogate c = false.
Proof. intros H. unfold isLeadSurrogate. destruct (Z.leb_spec 55296 c); [lia | done]. Qed.

Lemma classRun_ascii cls s :
  is_ascii s -> classRun P cls s = classRun fallbackPlatform cls s.
Proof using Hascii.
  induction s as [|c|c d rest IH1 IH2] using str_pair_ind; [done | |].
  - intros [Hc _]%Forall_cons. simpl. by rewrite Hascii.
  - intros [Hc Hrest]%Forall_cons. rewrite !classRun_cons2.
    rewrite isLeadSurrogate_ascii by done. simpl andb. cbv iota.
    rewrite Hascii by done. simpl isWordCodePoint. by rewrite IH1.
Qed.

Lemma codePoints_cons2 c d rest :
  codePoints (c :: d :: rest) =
  if isLeadSurrogate c && isTrailSurrogate d
  then surrogatePairToCodePoint c d :: codePoints rest
  else c :: codePoints (d :: rest).
Proof using Type. reflexivity. Qed.

Lemma codePoints_ascii s : is_ascii s -> codePoints s = s.
Proof using Type.
  induction s as [|c|c d rest IH1 IH2] using str_pair_ind; [done | done |].
  intros [Hc Hrest]%Forall_cons. rewrite codePoints_cons2.
  rewrite isLeadSurrogate_ascii by done. simpl andb. cbv iota. by rewrite IH1.
Qed.

Lemma hasWordChar_ascii s :
  is_ascii s -> hasWordChar P s = hasWordChar fallbackPlatform s.
Proof using Hascii.
  intros Hs. unfold hasWordChar. rewrite codePoints_ascii by done.
  induction Hs as [|c s Hc _ IH]; [done|]. simpl. by rewrite Hascii, IH.
Qed.

Lemma matchAt_ascii s p : is_ascii s -> matchAt P s p = matchAt fallbackPlatform s p.
Proof using Hascii.
  intros Hs. unfold matchAt. by rewrite !classRun_ascii by by apply Forall_drop.
Qed.

Lemma greedyTokens_ascii fuel s p :
  is_ascii s -> greedyTokens P fuel s p = greedyTokens fallbackPlatform fuel s p.
Proof using Hascii.
  intros Hs. revert p. induction fuel as [|fuel IH]; intros p; [done|]. simpl.
  rewrite matchAt_ascii by done. destruct (p <? length s); [|done].
  destruct (matchAt fallbackPlatform s p) as [e|]; [|done].
  rewrite hasWordChar_ascii, IH; [done|]. by apply Forall_take, Forall_drop.
Qed.

End Ascii.

(** C8: for ["quick brown fox"] and ["fast dark wolf"] the result is one
    diff, from the whole old string to the whole new string, of type
    [replace]. *)
Theorem quick_brown_fox_one_replace (P : Platform) :
  normalizeNFC P quick_brown_fox = quick_brown_fox ->
  normalizeNFC P fast_dark_wolf = fast_dark_wolf ->
  classifies_ascii P ->
  words_and_spaces P quick_brown_fox ->
  words_and_spaces P fast_dark_wolf ->
  exec (getTextDiffs P quick_brown_fox fast_dark_wolf) =
  Val [mkTextDiff quick_brown_fox 0 (length quick_brown_fox) fast_dark_wolf replace].
Proof.
  intros Hold Hnew Hascii Hso Hsn.
  rewrite exec_getTextDiffs. unfold diffsOf. rewrite !Hold, !Hnew.
  assert (forall s, is_ascii s -> words_and_spaces P s ->
            tokensOf P s = tokensOf fallbackPlatform s \/
            tokensOf P s = segmenterTokens P s (sampleSegments s 0)) as Htok.
  { intros s Hs [Hfb | (segmenter & Hseg & Hs')].
    - left. unfold tokensOf, uses_fallback in *. simpl.
      destruct (IntlSegmenter P) as [segmenter|].
      + rewrite Hfb. by apply greedyTokens_ascii.
      + by apply greedyTokens_ascii.
    - right. unfold tokensOf. by rewrite Hseg, Hs'. }
  assert (is_ascii quick_brown_fox) as Hao by (repeat constructor; lia).
  assert (is_ascii fast_dark_wolf) as Han by (repeat constructor; lia).
  destruct (Htok _ Hao Hso) as [-> | ->], (Htok _ Han Hsn) as [-> | ->];
    vm_compute; reflexivity.
Qed.

Lemma quick_brown_fox_one_replace_witness :
  normalizeNFC segmenterPlatform quick_brown_fox = quick_brown_fox /\
  normalizeNFC segmenterPlatform fast_dark_wolf = fast_dark_wolf /\
  words_and_spaces segmenterPlatform quick_brown_fox /\
  words_and_spaces segmenterPlatform fast_dark_wolf /\
  exec (getTextDiffs segmenterPlatform quick_brown_fox fast_dark_wolf) =
  Val [mkTextDiff quick_brown_fox 0 (length quick_brown_fox) fast_dark_wolf replace].
Proof.
  assert (forall s, words_and_spaces segmenterPlatform s) as Hws.
  { intros s. right. by eexists. }
  split; [reflexivity|]. split; [reflexivity|].
  split; [apply Hws|]. split; [apply Hws|].
  apply (quick_brown_fox_one_replace segmenterPlatform);
    [reflexivity | reflexivity | by intros c _ | apply Hws | apply Hws].
Defined.

(** ** The classification of the emitted diffs *)

Lemma rangeDiff_changeType oldNorm newNorm oldTokens newTokens ch d :
  rangeDiff oldNorm newNorm oldTokens newTokens ch = Some d ->
  classifyChange (slice oldTokens (oldTokStart ch) (oldTokEnd ch))
                 (slice newTokens (newTokStart ch) (newTokEnd ch))
                 (oldText d) (newText d) = Val (changeType d).
Proof.
  unfold rangeDiff, diffOfRange.
  destruct (oldOffsets oldTokens ch) as [[s e]|]; [|done].
  destruct (newOffsets newTokens ch) as [new|]; [|done]. simpl.
  case_bool_decide; [done|].
  destruct (classifyChange _ _ _ _) as [ct|] eqn:Hct; [|done]. simpl.
  intros [= <-]. simpl. exact Hct.
Qed.

(** The type of every returned diff is the answer of the classifier for
    the token spans and the two substrings of its change range. *)
Lemma diffs_classified (P : Platform) (oldTextInput newTextInput : str) d :
  d ∈ diffsOf P oldTextInput newTextInput ->
  exists ch,
    ch ∈ mergedRanges (tokensOf P (normalizeNFC P (normalizeNFC P oldTextInput)))
                      (tokensOf P (normalizeNFC P (normalizeNFC P newTextInput))) /\
    classifyChange
      (slice (tokensOf P (normalizeNFC P (normalizeNFC P oldTextInput)))
             (oldTokStart ch) (oldTokEnd ch))
      (slice (tokensOf P (normalizeNFC P (normalizeNFC P newTextInput)))
             (newTokStart ch) (newTokEnd ch))
      (oldText d) (newText d) = Val (changeType d).
Proof.
  unfold diffsOf. case_bool_decide; [by intros ?%elem_of_nil|].
  intros (ch & Hch & Hd)%list_elem_of_omap. exists ch. split; [done|].
  by eapply rangeDiff_changeType.
Qed.

(** ** The examples of the specification *)

(** ["" -> "new"]: one insertion. *)
Example insertion_example :
  exec (getTextDiffs fallbackPlatform [] [110; 101; 119]%Z) =
  Val [mkTextDiff [] 0 0 [110; 101; 119]%Z insert].
Proof. by vm_compute. Qed.

(** ["old" -> ""]: one deletion. *)
Example deletion_example :
  exec (getTextDiffs fallbackPlatform [111; 108; 100]%Z []) =
  Val [mkTextDiff [111; 108; 100]%Z 0 3 [] delete].
Proof. by vm_compute. Qed.

(** ["color" -> "colour"]: distance 1, threshold 2. *)
Example spelling_example :
  exec (getTextDiffs fallbackPlatform [99; 111; 108; 111; 114]%Z
          [99; 111; 108; 111; 117; 114]%Z) =
  Val [mkTextDiff [99; 111; 108; 111; 114]%Z 0 5 [99; 111; 108; 111; 117; 114]%Z
         spell_correction].
Proof. by vm_compute. Qed.

(** ["cat" -> "dog"]: distance 3, threshold 2. *)
Example replace_example :
  exec (getTextDiffs fallbackPlatform [99; 97; 116]%Z [100; 111; 103]%Z) =
  Val [mkTextDiff [99; 97; 116]%Z 0 3 [100; 111; 103]%Z replace].
Proof. by vm_compute. Qed.

(** A surrogate pair is one character of the fallback tokenizer: with
    U+1D400 (a letter) between two spaces the tokens are separator, word,
    separator. *)
Example surrogate_pair_example :
  exec (tokenize (mkPlatform (fun s => s) (fun c => (c =? 0x1D400)%Z) None)
          [32; 0xD835; 0xDC00; 32]%Z) =
  Val [mkToken sep [32%Z] 0 1; mkToken word [0xD835; 0xDC00]%Z 1 3; mkToken sep [32%Z] 3 4].
Proof. by vm_compute. Qed.

(** ** The edit distance as a metric *)

Section Metric.

Lemma alignment_sym a b n : alignment a b n -> alignment b a n.
Proof. induction 1; by constructor. Qed.

Lemma alignment_zero a b n : alignment a b n -> n = 0 -> a = b.
Proof.
  induction 1 as [|x a b n _ IH|y a b n _ IH|x a b n _ IH|x y a b n _ IH]; intros Hn;
    try discriminate; [done|]. by rewrite IH.
Qed.

Lemma alignment_lengths a b n :
  alignment a b n -> length a <= length b + n /\ length b <= length a + n.
Proof. induction 1; simpl; lia. Qed.

Lemma alignment_trans a b c n m :
  alignment a b n -> alignment b c m -> exists k, alignment a c k /\ k <= n + m.
Proof.
  intros H1. revert c m.
  induction H1 as [|x a b n _ IH|y a b n _ IH|x a b n _ IH|x y a b n _ IH]; intros c m H2.
  - by exists m.
  - destruct (IH c m H2) as (k & Hk & Hle). exists (S k). split; [by constructor | lia].
  - remember (y :: b) as yb eqn:Hyb. revert Hyb.
    induction H2 as [|y' b0 c m H2 IH2|z b0 c m H2 IH2|y' b0 c m H2 IH2|y' z b0 c m H2 IH2];
      intros Hyb; try discriminate.
    + injection Hyb as -> ->. destruct (IH c m H2) as (k & Hk & Hle).
      exists k. split; [done | lia].
    + destruct (IH2 Hyb) as (k & Hk & Hle). exists (S k). split; [by constructor | lia].
    + injection Hyb as -> ->. destruct (IH c m H2) as (k & Hk & Hle).
      exists (S k). split; [by constructor | lia].
    + injection Hyb as -> ->. destruct (IH c m H2) as (k & Hk & Hle).
      exists (S k). split; [by constructor | lia].
  - remember (x :: b) as xb eqn:Hxb. revert Hxb.
    induction H2 as [|y' b0 c m H2 IH2|z b0 c m H2 IH2|y' b0 c m H2 IH2|y' z b0 c m H2 IH2];
      intros Hxb; try discriminate.
    + injection Hxb as -> ->. destruct (IH c m H2) as (k & Hk & Hle).
      exists (S k). split; [by constructor | lia].
    + destruct (IH2 Hxb) as (k & Hk & Hle). exists (S k). split; [by constructor | lia].
    + injection Hxb as -> ->. destruct (IH c m H2) as (k & Hk & Hle).
      exists k. split; [by constructor | lia].
    + injection Hxb as -> ->. destruct (IH c m H2) as (k & Hk & Hle).
      exists (S k). split; [by constructor | lia].
  - remember (y :: b) as yb eqn:Hyb. revert Hyb.
    induction H2 as [|y' b0 c m H2 IH2|z b0 c m H2 IH2|y' b0 c m H2 IH2|y' z b0 c m H2 IH2];
      intros Hyb; try discriminate.
    + injection Hyb as -> ->. destruct (IH c m H2) as (k & Hk & Hle).
      exists (S k). split; [by constructor | lia].
    + destruct (IH2 Hyb) as (k & Hk & Hle). exists (S k). split; [by constructor | lia].
    + injection Hyb as -> ->. destruct (IH c m H2) as (k & Hk & Hle).
      exists (S k). split; [by constructor | lia].
    + injection Hyb as -> ->. destruct (IH c m H2) as (k & Hk & Hle).
      exists (S k). split; [by constructor | lia].
Qed.

Lemma edit_distance_sym a b : edit_distance a b = edit_distance b a.
Proof.
  apply Nat.le_antisymm; apply edit_distance_least, alignment_sym, edit_distance_alignment.
Qed.

Lemma edit_distance_upper a b : edit_distance a b <= Nat.max (length a) (length b).
Proof.
  revert b. induction a as [|x a IH]; intros b; [simpl; lia|].
  destruct b as [|y b]; [simpl; lia|].
  rewrite edit_distance_cons. specialize (IH b). pose proof (subst_cost_le x y).
  simpl length. lia.
Qed.

End Metric.

(** X1: [levenshtein] does not depend on the order of its arguments. *)
Theorem levenshtein_symmetric (a b : str) : levenshtein a b = levenshtein b a.
Proof. by rewrite !levenshtein_spec, edit_distance_sym. Qed.

(** X2: [levenshtein] returns 0 exactly for equal strings: the early return
    [a === b] and the table agree. *)
Theorem levenshtein_zero_iff (a b : str) : levenshtein a b = Val 0 <-> a = b.
Proof.
  rewrite levenshtein_spec. split.
  - intros [= Hd]. apply (alignment_zero a b (edit_distance a b)); [|done].
    apply edit_distance_alignment.
  - intros ->. by rewrite edit_distance_refl.
Qed.

(** X3: the distance lies between the difference of the two lengths and the
    longer length. *)
Theorem levenshtein_bounds (a b : str) :
  exists d,
    levenshtein a b = Val d /\
    length a - length b <= d /\ length b - length a <= d /\
    d <= Nat.max (length a) (length b).
Proof.
  exists (edit_distance a b). split; [apply levenshtein_spec|].
  destruct (alignment_lengths a b _ (edit_distance_alignment a b)).
  pose proof (edit_distance_upper a b). lia.
Qed.

(** X4: the triangle inequality: going through a third string is never
    shorter. *)
Theorem levenshtein_triangle (a b c : str) :
  exists dab dbc dac,
    levenshtein a b = Val dab /\ levenshtein b c = Val dbc /\ levenshtein a c = Val dac /\
    dac <= dab + dbc.
Proof.
  exists (edit_distance a b), (edit_distance b c), (edit_distance a c).
  split_and!; try apply levenshtein_spec.
  destruct (alignment_trans a b c _ _ (edit_distance_alignment a b) (edit_distance_alignment b c))
    as (k & Hk & Hle).
  apply edit_distance_least in Hk. lia.
Qed.

(** ** The shape of the diffs *)

Section DiffShape.

Lemma classifyChange_sides oldToks newToks (oldSlice newSlice : str) ct :
  classifyChange oldToks newToks oldSlice newSlice = Val ct ->
  oldSlice <> newSlice ->
  (ct = insert <-> oldSlice = []) /\ (ct = delete <-> newSlice = []).
Proof.
  unfold classifyChange. intros Hc Hne.
  destruct oldSlice as [|x o], newSlice as [|y n]; [done | | |]; simpl in Hc.
  - by injection Hc as <-.
  - by injection Hc as <-.
  - destruct (_ && _) in Hc.
    + destruct (readArr _ _ _) in Hc; [|done]. destruct (readArr _ _ _) in Hc; [|done].
      simpl in Hc. destruct (levenshtein _ _) in Hc; [|done]. simpl in Hc.
      destruct (_ && _) in Hc; by injection Hc as <-.
    + by injection Hc as <-.
Qed.

Lemma rangeDiff_differs oldNorm newNorm oldTokens newTokens ch d :
  rangeDiff oldNorm newNorm oldTokens newTokens ch = Some d -> oldText d <> newText d.
Proof.
  unfold rangeDiff, diffOfRange.
  destruct (oldOffsets oldTokens ch) as [[s e]|]; [|done].
  destruct (newOffsets newTokens ch) as [new|]; [|done]. simpl.
  case_bool_decide; [done|].
  destruct (classifyChange _ _ _ _) as [ct|]; [|done]. simpl. by intros [= <-].
Qed.

Lemma boundary_slice text toks i j :
  tiled text 0 (length text) toks -> i <= j ->
  slice text (boundary toks i) (boundary toks j) = concat (value <$> slice toks i j) /\
  boundary toks i <= boundary toks j <= length text.
Proof.
  intros Ht Hij. destruct (tiled_slice text _ toks i j Ht) as [Hs Hle]; [lia | lia |].
  split; [symmetry; by apply tiled_concat|]. apply tiled_le in Hs. lia.
Qed.

Lemma boundary_drop text toks i :
  tiled text 0 (length text) toks ->
  drop (boundary toks i) text = concat (value <$> drop i toks).
Proof.
  intros Ht. destruct (tiled_split text 0 _ toks i Ht) as [_ H]; [lia|]. simpl in H.
  rewrite (tiled_concat _ _ _ _ H) by lia. unfold slice.
  rewrite take_ge; [done|]. rewrite length_drop. lia.
Qed.

Lemma boundary_all text toks : 
  tiled text 0 (length text) toks -> boundary toks (length toks) = length text.
Proof.
  intros Ht. pose proof (boundary_drop text toks (length toks) Ht) as H.
  rewrite drop_all in H. simpl in H. apply (f_equal length) in H.
  rewrite length_drop in H. simpl in H.
  destruct (boundary_slice text toks 0 (length toks) Ht) as [_ ?]; lia.
Qed.

Lemma tiled_whole text toks :
  tiled text 0 (length text) toks -> concat (value <$> toks) = text.
Proof.
  intros Ht. rewrite (tiled_concat _ _ _ _ Ht) by lia.
  unfold slice. by rewrite drop_0, Nat.sub_0_r, firstn_all.
Qed.

Lemma tiled_empty_text q toks : tiled [] 0 q toks -> q <= 0 -> toks = [].
Proof.
  destruct toks as [|t rest]; [done|]. intros (_ & Hlt & _ & Hrest) Hq.
  apply tiled_le in Hrest. lia.
Qed.

Lemma slice_all {A : Type} (l : list A) : slice l 0 (length l) = l.
Proof. unfold slice. by rewrite drop_0, Nat.sub_0_r, firstn_all. Qed.

Section Tiled.

Variables (oldNorm newNorm : str) (oldTokens newTokens : list Token).
Hypothesis Hold : tiled oldNorm 0 (length oldNorm) oldTokens.
Hypothesis Hnew : tiled newNorm 0 (length newNorm) newTokens.

(** The diff of a range under the two tilings: its two texts are the texts
    of the two token spans and its offsets their boundaries in the old
    text. *)
Lemma rangeDiff_tiled_eq r :
  oldTokStart r <= oldTokEnd r <= length oldTokens ->
  newTokStart r <= newTokEnd r <= length newTokens ->
  rangeDiff oldNorm newNorm oldTokens newTokens r =
  let oldSlice := concat (value <$> slice oldTokens (oldTokStart r) (oldTokEnd r)) in
  let newSlice := concat (value <$> slice newTokens (newTokStart r) (newTokEnd r)) in
  if bool_decide (oldSlice = newSlice) then None
  else match classifyChange (slice oldTokens (oldTokStart r) (oldTokEnd r))
               (slice newTokens (newTokStart r) (newTokEnd r)) oldSlice newSlice with
       | Val ct =>
           Some (mkTextDiff oldSlice (boundary oldTokens (oldTokStart r))
                   (boundary oldTokens (oldTokEnd r)) newSlice ct)
       | Err _ => None
       end.
Proof using Hold Hnew.
  intros Ho Hn. unfold rangeDiff, diffOfRange.
  rewrite (oldOffsets_tiled oldNorm oldTokens r Hold Ho).
  destruct (newSlice_tiled newNorm newTokens r Hnew Hn) as (new & -> & Hnewslice).
  cbn [obind fst snd]. rewrite Hnewslice, (oldSlice_tiled oldNorm oldTokens r Hold Ho).
  cbv zeta. case_bool_decide; [done|].
  by destruct (classifyChange _ _ _ _) as [ct|e].
Qed.

Lemma rangeDiff_span r d :
  oldTokStart r <= oldTokEnd r <= length oldTokens ->
  newTokStart r <= newTokEnd r <= length newTokens ->
  rangeDiff oldNorm newNorm oldTokens newTokens r = Some d ->
  startIndex d = boundary oldTokens (oldTokStart r) /\
  endIndex d = boundary oldTokens (oldTokEnd r) /\
  oldText d = concat (value <$> slice oldTokens (oldTokStart r) (oldTokEnd r)) /\
  newText d = concat (value <$> slice newTokens (newTokStart r) (newTokEnd r)).
Proof using Hold Hnew.
  intros Ho Hn. rewrite (rangeDiff_tiled_eq r Ho Hn). cbv zeta.
  case_bool_decide; [done|]. destruct (classifyChange _ _ _ _) as [ct|]; [|done].
  by intros [= <-].
Qed.

Lemma rangeDiff_none r :
  oldTokStart r <= oldTokEnd r <= length oldTokens ->
  newTokStart r <= newTokEnd r <= length newTokens ->
  rangeDiff oldNorm newNorm oldTokens newTokens r = None ->
  concat (value <$> slice oldTokens (oldTokStart r) (oldTokEnd r)) =
  concat (value <$> slice newTokens (newTokStart r) (newTokEnd r)).
Proof using Hold Hnew.
  intros Ho Hn. rewrite (rangeDiff_tiled_eq r Ho Hn). cbv zeta.
  case_bool_decide; [done|].
  match goal with |- context [classifyChange ?a ?b ?c ?d] =>
    destruct (classifyChange_total a b c d) as (ct & ->) end. done.
Qed.

(** Applying the diffs of the ranges still to come, with the cursor at or
    before the boundary the ranges start from. *)
Lemma applyDiffs_ranges rs po pn c :
  Forall (fun r => oldTokStart r <= oldTokEnd r <= length oldTokens /\
                   newTokStart r <= newTokEnd r <= length newTokens) rs ->
  ranges_cover (value <$> oldTokens) (value <$> newTokens) po pn rs ->
  c <= boundary oldTokens po ->
  applyDiffs oldNorm c (omap (rangeDiff oldNorm newNorm oldTokens newTokens) rs) =
  slice oldNorm c (boundary oldTokens po) ++ concat (value <$> drop pn newTokens).
Proof using Hold Hnew.
  intros Hall. revert po pn c.
  induction Hall as [|r rest [Ho Hn] _ IH]; intros po pn c Hcov Hc.
  - simpl in Hcov. cbn [omap applyDiffs]. rewrite fmap_drop, <- Hcov, <- fmap_drop.
    rewrite <- (boundary_drop oldNorm) by done. symmetry. by apply slice_drop_app.
  - destruct Hcov as (Hpo & Hpn & Heq & _ & _ & Hrest).
    rewrite !slice_fmap in Heq. apply (f_equal (@concat Z)) in Heq.
    destruct (boundary_slice oldNorm oldTokens po (oldTokStart r) Hold Hpo) as [Hgap [Hb1 _]].
    destruct (boundary_slice oldNorm oldTokens (oldTokStart r) (oldTokEnd r) Hold)
      as [Hspan [Hb2 Hb3]]; [lia|].
    assert (concat (value <$> drop pn newTokens) =
            concat (value <$> slice newTokens pn (newTokStart r)) ++
            concat (value <$> slice newTokens (newTokStart r) (newTokEnd r)) ++
            concat (value <$> drop (newTokEnd r) newTokens)) as ->.
    { rewrite <- !concat_app, <- !fmap_app. do 2 f_equal.
      rewrite slice_drop_app by lia. by rewrite slice_drop_app by lia. }
    rewrite omap_cons_case.
    destruct (rangeDiff oldNorm newNorm oldTokens newTokens r) as [d|] eqn:Hd.
    + destruct (rangeDiff_span r d Ho Hn Hd) as (Hs & He & _ & Hnt).
      cbn [applyDiffs]. rewrite Hs, He, Hnt.
      rewrite (IH (oldTokEnd r) (newTokEnd r)) by (done || lia).
      rewrite (slice_empty oldNorm (boundary oldTokens (oldTokEnd r))) by lia.
      rewrite <- Heq, <- Hgap. cbn [app].
      rewrite (app_assoc (slice oldNorm c (boundary oldTokens po))), slice_app by lia. done.
    + rewrite (IH (oldTokEnd r) (newTokEnd r)) by (done || lia).
      rewrite <- (rangeDiff_none r Ho Hn Hd), <- Heq, <- Hgap, <- Hspan.
      rewrite !app_assoc. f_equal. rewrite slice_app by lia. by rewrite slice_app by lia.
Qed.

End Tiled.

Lemma rangeDiff_old_span oldNorm newNorm oldTokens newTokens r d :
  tiled oldNorm 0 (length oldNorm) oldTokens ->
  oldTokStart r <= oldTokEnd r <= length oldTokens ->
  rangeDiff oldNorm newNorm oldTokens newTokens r = Some d ->
  startIndex d = boundary oldTokens (oldTokStart r) /\
  endIndex d = boundary oldTokens (oldTokEnd r).
Proof.
  intros Htiled Ho. unfold rangeDiff, diffOfRange.
  rewrite (oldOffsets_tiled oldNorm oldTokens r Htiled Ho).
  destruct (newOffsets newTokens r) as [new|]; [|done]. cbn [obind fst snd].
  case_bool_decide; [done|].
  destruct (classifyChange _ _ _ _) as [ct|]; [|done]. simpl. by intros [= <-].
Qed.

Lemma ranges_ordered_Forall n m po pn rs :
  ranges_ordered n m po pn rs ->
  Forall (fun r => oldTokStart r <= oldTokEnd r <= n /\ newTokStart r <= newTokEnd r <= m) rs.
Proof.
  intros Hord. apply Forall_forall. intros r Hin.
  by destruct (ranges_ordered_elem _ _ _ _ _ _ Hord Hin) as (_ & _ & ? & ? & _).
Qed.

Lemma ranges_ordered_lookup_end_lt n m po pn rs i j r r' :
  ranges_ordered n m po pn rs -> i < j ->
  rs !! i = Some r -> rs !! j = Some r' ->
  oldTokEnd r < oldTokStart r'.
Proof.
  revert po pn i j. induction rs as [|r0 rest IH]; intros po pn i j; [done|].
  intros (_ & _ & Ho & _ & _ & Hrest) Hij Hi Hj.
  destruct j as [|j]; [lia|]. destruct i as [|i].
  - simpl in Hi, Hj. injection Hi as ->.
    apply list_elem_of_lookup_2 in Hj.
    destruct (ranges_ordered_elem _ _ _ _ _ _ Hrest Hj) as (? & _). lia.
  - simpl in Hi, Hj. eapply IH; [exact Hrest | | exact Hi | exact Hj]. lia.
Qed.

End DiffShape.

(** X5: every returned diff changes something: its two texts differ; it is an
    [insert] exactly when its old text is empty and a [delete] exactly when
    its new text is empty. *)
Theorem diffs_sides (P : Platform) (oldTextInput newTextInput : str) :
  exists diffs,
    exec (getTextDiffs P oldTextInput newTextInput) = Val diffs /\
    forall d, d ∈ diffs ->
      oldText d <> newText d /\
      (changeType d = insert <-> oldText d = []) /\
      (changeType d = delete <-> newText d = []).
Proof.
  exists (diffsOf P oldTextInput newTextInput). split; [apply exec_getTextDiffs|].
  intros d. unfold diffsOf. case_bool_decide; [by intros ?%elem_of_nil|].
  intros (ch & _ & Hd)%list_elem_of_omap.
  pose proof (rangeDiff_differs _ _ _ _ _ _ Hd) as Hne. split; [done|].
  eapply classifyChange_sides; [by eapply rangeDiff_changeType | done].
Qed.

(** X6: the spans of the diffs lie inside the normalized old text, each as long
    as the diff's old text, and they are disjoint: a diff ends strictly
    before the next one starts (NFC being idempotent and the segments of
    the old text well formed). *)
Theorem diff_spans_disjoint (P : Platform) (oldTextInput newTextInput : str) :
  normalizeNFC P (normalizeNFC P oldTextInput) = normalizeNFC P oldTextInput ->
  segmenter_ok P (normalizeNFC P oldTextInput) ->
  exists diffs,
    exec (getTextDiffs P oldTextInput newTextInput) = Val diffs /\
    (forall d, d ∈ diffs ->
       startIndex d <= endIndex d <= length (normalizeNFC P oldTextInput) /\
       length (oldText d) = endIndex d - startIndex d) /\
    (forall i j d1 d2,
       i < j -> diffs !! i = Some d1 -> diffs !! j = Some d2 ->
       endIndex d1 < startIndex d2).
Proof.
  intros Hio Hso. exists (diffsOf P oldTextInput newTextInput).
  split; [apply exec_getTextDiffs|].
  unfold diffsOf. case_bool_decide.
  { split; [by intros d ?%elem_of_nil | by intros i j d1 d2 _ ?]. }
  rewrite Hio.
  set (oldNorm := normalizeNFC P oldTextInput). set (newNorm := normalizeNFC P newTextInput).
  set (oldTokens := tokensOf P oldNorm). set (newTokens := tokensOf P _).
  assert (tiled oldNorm 0 (length oldNorm) oldTokens) as Hold by by apply tokensOf_tiled.
  destruct (mergedRanges_invariants oldTokens newTokens) as (Hord & _).
  split.
  - intros d (r & Hr & Hd)%list_elem_of_omap.
    destruct (ranges_ordered_elem _ _ _ _ _ _ Hord Hr) as (_ & _ & Ho & _).
    destruct (rangeDiff_offsets _ _ _ _ _ _ Hd) as [-> _].
    destruct (rangeDiff_old_span _ _ _ _ _ _ Hold Ho Hd) as (-> & ->).
    destruct (boundary_slice oldNorm oldTokens (oldTokStart r) (oldTokEnd r) Hold)
      as [_ [? ?]]; [lia|].
    split; [lia|]. apply slice_length; lia.
  - intros i j d1 d2 Hij H1 H2.
    destruct (omap_lookup_lt _ _ _ _ _ _ Hij H1 H2)
      as (i' & j' & r1 & r2 & Hij' & Hr1 & Hr2 & Hd1 & Hd2).
    pose proof (ranges_ordered_lookup_end_lt _ _ _ _ _ _ _ _ _ Hord Hij' Hr1 Hr2) as Hlt.
    destruct (ranges_ordered_elem _ _ _ _ _ _ Hord (list_elem_of_lookup_2 _ _ _ Hr1))
      as (_ & _ & Ho1 & _).
    destruct (ranges_ordered_elem _ _ _ _ _ _ Hord (list_elem_of_lookup_2 _ _ _ Hr2))
      as (_ & _ & Ho2 & _).
    destruct (rangeDiff_old_span _ _ _ _ _ _ Hold Ho1 Hd1) as (_ & ->).
    destruct (rangeDiff_old_span _ _ _ _ _ _ Hold Ho2 Hd2) as (-> & _).
    eapply (boundary_lt oldNorm); [exact Hold | lia | done | lia].
Qed.

Lemma diff_spans_disjoint_witness :
  exists diffs,
    exec (getTextDiffs segmenterPlatform [97; 32; 98; 32; 99; 32; 100]%Z
            [120; 32; 98; 32; 99; 32; 121]%Z) = Val diffs /\
    (forall d, d ∈ diffs ->
       startIndex d <= endIndex d <=
         length (normalizeNFC segmenterPlatform [97; 32; 98; 32; 99; 32; 100]%Z) /\
       length (oldText d) = endIndex d - startIndex d) /\
    (forall i j d1 d2,
       i < j -> diffs !! i = Some d1 -> diffs !! j = Some d2 ->
       endIndex d1 < startIndex d2).
Proof.
  apply (diff_spans_disjoint segmenterPlatform [97; 32; 98; 32; 99; 32; 100]%Z
           [120; 32; 98; 32; 99; 32; 121]%Z); vm_compute; reflexivity.
Defined.

(** X7: the diffs are a patch: applied to the normalized old text they give
    the normalized new text (NFC being idempotent and the segments well
    formed). *)
Theorem applyDiffs_getTextDiffs (P : Platform) (oldTextInput newTextInput : str) :
  normalizeNFC P (normalizeNFC P oldTextInput) = normalizeNFC P oldTextInput ->
  normalizeNFC P (normalizeNFC P newTextInput) = normalizeNFC P newTextInput ->
  segmenter_ok P (normalizeNFC P oldTextInput) ->
  segmenter_ok P (normalizeNFC P newTextInput) ->
  exists diffs,
    exec (getTextDiffs P oldTextInput newTextInput) = Val diffs /\
    applyDiffs (normalizeNFC P oldTextInput) 0 diffs = normalizeNFC P newTextInput.
Proof.
  intros Hio Hin Hso Hsn. exists (diffsOf P oldTextInput newTextInput).
  split; [apply exec_getTextDiffs|].
  unfold diffsOf. case_bool_decide as Heq; [simpl; by rewrite drop_0|].
  rewrite Hio, Hin.
  set (oldNorm := normalizeNFC P oldTextInput). set (newNorm := normalizeNFC P newTextInput).
  set (oldTokens := tokensOf P oldNorm). set (newTokens := tokensOf P newNorm).
  assert (tiled oldNorm 0 (length oldNorm) oldTokens) as Hold by by apply tokensOf_tiled.
  assert (tiled newNorm 0 (length newNorm) newTokens) as Hnew by by apply tokensOf_tiled.
  destruct (mergedRanges_invariants oldTokens newTokens) as (Hord & Hcov & _).
  rewrite (applyDiffs_ranges oldNorm newNorm oldTokens newTokens Hold Hnew _ 0 0);
    [| by eapply ranges_ordered_Forall | done | lia].
  rewrite boundary_0, slice_empty by lia. rewrite drop_0. by apply tiled_whole.
Qed.

Lemma applyDiffs_getTextDiffs_witness :
  exists diffs,
    exec (getTextDiffs segmenterPlatform [97; 44; 32; 98; 32; 99]%Z
            [97; 32; 120; 32; 99; 33]%Z) = Val diffs /\
    applyDiffs (normalizeNFC segmenterPlatform [97; 44; 32; 98; 32; 99]%Z) 0 diffs =
    normalizeNFC segmenterPlatform [97; 32; 120; 32; 99; 33]%Z.
Proof.
  apply (applyDiffs_getTextDiffs segmenterPlatform [97; 44; 32; 98; 32; 99]%Z
           [97; 32; 120; 32; 99; 33]%Z); vm_compute; reflexivity.
Defined.

(** ** Empty inputs and texts without a common word *)

Section OneDiff.

Lemma slice_elem_of {A : Type} (l : list A) i j x : x ∈ slice l i j -> x ∈ l.
Proof.
  unfold slice. intros H%elem_of_take. destruct H as (k & H & _).
  rewrite lookup_drop in H. by eapply list_elem_of_lookup_2.
Qed.

Lemma shared_values_sep (l1 l2 : list Token) :
  value <$> l1 = value <$> l2 ->
  (forall t u, t ∈ l1 -> u ∈ l2 -> value t = value u -> kind t = sep /\ kind u = sep) ->
  forallb isSep l1 = true /\ forallb isSep l2 = true.
Proof.
  revert l2. induction l1 as [|t l1 IH]; intros [|u l2]; try done.
  csimpl. intros [= Hv Hrest] Hsep.
  destruct (Hsep t u) as [Ht Hu]; [by left | by left | done |].
  destruct (IH l2 Hrest) as [-> ->].
  { intros t' u' ? ?. apply Hsep; by right. }
  unfold isSep. by rewrite !bool_decide_eq_true_2.
Qed.

Lemma mergeFrom_single oldTokens newTokens last rest :
  no_common_word oldTokens newTokens ->
  ranges_cover (value <$> oldTokens) (value <$> newTokens)
    (oldTokEnd last) (newTokEnd last) rest ->
  exists r, mergeFrom oldTokens newTokens last rest = [r].
Proof.
  intros Hsep. revert last. induction rest as [|ch rest IH]; intros last; [by eexists|].
  intros (Ho & Hn & Heq & _ & _ & Hrest). cbn [mergeFrom]. unfold mergeable.
  rewrite !slice_fmap in Heq.
  destruct (shared_values_sep _ _ Heq) as [-> ->].
  { intros t u Ht%slice_elem_of Hu%slice_elem_of. by apply Hsep. }
  destruct (Nat.leb_spec (oldTokEnd last) (oldTokStart ch)); [|lia].
  destruct (Nat.leb_spec (newTokEnd last) (newTokStart ch)); [|lia].
  simpl. by apply IH.
Qed.

Lemma mergedRanges_single oldTokens newTokens :
  no_common_word oldTokens newTokens ->
  length (mergedRanges oldTokens newTokens) <= 1.
Proof.
  intros Hsep. unfold mergedRanges.
  destruct (changesFrom_invariants (value <$> oldTokens) (value <$> newTokens)
              (lcs_policy (value <$> oldTokens) (value <$> newTokens) 0 0) 0 0)
    as [_ Hcov]; [lia | lia | apply lcs_policy_ok |].
  rewrite !length_fmap in Hcov.
  destruct (changesFrom _ _ _ _ _) as [|ch rest]; [simpl; lia|].
  destruct Hcov as (_ & _ & _ & _ & _ & Hrest).
  destruct (mergeFrom_single oldTokens newTokens ch rest Hsep Hrest) as [r ->]. done.
Qed.

Lemma omap_length_le {A B : Type} (f : A -> option B) (l : list A) :
  length (omap f l) <= length l.
Proof.
  induction l as [|a l IH]; [done|]. rewrite omap_cons_case.
  destruct (f a); simpl; lia.
Qed.

(** Without tokens on one side there is one range, over everything. *)
Lemma mergedRanges_nil_l newTokens :
  newTokens <> [] ->
  mergedRanges [] newTokens = [mkRange 0 0 0 (length newTokens)].
Proof.
  intros Hne. unfold mergedRanges. simpl.
  destruct newTokens as [|u newTokens]; [done|]. done.
Qed.

Lemma mergedRanges_nil_r oldTokens :
  oldTokens <> [] ->
  mergedRanges oldTokens [] = [mkRange 0 (length oldTokens) 0 0].
Proof.
  intros Hne. unfold mergedRanges. csimpl. rewrite lcs_policy_nil_r.
  destruct oldTokens as [|t oldTokens]; [done|]. done.
Qed.

Lemma tiled_nonempty text toks :
  tiled text 0 (length text) toks -> text <> [] -> toks <> [].
Proof. intros Ht Hne ->. simpl in Ht. by destruct text. Qed.

End OneDiff.

(** X8: an empty old text against a non-empty new one gives one diff: the
    insertion of the whole new text at offset 0. *)
Theorem getTextDiffs_empty_old (P : Platform) (newTextInput : str) :
  normalizeNFC P [] = [] ->
  normalizeNFC P (normalizeNFC P newTextInput) = normalizeNFC P newTextInput ->
  segmenter_ok P [] ->
  segmenter_ok P (normalizeNFC P newTextInput) ->
  normalizeNFC P newTextInput <> [] ->
  exec (getTextDiffs P [] newTextInput) =
  Val [mkTextDiff [] 0 0 (normalizeNFC P newTextInput) insert].
Proof.
  intros Hnil Hidem Hso Hsn Hne. rewrite exec_getTextDiffs. unfold diffsOf.
  rewrite !Hnil, Hidem. rewrite bool_decide_eq_false_2 by done.
  set (newNorm := normalizeNFC P newTextInput) in *.
  assert (tiled [] 0 (length (@nil Z)) (tokensOf P [])) as Hold by by apply tokensOf_tiled.
  assert (tiled newNorm 0 (length newNorm) (tokensOf P newNorm)) as Hnew
    by by apply tokensOf_tiled.
  assert (tokensOf P [] = []) as Htoks by (eapply tiled_empty_text; [exact Hold | done]).
  rewrite Htoks in *.
  rewrite mergedRanges_nil_l by by eapply tiled_nonempty.
  rewrite omap_cons_case, (rangeDiff_tiled_eq [] newNorm [] _ Hold Hnew) by (simpl; lia).
  cbn [oldTokStart oldTokEnd newTokStart newTokEnd]. cbv zeta.
  rewrite (slice_all (tokensOf P newNorm)), (tiled_whole _ _ Hnew). simpl concat.
  rewrite bool_decide_eq_false_2 by done.
  unfold classifyChange. destruct newNorm as [|c newNorm']; [done|]. done.
Qed.

Lemma getTextDiffs_empty_old_witness :
  exec (getTextDiffs segmenterPlatform [] [110; 101; 119; 32; 116]%Z) =
  Val [mkTextDiff [] 0 0 (normalizeNFC segmenterPlatform [110; 101; 119; 32; 116]%Z) insert].
Proof.
  apply (getTextDiffs_empty_old segmenterPlatform [110; 101; 119; 32; 116]%Z);
    vm_compute; (reflexivity || discriminate).
Defined.

(** X9: a non-empty old text against an empty new one gives one diff: the
    deletion of the whole old text. *)
Theorem getTextDiffs_empty_new (P : Platform) (oldTextInput : str) :
  normalizeNFC P [] = [] ->
  normalizeNFC P (normalizeNFC P oldTextInput) = normalizeNFC P oldTextInput ->
  segmenter_ok P [] ->
  segmenter_ok P (normalizeNFC P oldTextInput) ->
  normalizeNFC P oldTextInput <> [] ->
  exec (getTextDiffs P oldTextInput []) =
  Val [mkTextDiff (normalizeNFC P oldTextInput) 0 (length (normalizeNFC P oldTextInput)) []
         delete].
Proof.
  intros Hnil Hidem Hsn Hso Hne. rewrite exec_getTextDiffs. unfold diffsOf.
  rewrite !Hnil, Hidem. rewrite bool_decide_eq_false_2 by done.
  set (oldNorm := normalizeNFC P oldTextInput) in *.
  assert (tiled [] 0 (length (@nil Z)) (tokensOf P [])) as Hnew by by apply tokensOf_tiled.
  assert (tiled oldNorm 0 (length oldNorm) (tokensOf P oldNorm)) as Hold
    by by apply tokensOf_tiled.
  assert (tokensOf P [] = []) as Htoks by (eapply tiled_empty_text; [exact Hnew | done]).
  rewrite Htoks in *.
  rewrite mergedRanges_nil_r by by eapply tiled_nonempty.
  rewrite omap_cons_case, (rangeDiff_tiled_eq oldNorm [] _ [] Hold Hnew) by (simpl; lia).
  cbn [oldTokStart oldTokEnd newTokStart newTokEnd]. cbv zeta.
  rewrite (slice_all (tokensOf P oldNorm)), (tiled_whole _ _ Hold), boundary_0,
    (boundary_all oldNorm) by done.
  simpl concat. rewrite bool_decide_eq_false_2 by done.
  unfold classifyChange. destruct oldNorm as [|c oldNorm']; [done|]. done.
Qed.

Lemma getTextDiffs_empty_new_witness :
  exec (getTextDiffs segmenterPlatform [111; 108; 100; 33]%Z []) =
  Val [mkTextDiff (normalizeNFC segmenterPlatform [111; 108; 100; 33]%Z) 0
         (length (normalizeNFC segmenterPlatform [111; 108; 100; 33]%Z)) [] delete].
Proof.
  apply (getTextDiffs_empty_new segmenterPlatform [111; 108; 100; 33]%Z);
    vm_compute; (reflexivity || discriminate).
Defined.

(** X10: two different texts without a common word give exactly one diff: the
    changes on both sides of unchanged separators are merged into one. *)
Theorem no_common_word_one_diff (P : Platform) (oldTextInput newTextInput : str)
    (oldTokens newTokens : list Token) :
  normalizeNFC P (normalizeNFC P oldTextInput) = normalizeNFC P oldTextInput ->
  normalizeNFC P (normalizeNFC P newTextInput) = normalizeNFC P newTextInput ->
  segmenter_ok P (normalizeNFC P oldTextInput) ->
  segmenter_ok P (normalizeNFC P newTextInput) ->
  normalizeNFC P oldTextInput <> normalizeNFC P newTextInput ->
  exec (tokenize P oldTextInput) = Val oldTokens ->
  exec (tokenize P newTextInput) = Val newTokens ->
  no_common_word oldTokens newTokens ->
  exists d, exec (getTextDiffs P oldTextInput newTextInput) = Val [d].
Proof.
  intros Hio Hin Hso Hsn Hne Hto Htn Hsep.
  rewrite exec_tokenize in Hto, Htn. injection Hto as <-. injection Htn as <-.
  rewrite exec_getTextDiffs. unfold diffsOf.
  rewrite bool_decide_eq_false_2 by done. rewrite Hio, Hin.
  set (oldNorm := normalizeNFC P oldTextInput) in *.
  set (newNorm := normalizeNFC P newTextInput) in *.
  set (oldTokens := tokensOf P oldNorm) in *. set (newTokens := tokensOf P newNorm) in *.
  pose proof (mergedRanges_single oldTokens newTokens Hsep) as Hlen.
  pose proof (omap_length_le (rangeDiff oldNorm newNorm oldTokens newTokens)
                (mergedRanges oldTokens newTokens)) as Hle.
  destruct (omap _ _) as [|d [|d' diffs]] eqn:Hdiffs; [| by exists d | simpl in Hle; lia].
  destruct Hne. eapply no_diff_same_text; [| | exact Hdiffs]; by apply tokensOf_tiled.
Qed.

Lemma no_common_word_one_diff_witness :
  exists d,
    exec (getTextDiffs segmenterPlatform [97; 44; 32; 98; 32; 99]%Z
            [120; 44; 32; 121; 32; 122; 122]%Z) = Val [d].
Proof.
  eapply (no_common_word_one_diff segmenterPlatform [97; 44; 32; 98; 32; 99]%Z
           [120; 44; 32; 121; 32; 122; 122]%Z); try (vm_compute; reflexivity).
  - discriminate.
  - intros t u Ht Hu.
    repeat (apply elem_of_cons in Ht as [-> | Ht]); [.. | by apply elem_of_nil in Ht];
      repeat (apply elem_of_cons in Hu as [-> | Hu]); try (by apply elem_of_nil in Hu);
      vm_compute; intros; (done || discriminate).
Defined.

(** ** Calls in sequence and equivalent inputs *)

Lemma getTextDiffsEach_loop P inputs results tr :
  exists tr',
    forOfM inputs (fun input results =>
        diffs <- getTextDiffs P input.1 input.2 ;;
        ret (results ++ [diffs])) results (mkWorld 0 tr) =
    Val (results ++ ((fun input => diffsOf P input.1 input.2) <$> inputs), mkWorld 0 tr').
Proof.
  revert results tr. induction inputs as [|input inputs IH]; intros results tr.
  - exists tr. simpl. unfold ret. by rewrite app_nil_r.
  - cbn [forOfM]. unfold bind at 1. unfold bind at 1. rewrite getTextDiffs_run.
    unfold ret at 1. destruct (IH (results ++ [diffsOf P input.1 input.2])
                                 (tr ++ eventsOf P input.1 input.2)) as [tr' ->].
    exists tr'. csimpl. by rewrite <- app_assoc.
Qed.

(** X11: [getTextDiffs] keeps nothing from one call to the next: in a sequence
    of calls each one returns what it returns when called alone, the
    [lastIndex] of the shared [WORD_REGEX] being back at 0 after every
    call. *)
Theorem getTextDiffs_reentrant (P : Platform) (inputs : list (str * str)) :
  exists results,
    exec (getTextDiffsEach P inputs) = Val results /\
    Forall2 (fun input diffs => exec (getTextDiffs P input.1 input.2) = Val diffs)
      inputs results.
Proof.
  exists ((fun input => diffsOf P input.1 input.2) <$> inputs). split.
  - unfold exec, getTextDiffsEach, initialWorld.
    by destruct (getTextDiffsEach_loop P inputs [] []) as [tr' ->].
  - apply Forall2_fmap_r, Forall_Forall2_diag, Forall_forall. intros input _.
    apply exec_getTextDiffs.
Qed.

(** X12: the result depends on the inputs through their NFC forms only:
    canonically equivalent inputs give the same diffs. *)
Theorem getTextDiffs_equivalent_inputs (P : Platform) (x x' y y' : str) :
  normalizeNFC P x = normalizeNFC P x' ->
  normalizeNFC P y = normalizeNFC P y' ->
  exec (getTextDiffs P x y) = exec (getTextDiffs P x' y').
Proof. intros Hx Hy. rewrite !exec_getTextDiffs. unfold diffsOf. by rewrite Hx, Hy. Qed.

Lemma getTextDiffs_equivalent_inputs_witness :
  exec (getTextDiffs composingPlatform [99; 97; 102; 0x65; 0x301]%Z [99; 97; 102; 0x65]%Z) =
  exec (getTextDiffs composingPlatform [99; 97; 102; 0xE9]%Z [99; 97; 102; 0x65]%Z).
Proof.
  apply (getTextDiffs_equivalent_inputs composingPlatform
           [99; 97; 102; 0x65; 0x301]%Z [99; 97; 102; 0xE9]%Z
           [99; 97; 102; 0x65]%Z [99; 97; 102; 0x65]%Z); vm_compute; reflexivity.
Defined.

(** ** Merging twice *)

Lemma mergeFrom_irreducible_id oldTokens newTokens last rest :
  irreducible oldTokens newTokens (last :: rest) ->
  mergeFrom oldTokens newTokens last rest = last :: rest.
Proof.
  revert last. induction rest as [|ch rest IH]; intros last; [done|].
  intros [Hm Hrest]. cbn [mergeFrom]. rewrite Hm. by rewrite IH.
Qed.

(** X13: merging is idempotent: the merging loop run on its own result changes
    nothing. *)
Theorem mergeChanges_idempotent (oldTokens newTokens : list Token) :
  exists merged,
    exec (mergedChangesOf oldTokens newTokens) = Val merged /\
    exec (mergeChanges oldTokens newTokens merged) = Val merged.
Proof.
  exists (mergedRanges oldTokens newTokens). split; [apply exec_mergedChangesOf|].
  unfold exec. rewrite mergeChanges_run.
  destruct (mergedRanges_invariants oldTokens newTokens) as (_ & _ & Hirr).
  destruct (mergedRanges oldTokens newTokens) as [|r rest]; [done|].
  by rewrite mergeFrom_irreducible_id.
Qed.

(** ** The classifier and the aligner under exchange of the two sides *)

(** X14: exchanging the old and the new side exchanges [insert] and [delete]
    and keeps [replace] and [spell-correction]. *)
Theorem classifyChange_converse (oldToks newToks : list Token) (oldSlice newSlice : str) :
  exists ct,
    classifyChange oldToks newToks oldSlice newSlice = Val ct /\
    classifyChange newToks oldToks newSlice oldSlice = Val (converse ct).
Proof.
  unfold classifyChange.
  destruct oldSlice as [|x o], newSlice as [|y n]; cbn [length bool_decide andb Nat.ltb Nat.leb];
    try (rewrite ?bool_decide_eq_true_2, ?bool_decide_eq_false_2 by done; simpl;
         by eexists).
  all: rewrite ?bool_decide_eq_true_2, ?bool_decide_eq_false_2 by done; simpl andb; cbv iota.
  all: rewrite (andb_comm (bool_decide (length (filter _ newToks) = 1))).
  all: destruct (_ && _) eqn:Hone; [|by eexists].
  all: apply andb_true_iff in Hone as [[ow How]%bool_decide_eq_true%length_one_inv
                                        [nw Hnw]%bool_decide_eq_true%length_one_inv].
  all: rewrite How, Hnw; simpl; rewrite !levenshtein_spec; simpl.
  all: rewrite (edit_distance_sym (value nw)), (Nat.max_comm (length (value nw))).
  all: destruct (_ && _); by eexists.
Qed.

Section Symmetry.

Lemma lcs_len_sym xs ys : lcs_len xs ys = lcs_len ys xs.
Proof.
  apply Nat.le_antisymm.
  - destruct (lcs_len_witness xs ys) as (c & H1 & H2 & <-). by apply lcs_len_upper.
  - destruct (lcs_len_witness ys xs) as (c & H1 & H2 & <-). by apply lcs_len_upper.
Qed.

Lemma lcs_len_le_l xs ys : lcs_len xs ys <= length xs.
Proof. destruct (lcs_len_witness xs ys) as (c & H1 & _ & <-). by apply sublist_length. Qed.

Lemma lcs_policy_shift xs ys i j :
  lcs_policy xs ys i j = (fun p => (i + p.1, j + p.2)) <$> lcs_policy xs ys 0 0.
Proof.
  revert ys i j. induction xs as [|x xs IHx]; intros ys i j; [done|].
  induction ys as [|y ys IHy] in i, j |- *; [done|].
  rewrite !lcs_policy_cons. case_bool_decide.
  - csimpl. rewrite !Nat.add_0_r. f_equal.
    rewrite (IHx ys (S i) (S j)), (IHx ys 1 1), <- list_fmap_compose.
    apply list_fmap_ext. intros _ [p q] _. simpl. f_equal; lia.
  - destruct (_ <=? _).
    + rewrite (IHx (y :: ys) (S i) j), (IHx (y :: ys) 1 0), <- list_fmap_compose.
      apply list_fmap_ext. intros _ [p q] _. simpl. f_equal; lia.
    + rewrite (IHy i (S j)), (IHy 0 1), <- list_fmap_compose.
      apply list_fmap_ext. intros _ [p q] _. simpl. f_equal; lia.
Qed.

Lemma lcs_policy_prefix ps xs ys i j :
  lcs_policy (ps ++ xs) (ps ++ ys) i j =
  ((fun k => (i + k, j + k)) <$> seq 0 (length ps)) ++
  lcs_policy xs ys (i + length ps) (j + length ps).
Proof.
  revert i j. induction ps as [|p ps IH]; intros i j.
  - simpl. by rewrite !Nat.add_0_r.
  - rewrite <- !app_comm_cons, lcs_policy_cons, bool_decide_eq_true_2 by done.
    rewrite IH. cbn [length seq]. csimpl. rewrite !Nat.add_0_r. f_equal.
    rewrite <- fmap_S_seq, <- list_fmap_compose.
    f_equal; [|f_equal; lia].
    apply list_fmap_ext. intros _ k _. simpl. f_equal; lia.
Qed.

End Symmetry.

(** X15: the number of aligned pairs does not depend on which sequence comes
    first, and is at most the length of the shorter one. *)
Theorem lcsIndicesTokens_count (a b : list Token) :
  exists pairs pairs',
    lcsIndicesTokens a b = Val pairs /\
    lcsIndicesTokens b a = Val pairs' /\
    length pairs = length pairs' /\
    length pairs <= Nat.min (length a) (length b).
Proof.
  eexists _, _. split_and!; try apply lcsIndicesTokens_spec.
  - rewrite !lcs_policy_length. apply lcs_len_sym.
  - rewrite lcs_policy_length.
    pose proof (lcs_len_le_l (value <$> a) (value <$> b)) as H1.
    pose proof (lcs_len_le_l (value <$> b) (value <$> a)) as H2.
    rewrite (lcs_len_sym (value <$> b)) in H2. rewrite length_fmap in H1, H2. lia.
Qed.

(** X16: a common prefix is aligned token by token: when the first [k] values
    of the two sequences agree, the pairs are [(0,0) ... (k-1,k-1)]
    followed by the pairs of the two remainders, moved by [k]. *)
Theorem lcsIndicesTokens_common_prefix (pa pb a b : list Token) :
  value <$> pa = value <$> pb ->
  exists pairs,
    lcsIndicesTokens a b = Val pairs /\
    lcsIndicesTokens (pa ++ a) (pb ++ b) =
    Val (((fun k => (k, k)) <$> seq 0 (length pa)) ++
         ((fun p => (length pa + p.1, length pa + p.2)) <$> pairs)).
Proof.
  intros Hp. eexists. split; [apply lcsIndicesTokens_spec|].
  rewrite lcsIndicesTokens_spec, !fmap_app, <- Hp, lcs_policy_prefix. simpl.
  by rewrite length_fmap, lcs_policy_shift.
Qed.

Lemma lcsIndicesTokens_common_prefix_witness :
  exists pairs,
    lcsIndicesTokens [mkToken word [98%Z] 2 3] [mkToken word [99%Z] 2 3] = Val pairs /\
    lcsIndicesTokens
      ([mkToken word [97%Z] 0 1; mkToken sep [32%Z] 1 2] ++ [mkToken word [98%Z] 2 3])
      ([mkToken word [97%Z] 0 1; mkToken sep [32%Z] 1 2] ++ [mkToken word [99%Z] 2 3]) =
    Val (((fun k => (k, k)) <$> seq 0 2) ++ ((fun p => (2 + p.1, 2 + p.2)) <$> pairs)).
Proof.
  apply (lcsIndicesTokens_common_prefix
           [mkToken word [97%Z] 0 1; mkToken sep [32%Z] 1 2]
           [mkToken word [97%Z] 0 1; mkToken sep [32%Z] 1 2]
           [mkToken word [98%Z] 2 3] [mkToken word [99%Z] 2 3]).
  reflexivity.
Defined.

(** ** Surrogate pairs on the fallback path *)

Section SurrogatePairs.

Variable P : Platform.

Lemma splitsPair_cons c s k : splitsPair (c :: s) (S (S k)) = splitsPair s (S k).
Proof. reflexivity. Qed.

Lemma trail_not_lead d : isTrailSurrogate d = true -> isLeadSurrogate d = false.
Proof.
  unfold isTrailSurrogate, isLeadSurrogate. intros [H1 H2]%andb_true_iff.
  apply Z.leb_le in H1. apply andb_false_iff. right. apply Z.leb_gt. lia.
Qed.

(** A run of one class never ends inside a surrogate pair. *)
Lemma classRun_no_split cls s : splitsPair s (classRun P cls s) = false.
Proof.
  induction s as [|c|c d rest IH1 IH2] using str_pair_ind.
  - done.
  - simpl. by destruct (Bool.eqb _ _).
  - rewrite classRun_cons2.
    destruct (isLeadSurrogate c && isTrailSurrogate d) eqn:Hpair.
    + destruct (Bool.eqb _ cls); [|done].
      apply andb_true_iff in Hpair as [_ Hd%trail_not_lead].
      cbn [Nat.add]. destruct (classRun P cls rest) as [|k] eqn:Hk.
      * simpl. rewrite Hd. by destruct rest.
      * by rewrite !splitsPair_cons.
    + destruct (Bool.eqb _ cls); [|done].
      cbn [Nat.add]. destruct (classRun P cls (d :: rest)) as [|k] eqn:Hk.
      * simpl. exact Hpair.
      * by rewrite splitsPair_cons.
Qed.

Lemma splitsPair_drop s p k : 0 < k -> splitsPair s (p + k) = splitsPair (drop p s) k.
Proof.
  intros Hk. destruct k as [|k]; [lia|].
  replace (p + S k) with (S (p + k)) by lia. unfold splitsPair.
  by rewrite !lookup_drop, Nat.add_succ_r.
Qed.

Lemma greedy_runs_no_split s p toks t :
  greedy_runs P s p toks -> t ∈ toks ->
  splitsPair s (end_ t) = false /\ (splitsPair s p = false -> splitsPair s (start t) = false).
Proof.
  revert p. induction toks as [|t0 rest IH]; intros p; [by intros _ ?%elem_of_nil|].
  intros (Hs & Hlt & Hle & _ & Hrun & Hrest).
  assert (splitsPair s (end_ t0) = false) as Hend.
  { replace (end_ t0) with (p + (end_ t0 - p)) by lia.
    rewrite splitsPair_drop by lia. rewrite Hrun. apply classRun_no_split. }
  intros [->|Hin]%elem_of_cons.
  - split; [done|]. by rewrite Hs.
  - destruct (IH _ Hrest Hin) as [He Hst]. split; [done|]. intros _. by apply Hst.
Qed.

Lemma old_offsets_no_split s toks ch b e :
  (forall t, t ∈ toks -> splitsPair s (start t) = false /\ splitsPair s (end_ t) = false) ->
  old_offsets_of toks ch b e ->
  splitsPair s b = false /\ splitsPair s e = false.
Proof.
  intros Htoks (H1 & H2 & H3).
  destruct (decide (oldTokStart ch < oldTokEnd ch)) as [Hlt|Hge].
  - destruct (H1 Hlt) as (first & final & Hf%list_elem_of_lookup_2 &
                          Hl%list_elem_of_lookup_2 & -> & ->).
    split; [by apply Htoks in Hf as [? _] | by apply Htoks in Hl as [_ ?]].
  - destruct (decide (0 < oldTokStart ch)) as [Hpos|Hzero].
    + destruct (H2 Hge Hpos) as (left & Hl%list_elem_of_lookup_2 & -> & ->).
      by apply Htoks in Hl as [_ ?].
    + destruct (H3 Hge) as [-> ->]; [lia|]. done.
Qed.

End SurrogatePairs.

(** X17: on the fallback path no token starts or ends inside a surrogate pair:
    the regular expression with the [u] flag takes a pair as one
    character. *)
Theorem tokenize_keeps_surrogate_pairs (P : Platform) (text : str) :
  uses_fallback P (normalizeNFC P text) ->
  exists toks,
    exec (tokenize P text) = Val toks /\
    forall t, t ∈ toks ->
      splitsPair (normalizeNFC P text) (start t) = false /\
      splitsPair (normalizeNFC P text) (end_ t) = false.
Proof.
  intros Hfb. exists (tokensOf P (normalizeNFC P text)). split; [apply exec_tokenize|].
  intros t Hin. apply tokensOf_fallback in Hfb.
  destruct (greedy_runs_no_split P _ _ _ t Hfb Hin) as [He Hs]. split; [by apply Hs | done].
Qed.

Lemma tokenize_keeps_surrogate_pairs_witness :
  exists toks,
    exec (tokenize (mkPlatform (fun s => s) (fun c => (c =? 0x1D400)%Z) None)
            [0xD835; 0xDC00; 32; 0xD835; 0xD835; 0xDC00]%Z) = Val toks /\
    forall t, t ∈ toks ->
      splitsPair [0xD835; 0xDC00; 32; 0xD835; 0xD835; 0xDC00]%Z (start t) = false /\
      splitsPair [0xD835; 0xDC00; 32; 0xD835; 0xD835; 0xDC00]%Z (end_ t) = false.
Proof.
  apply (tokenize_keeps_surrogate_pairs
           (mkPlatform (fun s => s) (fun c => (c =? 0x1D400)%Z) None)
           [0xD835; 0xDC00; 32; 0xD835; 0xD835; 0xDC00]%Z).
  reflexivity.
Defined.

(** X18: when the old text is tokenized on the fallback path, no diff starts or
    ends inside a surrogate pair of the normalized old text (NFC being
    idempotent). *)
Theorem diffs_keep_surrogate_pairs (P : Platform) (oldTextInput newTextInput : str) :
  normalizeNFC P (normalizeNFC P oldTextInput) = normalizeNFC P oldTextInput ->
  uses_fallback P (normalizeNFC P oldTextInput) ->
  exists diffs,
    exec (getTextDiffs P oldTextInput newTextInput) = Val diffs /\
    forall d, d ∈ diffs ->
      splitsPair (normalizeNFC P oldTextInput) (startIndex d) = false /\
      splitsPair (normalizeNFC P oldTextInput) (endIndex d) = false.
Proof.
  intros Hidem Hfb. exists (diffsOf P oldTextInput newTextInput).
  split; [apply exec_getTextDiffs|].
  intros d. unfold diffsOf. case_bool_decide; [by intros ?%elem_of_nil|]. rewrite Hidem.
  intros (ch & _ & Hd)%list_elem_of_omap.
  destruct (rangeDiff_offsets _ _ _ _ _ _ Hd) as [_ Hoff].
  eapply old_offsets_no_split; [|exact Hoff].
  intros t Hin. apply tokensOf_fallback in Hfb.
  destruct (greedy_runs_no_split P _ _ _ t Hfb Hin) as [He Hs]. split; [by apply Hs | done].
Qed.

Lemma diffs_keep_surrogate_pairs_witness :
  exists diffs,
    exec (getTextDiffs (mkPlatform (fun s => s) (fun c => (c =? 0x1D400)%Z) None)
            [0xD835; 0xDC00; 32; 0xD835; 0xD835; 0xDC00]%Z
            [0xD835; 0xDC00; 32; 0xD835; 0xDC00]%Z) = Val diffs /\
    forall d, d ∈ diffs ->
      splitsPair [0xD835; 0xDC00; 32; 0xD835; 0xD835; 0xDC00]%Z (startIndex d) = false /\
      splitsPair [0xD835; 0xDC00; 32; 0xD835; 0xD835; 0xDC00]%Z (endIndex d) = false.
Proof.
  apply (diffs_keep_surrogate_pairs
           (mkPlatform (fun s => s) (fun c => (c =? 0x1D400)%Z) None)
           [0xD835; 0xDC00; 32; 0xD835; 0xD835; 0xDC00]%Z
           [0xD835; 0xDC00; 32; 0xD835; 0xDC00]%Z); reflexivity.
Defined.

(** ** Aligned words stay outside the diffs *)

Section AlignedWords.

Lemma changesFrom_unmatched vo vn lcs po pn r i j :
  po <= length vo -> pn <= length vn ->
  policy_pairs_ok (drop po vo) (drop pn vn) po pn lcs ->
  r ∈ changesFrom (length vo) (length vn) lcs po pn ->
  (i, j) ∈ lcs ->
  ~ oldTokStart r <= i < oldTokEnd r.
Proof.
  revert po pn. induction lcs as [|[p q] rest IH]; intros po pn Hpo Hpn Hok Hr Hij.
  - by apply elem_of_nil in Hij.
  - destruct Hok as (Hp & Hq & (v & Hv1 & Hv2) & Hrest).
    rewrite lookup_drop in Hv1, Hv2.
    replace (po + (p - po)) with p in Hv1 by lia.
    replace (pn + (q - pn)) with q in Hv2 by lia.
    pose proof (lookup_lt_Some _ _ _ Hv1). pose proof (lookup_lt_Some _ _ _ Hv2).
    rewrite !drop_drop in Hrest.
    replace (po + (S p - po)) with (S p) in Hrest by lia.
    replace (pn + (S q - pn)) with (S q) in Hrest by lia.
    cbn [changesFrom fst snd] in Hr. rewrite !Nat.add_1_r in Hr.
    assert (i = p \/ S p <= i) as Hi.
    { apply elem_of_cons in Hij as [[= -> ->] | Hij]; [by left | right].
      by destruct (policy_pairs_ok_elem _ _ _ _ _ _ _ Hrest Hij) as (? & _). }
    apply elem_of_app in Hr as [Hr | Hr].
    + destruct (_ || _); [|by apply elem_of_nil in Hr].
      apply list_elem_of_singleton in Hr as ->. simpl. lia.
    + destruct (changesFrom_invariants vo vn rest (S p) (S q)) as [Hord _];
        [lia | lia | done |].
      destruct (ranges_ordered_elem _ _ _ _ _ _ Hord Hr) as (Hs & _).
      apply elem_of_cons in Hij as [[= -> ->] | Hij]; [lia|].
      by apply (IH (S p) (S q)).
Qed.

Lemma slice_lookup {A : Type} (l : list A) a b i x :
  a <= i < b -> l !! i = Some x -> x ∈ slice l a b.
Proof.
  intros Hi Hx. unfold slice. apply (list_elem_of_lookup_2 _ (i - a)).
  rewrite lookup_take_lt by lia. rewrite lookup_drop.
  by replace (a + (i - a)) with i by lia.
Qed.

Lemma forallb_elem_of {A : Type} (f : A -> bool) (l : list A) x :
  forallb f l = true -> x ∈ l -> f x = true.
Proof.
  intros Hall Hin. induction l as [|a l IH]; [by apply elem_of_nil in Hin|].
  simpl in Hall. apply andb_true_iff in Hall as [Ha Hl].
  apply elem_of_cons in Hin as [->|Hin]; [done | by apply IH].
Qed.

Lemma mergeFrom_avoids oldTokens newTokens pairs n m po pn last rest :
  n <= length oldTokens ->
  ranges_ordered n m po pn (last :: rest) ->
  Forall (avoids_aligned_words oldTokens pairs) (last :: rest) ->
  Forall (avoids_aligned_words oldTokens pairs) (mergeFrom oldTokens newTokens last rest).
Proof.
  intros Hn. revert po pn last.
  induction rest as [|ch rest IH]; intros po pn last Hord Hall; [done|].
  pose proof Hord as (Ho & Hnn & Hlo & Hln & Hne & Hch & Hcn & Hco & Hcnn & Hcne & Hrest).
  apply Forall_cons in Hall as [Hlast Hall]. pose proof Hall as [Hc Hall']%Forall_cons.
  cbn [mergeFrom]. destruct (mergeable _ _ _ _) eqn:Hm.
  - apply (IH po pn).
    + simpl. split_and!; (done || lia).
    + apply Forall_cons. split; [|done]. intros i Hi. simpl in Hi.
      destruct (decide (i < oldTokEnd last)) as [?|?]; [apply Hlast; lia|].
      destruct (decide (oldTokStart ch <= i)) as [?|?]; [apply Hc; lia|].
      intros [_ (t & Ht & Hw)].
      unfold mergeable in Hm. apply andb_true_iff in Hm as [Hm _].
      destruct (Nat.leb_spec (oldTokEnd last) (oldTokStart ch)); [|lia].
      assert (isSep t = true) as Hsep.
      { eapply forallb_elem_of; [exact Hm|].
        apply (slice_lookup _ _ _ i); [lia | done]. }
      unfold isSep in Hsep. apply bool_decide_eq_true in Hsep. congruence.
  - apply Forall_cons. split; [done|]. apply (IH (S (oldTokEnd last)) (S (newTokEnd last))).
    + simpl. split_and!; (done || lia).
    + done.
Qed.

Lemma mergedRanges_avoid oldTokens newTokens :
  Forall (avoids_aligned_words oldTokens
            (lcs_policy (value <$> oldTokens) (value <$> newTokens) 0 0))
    (mergedRanges oldTokens newTokens).
Proof.
  unfold mergedRanges.
  set (lcs := lcs_policy (value <$> oldTokens) (value <$> newTokens) 0 0).
  pose proof (lcs_policy_ok (value <$> oldTokens) (value <$> newTokens) 0 0) as Hok.
  destruct (changesFrom_invariants (value <$> oldTokens) (value <$> newTokens) lcs 0 0)
    as [Hord _]; [lia | lia | done |].
  assert (Forall (avoids_aligned_words oldTokens lcs)
            (changesFrom (length oldTokens) (length newTokens) lcs 0 0)) as Hall.
  { apply Forall_forall. intros r Hr i Hi [[j Hj] _].
    eapply (changesFrom_unmatched (value <$> oldTokens) (value <$> newTokens) lcs 0 0 r i j);
      [lia | lia | done | by rewrite !length_fmap | done | done]. }
  rewrite !length_fmap in Hord.
  destruct (changesFrom _ _ _ _ _) as [|ch rest]; [done|].
  by eapply mergeFrom_avoids.
Qed.

End AlignedWords.

(** X19: a word of the old text that the alignment pairs with a token of the
    new text is never reported as changed: no diff spans it (NFC being
    idempotent and the segments of the old text well formed).  Aligned
    separators can be taken into a diff by the merging. *)
Theorem aligned_words_outside_diffs (P : Platform) (oldTextInput newTextInput : str) :
  normalizeNFC P (normalizeNFC P oldTextInput) = normalizeNFC P oldTextInput ->
  segmenter_ok P (normalizeNFC P oldTextInput) ->
  exists diffs oldTokens newTokens pairs,
    exec (getTextDiffs P oldTextInput newTextInput) = Val diffs /\
    exec (tokenize P (normalizeNFC P oldTextInput)) = Val oldTokens /\
    exec (tokenize P (normalizeNFC P newTextInput)) = Val newTokens /\
    lcsIndicesTokens oldTokens newTokens = Val pairs /\
    forall d i j t,
      d ∈ diffs -> (i, j) ∈ pairs -> oldTokens !! i = Some t -> kind t = word ->
      ~ (startIndex d <= start t /\ end_ t <= endIndex d).
Proof.
  intros Hidem Hseg. eexists (diffsOf P oldTextInput newTextInput), _, _, _. split_and!.
  - apply exec_getTextDiffs.
  - apply exec_tokenize.
  - apply exec_tokenize.
  - apply lcsIndicesTokens_spec.
  - rewrite Hidem. intros d i j t. unfold diffsOf. case_bool_decide; [by intros ?%elem_of_nil|].
    rewrite Hidem.
    set (oldNorm := normalizeNFC P oldTextInput).
    set (oldTokens := tokensOf P oldNorm). set (newTokens := tokensOf P _).
    intros (r & Hr & Hd)%list_elem_of_omap Hij Ht Hw [Hs He].
    assert (tiled oldNorm 0 (length oldNorm) oldTokens) as Htiled by by apply tokensOf_tiled.
    destruct (mergedRanges_invariants oldTokens newTokens) as (Hord & _).
    destruct (ranges_ordered_elem _ _ _ _ _ _ Hord Hr) as (_ & _ & Ho & _).
    destruct (rangeDiff_old_span _ _ _ _ _ _ Htiled Ho Hd) as [Hsd Hed].
    destruct (tiled_lookup _ _ _ _ _ Htiled ltac:(lia) Ht) as [Hst Het].
    pose proof (lookup_lt_Some _ _ _ Ht) as Hi.
    rewrite Hsd, Hst in Hs. rewrite Hed, Het in He.
    assert (oldTokStart r <= i < oldTokEnd r) as Hin.
    { split.
      - destruct (decide (oldTokStart r <= i)) as [?|?]; [done|].
        pose proof (boundary_lt oldNorm _ oldTokens i (oldTokStart r) Htiled). lia.
      - destruct (decide (i < oldTokEnd r)) as [?|?]; [done|].
        pose proof (boundary_lt oldNorm _ oldTokens (oldTokEnd r) (S i) Htiled). lia. }
    pose proof (mergedRanges_avoid oldTokens newTokens) as Hav.
    rewrite Forall_forall in Hav. apply (Hav r Hr i Hin). split; [by exists j | by exists t].
Qed.

Lemma aligned_words_outside_diffs_witness :
  exists diffs oldTokens newTokens pairs,
    exec (getTextDiffs segmenterPlatform [97; 32; 98; 32; 99]%Z [120; 32; 98; 32; 121]%Z)
      = Val diffs /\
    exec (tokenize segmenterPlatform (normalizeNFC segmenterPlatform [97; 32; 98; 32; 99]%Z))
      = Val oldTokens /\
    exec (tokenize segmenterPlatform (normalizeNFC segmenterPlatform [120; 32; 98; 32; 121]%Z))
      = Val newTokens /\
    lcsIndicesTokens oldTokens newTokens = Val pairs /\
    forall d i j t,
      d ∈ diffs -> (i, j) ∈ pairs -> oldTokens !! i = Some t -> kind t = word ->
      ~ (startIndex d <= start t /\ end_ t <= endIndex d).
Proof.
  apply (aligned_words_outside_diffs segmenterPlatform [97; 32; 98; 32; 99]%Z
           [120; 32; 98; 32; 121]%Z); vm_compute; reflexivity.
Defined.

(** ** Short words *)

(** X20: the threshold is never below 2, so two different words of at most two
    code units each are always a spelling correction: the classifier
    answers [spell-correction] for ["is"] and ["at"]. *)
Theorem short_words_spell_correction (oldToks newToks : list Token) (oldSlice newSlice : str)
    (oldWord newWord : Token) :
  oldSlice <> [] -> newSlice <> [] ->
  filter (fun t => kind t = word) oldToks = [oldWord] ->
  filter (fun t => kind t = word) newToks = [newWord] ->
  value oldWord <> value newWord ->
  length (value oldWord) <= 2 -> length (value newWord) <= 2 ->
  classifyChange oldToks newToks oldSlice newSlice = Val spell_correction.
Proof.
  intros Ho Hn How Hnw Hne Hlo Hln. unfold classifyChange.
  destruct oldSlice as [|x o]; [done|]. destruct newSlice as [|y n]; [done|].
  rewrite How, Hnw. simpl. rewrite levenshtein_spec. simpl.
  pose proof (edit_distance_upper (value oldWord) (value newWord)) as Hup.
  assert (0 < edit_distance (value oldWord) (value newWord)) as Hpos.
  { destruct (edit_distance (value oldWord) (value newWord)) eqn:Hd; [|lia].
    destruct Hne. apply (alignment_zero _ _ 0); [|done].
    rewrite <- Hd. apply edit_distance_alignment. }
  destruct (Nat.ltb_spec 0 (edit_distance (value oldWord) (value newWord))); [|lia].
  destruct (Z.leb_spec (Z.of_nat (edit_distance (value oldWord) (value newWord)))
              (spellThreshold (Nat.max (length (value oldWord)) (length (value newWord)))));
    [done|].
  unfold spellThreshold in *. lia.
Qed.

Lemma short_words_spell_correction_witness :
  classifyChange [mkToken word [105; 115]%Z 0 2] [mkToken word [97; 116]%Z 0 2]
    [105; 115]%Z [97; 116]%Z = Val spell_correction.
Proof.
  apply (short_words_spell_correction
           [mkToken word [105; 115]%Z 0 2] [mkToken word [97; 116]%Z 0 2]
           [105; 115]%Z [97; 116]%Z
           (mkToken word [105; 115]%Z 0 2) (mkToken word [97; 116]%Z 0 2));
    (discriminate || reflexivity || (simpl; lia)).
Defined.
